(** * irmf-slicer: slicing orchestration and the binvox accumulator

    A shallow embedding of [irmf/renderer.go] (slice counts, raster
    dimensions, the three axis sweeps, backend selection) and of
    [binvox/binvox.go] (the per-material loop, file naming and
    [ProcessZSlice]), followed by the properties proved about them.

    Conventions of the embedding:
    - Go's [float32] is the IEEE-754 binary32 format, taken from the
      Standard Library's [SpecFloat] with precision 24 and [emax] 128;
      every operation rounds on its own (no fused multiply-add);
    - Go's [int] is 64 bits wide; it is a [Z] and every operation that
      can leave the range is wrapped explicitly;
    - a Go [error] result is an [option error], a nil pointer
      dereference or an index out of range is the outcome [Panicked];
    - calls into the rendering backend, the slice processor and the
      binvox writer are recorded, in order, in a trace. *)

From Stdlib Require Import ZArith Lia Bool List String Ascii SpecFloat Reals Lra.
From stdpp Require Import base numbers list list_numbers strings gmap.

Local Open Scope Z_scope.

(* ================================================================== *)
(** ** Go's [int] *)

Module GoInt.

Definition minInt : Z := - 2 ^ 63.
Definition maxInt : Z := 2 ^ 63 - 1.

(** Two's complement wrap-around of a 64-bit signed integer. *)
Definition wrap (z : Z) : Z := (z + 2 ^ 63) mod 2 ^ 64 - 2 ^ 63.

Definition add (a b : Z) : Z := wrap (a + b).
Definition sub (a b : Z) : Z := wrap (a - b).

(** [n++] *)
Definition incr (n : Z) : Z := add n 1.

(** [a % b]: the remainder has the sign of the dividend. *)
Definition rem (a b : Z) : Z := Z.rem a b.

Definition inRange (z : Z) : bool := (minInt <=? z) && (z <=? maxInt).

End GoInt.

(* ================================================================== *)
(** ** Go's [float32] *)

Module Float32.

Definition prec : Z := 24.
Definition emax : Z := 128.

Definition float32 : Type := spec_float.

Definition add : float32 -> float32 -> float32 := SFadd prec emax.
Definition sub : float32 -> float32 -> float32 := SFsub prec emax.
Definition mul : float32 -> float32 -> float32 := SFmul prec emax.
Definition div : float32 -> float32 -> float32 := SFdiv prec emax.

(** [x < y]; false as soon as one side is a NaN. *)
Definition ltb : float32 -> float32 -> bool := SFltb.

(** The conversion [float32(n)] of an [int]: round to nearest, ties
    to even. *)
Definition ofInt (n : Z) : float32 := binary_normalize prec emax n 0 false.

(** The integer part of a finite value, rounded toward zero. *)
Definition truncate (f : float32) : option Z :=
  match f with
  | S754_zero _ => Some 0
  | S754_finite s m e =>
      Some (cond_Zopp s
              (match e with
               | Z0 => Zpos m
               | Zpos _ => Z.shiftl (Zpos m) e
               | Zneg p => Z.shiftr (Zpos m) (Zpos p)
               end))
  | S754_infinity _ | S754_nan => None
  end.

(** The conversion [int(f)]. The language leaves the result open when
    the value does not fit; the amd64 instruction the compiler emits
    (CVTTSS2SQ) yields the smallest [int] then, also for a NaN. *)
Definition toInt (f : float32) : Z :=
  match truncate f with
  | Some t => if GoInt.inRange t then t else GoInt.minInt
  | None => GoInt.minInt
  end.

(** The constants of the source, as [float32] values. *)
Definition zero : float32 := S754_zero false.
Definition half : float32 := S754_finite false 8388608 (-24).   (* 0.5 *)
Definition one : float32 := S754_finite false 8388608 (-23).    (* 1.0 *)
Definition thousand : float32 := S754_finite false 16384000 (-14). (* 1000.0 *)
Definition near : float32 := S754_finite false 13421773 (-27).  (* float32(0.1) *)
Definition far : float32 := S754_finite false 13107200 (-17).   (* 100.0 *)

(** Neither an infinity nor a NaN. *)
Definition isFinite (f : float32) : bool :=
  match f with
  | S754_zero _ | S754_finite _ _ _ => true
  | _ => false
  end.

(** [2 * f] as an integer, when [f] is a multiple of one half. *)
Definition twice (f : float32) : option Z :=
  match f with
  | S754_zero _ => Some 0
  | S754_finite s m e =>
      match e + 1 with
      | Z0 => Some (cond_Zopp s (Zpos m))
      | Zpos _ => Some (cond_Zopp s (Z.shiftl (Zpos m) (e + 1)))
      | Zneg p =>
          if Z.land (Zpos m) (Z.ones (Zpos p)) =? 0
          then Some (cond_Zopp s (Z.shiftr (Zpos m) (Zpos p)))
          else None
      end
  | _ => None
  end.

(** A value whose mantissa fits the 24 bits of the format. *)
Definition fits24 (f : float32) : Prop :=
  match f with
  | S754_finite _ m _ => Zpos (digits2_pos m) <= prec
  | _ => True
  end.

(** A value that is not below zero (a NaN counts). *)
Definition notNegative (f : float32) : Prop :=
  match f with
  | S754_finite true _ _ | S754_infinity true => False
  | _ => True
  end.

(** The value of a finite number: [F2R m e] is [m * 2^e]. *)
Definition bpow (e : Z) : R := powerRZ 2 e.

Definition F2R (m e : Z) : R := (IZR m * bpow e)%R.

(** The exponent the format assigns to a magnitude. *)
Definition fexp32 (e : Z) : Z := SpecFloat.fexp prec emax e.

(** A canonical mantissa: the exponent is the one the format assigns
    to the magnitude. *)
Definition canonical (m : positive) (e : Z) : Prop :=
  fexp32 (Zpos (digits2_pos m) + e) = e.

End Float32.

Abbreviation float32 := Float32.float32.

(* ================================================================== *)
(** ** Errors, outcomes and images *)

Inductive Axis := AxisX | AxisY | AxisZ.

(** A Go [error] value. An error built by [fmt.Errorf] is kept as its
    call site and arguments instead of the formatted text. *)
Inductive error : Type :=
  | ErrMsg (msg : string)
      (* an error carrying a plain message: "renderer not initialized",
         or whatever a backend, a processor or the writer reports *)
  | ErrRenderSlice (axis : Axis) (depth : float32) (materialNum : Z) (cause : error)
      (* fmt.Errorf("renderXSlice(%v,%v): %v", x, materialNum, err), and Y, Z *)
  | ErrProcessSlice (n : Z) (depth voxelRadius : float32) (cause : error)
      (* fmt.Errorf("ProcessSlice(%v,%v,%v): %v", n, x, voxelRadiusX, err) *)
  | ErrPrepareRenderZ (cause : error)   (* fmt.Errorf("PrepareRenderZ: %v", err) *)
  | ErrRenderZSlices (cause : error)    (* fmt.Errorf("RenderZSlices: %v", err) *)
  | ErrWrite (cause : error).           (* fmt.Errorf("Write: %v", err) *)

(** How a call ends: it returns (a value, or a nil error), it returns
    a non-nil error, or it panics. *)
Inductive outcome (A : Type) : Type :=
  | Done (a : A)
  | Failed (e : error)
  | Panicked.
Arguments Done {A} a.
Arguments Failed {A} e.
Arguments Panicked {A}.

Definition ofError (e : option error) : outcome unit :=
  match e with
  | None => Done tt
  | Some err => Failed err
  end.

(** Go's [image.Image], as far as the slicer looks at it: the bounds
    and the colour of a pixel. [RGBA()] yields four [uint32]. *)
Module GoImage.

Record Color := { R : N; G : N; B : N; A : N }.

Record Rectangle := { MinX : Z; MinY : Z; MaxX : Z; MaxY : Z }.

Record Image := { Bounds : Rectangle; At : Z -> Z -> Color }.

(** [image.Rect(x0, y0, x1, y1)] for [x0 <= x1] and [y0 <= y1]. *)
Definition Rect (x0 y0 x1 y1 : Z) : Rectangle :=
  {| MinX := x0; MinY := y0; MaxX := x1; MaxY := y1 |}.

(** [color.White] seen through [RGBA()]. *)
Definition White : Color :=
  {| R := 65535; G := 65535; B := 65535; A := 65535 |}.

Definition Transparent : Color := {| R := 0; G := 0; B := 0; A := 0 |}.

(** The image [image.NewRGBA(image.Rect(0, 0, w, h))] with every pixel
    set to the colour [c]; outside its bounds [At] yields the zero
    colour. *)
Definition Uniform (w h : Z) (c : Color) : Image :=
  {| Bounds := Rect 0 0 w h;
     At := fun x y =>
       if (0 <=? x) && (x <? w) && (0 <=? y) && (y <? h) then c else Transparent |}.

End GoImage.

(* ================================================================== *)
(** ** Package irmf: the slicer context ([irmf/renderer.go]) *)

Module Irmf.

Import GoImage.

Record Vec3 := { v0 : float32; v1 : float32; v2 : float32 }.

(** Modelled from the spec: the model descriptor of its section 6
    (the declaration of the type [IRMF] is not among the sources at
    hand). Only the fields [renderer.go] reads are kept; [Min] and
    [Max] have their three components, since [MBB] stops the program
    on any other length. *)
Record IRMF := {
  Min : Vec3;
  Max : Vec3;
  Materials : list string;
  Language : string;
  Shader : string
}.

(** The matrices of [mgl32] are kept as the calls that build them. *)
Inductive Mat4 :=
  | LookAtV (eye center up : Vec3)
  | Ortho (left right bottom top near far : float32)
  | Ident4.

(** The two implementations of the interface [Renderer]. An interface
    value is a dynamic type together with a pointer. *)
Inductive RendererKind := OpenGLRenderer | WebGPURenderer.

Record RendererRef := { kind : RendererKind; ptr : nat }.

Definition kind_eqb (a b : RendererKind) : bool :=
  match a, b with
  | OpenGLRenderer, OpenGLRenderer | WebGPURenderer, WebGPURenderer => true
  | _, _ => false
  end.

(** [Order]: the two declared constants. *)
Inductive Order := MinToMax | MaxToMin.

(** What the slicer does to the outside, in the order it does it. *)
Inductive event :=
  | EvNew (r : RendererRef)
      (* &OpenGLRenderer{} or &WebGPURenderer{} is allocated *)
  | EvClose (r : RendererRef)
  | EvInit (r : RendererRef) (width height : Z) (view : bool) (res : option error)
  | EvPrepare (r : RendererRef) (irmf : option IRMF) (vec3Str : string)
      (planeVertices : list float32) (projection camera model : Mat4)
      (res : option error)
  | EvRender (r : RendererRef) (sliceDepth : float32) (materialNum : Z)
      (res : Image + error)
  | EvProcess (sliceNum : Z) (depth voxelRadius : float32) (img : Image)
      (res : option error).

(** The interface [Renderer]. What a backend does is outside the
    slicer: each method is a function of the state of the world (the
    GPU, the window system, the fields of the renderer objects). *)
Class Backend (World : Type) := {
  backendInit : RendererRef -> Z -> Z -> bool -> World -> World * option error;
  backendPrepare : RendererRef -> option IRMF -> string -> list float32 ->
                   Mat4 -> Mat4 -> Mat4 -> World -> World * option error;
  backendRender : RendererRef -> float32 -> Z -> World -> World * (Image + error);
  backendClose : RendererRef -> World -> World
}.

(** [newModel], the parser of the shader source, is not among the
    sources at hand; it is a parameter. *)
Class Loader := { newModel : string -> IRMF + error }.

(** The world, the next free address and the trace so far. *)
Record Env (World : Type) := {
  world : World;
  nextPtr : nat;
  trace : list event
}.
Arguments world {World} _.
Arguments nextPtr {World} _.
Arguments trace {World} _.

(** [Slicer]: a slicer context. *)
Record Slicer := {
  irmf : option IRMF;
  width : Z;
  height : Z;
  deltaX : float32;
  deltaY : float32;
  deltaZ : float32;
  view : bool;
  renderer : option RendererRef
}.

Definition setIRMF (s : Slicer) (m : option IRMF) : Slicer :=
  {| irmf := m; width := width s; height := height s;
     deltaX := deltaX s; deltaY := deltaY s; deltaZ := deltaZ s;
     view := view s; renderer := renderer s |}.

Definition setRenderer (s : Slicer) (r : option RendererRef) : Slicer :=
  {| irmf := irmf s; width := width s; height := height s;
     deltaX := deltaX s; deltaY := deltaY s; deltaZ := deltaZ s;
     view := view s; renderer := r |}.

(** [Init] returns a new Slicer instance. *)
Definition Init (view : bool) (umXRes umYRes umZRes : float32) : Slicer :=
  {| irmf := None; width := 0; height := 0;
     deltaX := Float32.div umXRes Float32.thousand;
     deltaY := Float32.div umYRes Float32.thousand;
     deltaZ := Float32.div umZRes Float32.thousand;
     view := view; renderer := None |}.

(** [NumMaterials] *)
Definition NumMaterials (s : Slicer) : Z :=
  match irmf s with
  | None => 0
  | Some m => Z.of_nat (length (Materials m))
  end.

(** [MaterialName] (1-based). *)
Definition MaterialName (s : Slicer) (n : Z) : outcome string :=
  match irmf s with
  | None => Done EmptyString
  | Some m =>
      if Z.of_nat (length (Materials m)) <? n then Done EmptyString
      else if n - 1 <? 0 then Panicked
      else match Materials m !! Z.to_nat (n - 1) with
           | Some name => Done name
           | None => Panicked
           end
  end.

Definition zeroVec : Vec3 :=
  {| v0 := Float32.zero; v1 := Float32.zero; v2 := Float32.zero |}.

(** [MBB] *)
Definition MBB (s : Slicer) : Vec3 * Vec3 :=
  match irmf s with
  | Some m => (Min m, Max m)
  | None => (zeroVec, zeroVec)
  end.

(** The expression [int(0.5 + (Max[i]-Min[i])/delta)], which the
    source writes out in each of the functions below. *)
Definition sliceCount (lo hi delta : float32) : Z :=
  Float32.toInt (Float32.add Float32.half (Float32.div (Float32.sub hi lo) delta)).

(** [NumXSlices] *)
Definition NumXSlices (s : Slicer) : outcome Z :=
  match irmf s with
  | None => Panicked
  | Some m =>
      let n := sliceCount (v0 (Min m)) (v0 (Max m)) (deltaX s) in
      Done (if GoInt.rem n 2 =? 1 then GoInt.incr n else n)
  end.

(** [NumYSlices] *)
Definition NumYSlices (s : Slicer) : outcome Z :=
  match irmf s with
  | None => Panicked
  | Some m =>
      let nx := sliceCount (v0 (Min m)) (v0 (Max m)) (deltaX s) in
      let ny := sliceCount (v1 (Min m)) (v1 (Max m)) (deltaY s) in
      Done (if GoInt.rem nx 2 =? 1 then GoInt.incr ny else ny)
  end.

(** [NumZSlices] *)
Definition NumZSlices (s : Slicer) : outcome Z :=
  match irmf s with
  | None => Panicked
  | Some m => Done (sliceCount (v2 (Min m)) (v2 (Max m)) (deltaZ s))
  end.

(** The closures [xFunc], [yFunc] and [zFunc]. *)
Definition depthFunc (order : Order) (numSlices : Z) (minVal delta : float32)
    (n : Z) : float32 :=
  match order with
  | MinToMax => Float32.add minVal (Float32.mul (Float32.ofInt n) delta)
  | MaxToMin =>
      Float32.add minVal
        (Float32.mul (Float32.ofInt (GoInt.sub (GoInt.sub numSlices n) 1)) delta)
  end.

(** The interfaces [XSliceProcessor], [YSliceProcessor] and
    [ZSliceProcessor]: one method, acting on the processor's state. *)
Definition SliceProcessor (P : Type) : Type :=
  Z -> float32 -> float32 -> Image -> P -> P * option error.

Definition errNotInitialized : error := ErrMsg "renderer not initialized".

Section WithBackend.

Context {World : Type} `{!Backend World} `{!Loader}.

Definition record (env : Env World) (w : World) (ev : event) : Env World :=
  {| world := w; nextPtr := nextPtr env; trace := trace env ++ [ev] |}.

(** [renderSlice] *)
Definition renderSlice (s : Slicer) (sliceDepth : float32) (materialNum : Z)
    (env : Env World) : Env World * (Image + error) :=
  match renderer s with
  | None => (env, inr errNotInitialized)
  | Some r =>
      let '(w, res) := backendRender r sliceDepth materialNum (world env) in
      (record env w (EvRender r sliceDepth materialNum res), res)
  end.

(** A call of the processor's method. *)
Definition callProcess {P : Type} (sp : SliceProcessor P) (n : Z)
    (depth voxelRadius : float32) (img : Image) (st : Env World * P)
    : (Env World * P) * option error :=
  let '(p, res) := sp n depth voxelRadius img (snd st) in
  ((record (fst st) (world (fst st)) (EvProcess n depth voxelRadius img res), p), res).

(** The loop [for n := 0; n < numSlices; n++] of the three sweeps,
    with [todo] iterations left and [n] the current index. *)
Fixpoint sliceLoop {P : Type} (s : Slicer) (axis : Axis) (materialNum : Z)
    (sp : SliceProcessor P) (depthOf : Z -> float32) (voxelRadius : float32)
    (todo : nat) (n : Z) (st : Env World * P) : (Env World * P) * outcome unit :=
  match todo with
  | O => (st, Done tt)
  | S todo' =>
      let x := depthOf n in
      let '(env1, r) := renderSlice s x materialNum (fst st) in
      match r with
      | inr err => ((env1, snd st), Failed (ErrRenderSlice axis x materialNum err))
      | inl img =>
          let '(st2, e) := callProcess sp n x voxelRadius img (env1, snd st) in
          match e with
          | Some err => (st2, Failed (ErrProcessSlice n x voxelRadius err))
          | None => sliceLoop s axis materialNum sp depthOf voxelRadius todo' (n + 1) st2
          end
      end
  end.

(** The body the three sweeps share, for the axis whose box bounds
    are [lo] and [hi] and whose pitch is [delta]. *)
Definition renderSlices {P : Type} (axis : Axis) (lo hi delta : float32)
    (s : Slicer) (materialNum : Z) (sp : SliceProcessor P) (order : Order)
    (st : Env World * P) : (Env World * P) * outcome unit :=
  let numSlices := sliceCount lo hi delta in
  let voxelRadius := Float32.mul Float32.half delta in
  let minVal := Float32.add lo voxelRadius in
  sliceLoop s axis materialNum sp (depthFunc order numSlices minVal delta)
    voxelRadius (Z.to_nat numSlices) 0 st.

(** [RenderXSlices] *)
Definition RenderXSlices {P : Type} (s : Slicer) (materialNum : Z)
    (sp : SliceProcessor P) (order : Order) (st : Env World * P)
    : (Env World * P) * outcome unit :=
  match irmf s with
  | None => (st, Panicked)
  | Some m =>
      renderSlices AxisX (v0 (Min m)) (v0 (Max m)) (deltaX s) s materialNum sp order st
  end.

(** [RenderYSlices] *)
Definition RenderYSlices {P : Type} (s : Slicer) (materialNum : Z)
    (sp : SliceProcessor P) (order : Order) (st : Env World * P)
    : (Env World * P) * outcome unit :=
  match irmf s with
  | None => (st, Panicked)
  | Some m =>
      renderSlices AxisY (v1 (Min m)) (v1 (Max m)) (deltaY s) s materialNum sp order st
  end.

(** [RenderZSlices] *)
Definition RenderZSlices {P : Type} (s : Slicer) (materialNum : Z)
    (sp : SliceProcessor P) (order : Order) (st : Env World * P)
    : (Env World * P) * outcome unit :=
  match irmf s with
  | None => (st, Panicked)
  | Some m =>
      renderSlices AxisZ (v2 (Min m)) (v2 (Max m)) (deltaZ s) s materialNum sp order st
  end.

(** The package-level vertex arrays, as declared. *)
Definition f0 : float32 := Float32.zero.
Definition f1 : float32 := Float32.one.
Definition fm1 : float32 := SFopp Float32.one.

Definition xPlaneVertices : list float32 :=
  [ f0; fm1; fm1; f1; f0;
    f0; f1; fm1; f0; f0;
    f0; fm1; f1; f1; f1;
    f0; f1; fm1; f0; f0;
    f0; f1; f1; f0; f1;
    f0; fm1; f1; f1; f1 ].

Definition yPlaneVertices : list float32 :=
  [ fm1; f0; fm1; f1; f0;
    f1; f0; fm1; f0; f0;
    fm1; f0; f1; f1; f1;
    f1; f0; fm1; f0; f0;
    f1; f0; f1; f0; f1;
    fm1; f0; f1; f1; f1 ].

Definition zPlaneVertices : list float32 :=
  [ fm1; fm1; f0; f1; f0;
    f1; fm1; f0; f0; f0;
    fm1; f1; f0; f1; f1;
    f1; fm1; f0; f0; f0;
    f1; f1; f0; f0; f1;
    fm1; f1; f0; f1; f1 ].

(** [a[i], a[j], a[k] = v, v, v] *)
Definition assign3 (i j k : nat) (v : float32) (a : list float32) : list float32 :=
  <[k := v]> (<[j := v]> (<[i := v]> a)).

Definition vec (x y z : Z) : Vec3 :=
  {| v0 := Float32.ofInt x; v1 := Float32.ofInt y; v2 := Float32.ofInt z |}.

(** The raster dimensions a [PrepareRender] function computes before
    it calls [prepareRender]: [deltaW] is the pitch along the
    left-right axis of the raster, [deltaH] along the bottom-top one. *)
Definition rasterSize (left right bottom top deltaW deltaH : float32) : Z * Z :=
  let aspectRatio :=
    Float32.div (Float32.mul (Float32.sub right left) deltaH)
                (Float32.mul (Float32.sub top bottom) deltaW) in
  let newWidth := Float32.toInt (Float32.add Float32.half
                    (Float32.div (Float32.sub right left) deltaW)) in
  let newHeight := Float32.toInt (Float32.add Float32.half
                    (Float32.div (Float32.sub top bottom) deltaH)) in
  if Float32.ltb (Float32.mul aspectRatio (Float32.ofInt newHeight))
                 (Float32.ofInt newWidth)
  then (newWidth,
        Float32.toInt (Float32.add Float32.half
                         (Float32.div (Float32.ofInt newWidth) aspectRatio)))
  else (newWidth, newHeight).

(** The parity step at the head of [prepareRender]. *)
Definition evenSize (newWidth newHeight : Z) : Z * Z :=
  if GoInt.rem newWidth 2 =? 1
  then (GoInt.incr newWidth, GoInt.incr newHeight)
  else (newWidth, newHeight).

(** [prepareRender] *)
Definition prepareRender (s : Slicer) (newWidth newHeight : Z)
    (left right bottom top : float32) (camera : Mat4) (vec3Str : string)
    (planeVertices : list float32) (env : Env World) : Env World * option error :=
  let '(newWidth, newHeight) := evenSize newWidth newHeight in
  match renderer s with
  | None => (env, Some errNotInitialized)
  | Some r =>
      let '(w1, e1) := backendInit r newWidth newHeight (view s) (world env) in
      let env1 := record env w1 (EvInit r newWidth newHeight (view s) e1) in
      match e1 with
      | Some err => (env1, Some err)
      | None =>
          let projection := Ortho left right bottom top Float32.near Float32.far in
          let model := Ident4 in
          let '(w2, e2) :=
            backendPrepare r (irmf s) vec3Str planeVertices projection camera model
              (world env1) in
          (record env1 w2
             (EvPrepare r (irmf s) vec3Str planeVertices projection camera model e2),
           e2)
      end
  end.

Definition returning (r : Env World * option error) : Env World * outcome unit :=
  (fst r, ofError (snd r)).

(** [PrepareRenderX] *)
Definition PrepareRenderX (s : Slicer) (env : Env World) : Env World * outcome unit :=
  match irmf s with
  | None => (env, Panicked)
  | Some m =>
      let left := v1 (Min m) in
      let right := v1 (Max m) in
      let bottom := v2 (Min m) in
      let top := v2 (Max m) in
      let camera := LookAtV (vec 3 0 0) (vec 0 0 0) (vec 0 0 1) in
      let vec3Str := "u_slice,fragVert.yz"%string in
      let planeVertices :=
        assign3 12 22 27 top (assign3 2 7 17 bottom
          (assign3 6 16 21 right (assign3 1 11 26 left xPlaneVertices))) in
      let '(newWidth, newHeight) :=
        rasterSize left right bottom top (deltaY s) (deltaZ s) in
      returning (prepareRender s newWidth newHeight left right bottom top
                   camera vec3Str planeVertices env)
  end.

(** [PrepareRenderY] *)
Definition PrepareRenderY (s : Slicer) (env : Env World) : Env World * outcome unit :=
  match irmf s with
  | None => (env, Panicked)
  | Some m =>
      let left := v0 (Min m) in
      let right := v0 (Max m) in
      let bottom := v2 (Min m) in
      let top := v2 (Max m) in
      let camera := LookAtV (vec 0 (-3) 0) (vec 0 0 0) (vec 0 0 1) in
      let vec3Str := "fragVert.x,u_slice,fragVert.z"%string in
      let planeVertices :=
        assign3 12 22 27 top (assign3 2 7 17 bottom
          (assign3 5 15 20 right (assign3 0 10 25 left yPlaneVertices))) in
      let '(newWidth, newHeight) :=
        rasterSize left right bottom top (deltaX s) (deltaZ s) in
      returning (prepareRender s newWidth newHeight left right bottom top
                   camera vec3Str planeVertices env)
  end.

(** [PrepareRenderZ] *)
Definition PrepareRenderZ (s : Slicer) (env : Env World) : Env World * outcome unit :=
  match irmf s with
  | None => (env, Panicked)
  | Some m =>
      let left := v0 (Min m) in
      let right := v0 (Max m) in
      let bottom := v1 (Min m) in
      let top := v1 (Max m) in
      let camera := LookAtV (vec 0 0 3) (vec 0 0 0) (vec 0 1 0) in
      let vec3Str := "fragVert.xy,u_slice"%string in
      let planeVertices :=
        assign3 11 21 26 top (assign3 1 6 16 bottom
          (assign3 5 15 20 right (assign3 0 10 25 left zPlaneVertices))) in
      let '(newWidth, newHeight) :=
        rasterSize left right bottom top (deltaX s) (deltaY s) in
      returning (prepareRender s newWidth newHeight left right bottom top
                   camera vec3Str planeVertices env)
  end.

(** The type assertion [s.renderer.( *K )]: it fails on a nil interface. *)
Definition isKind (k : RendererKind) (r : option RendererRef) : bool :=
  match r with
  | Some r => kind_eqb (kind r) k
  | None => false
  end.

(** [s.renderer.Close()] *)
Definition callClose (r : RendererRef) (env : Env World) : Env World :=
  record env (backendClose r (world env)) (EvClose r).

(** [&OpenGLRenderer{}], [&WebGPURenderer{}]: a fresh object. *)
Definition newRenderer (k : RendererKind) (env : Env World) : RendererRef * Env World :=
  let r := {| kind := k; ptr := nextPtr env |} in
  (r, {| world := world env; nextPtr := S (nextPtr env);
         trace := trace env ++ [EvNew r] |}).

(** One case of the language switch of [NewModel]. *)
Definition selectRenderer (k : RendererKind) (s : Slicer) (env : Env World)
    : Slicer * Env World :=
  if isKind k (renderer s) then (s, env)
  else
    let env1 := match renderer s with
                | Some r => callClose r env
                | None => env
                end in
    let '(r, env2) := newRenderer k env1 in
    (setRenderer s (Some r), env2).

(** [NewModel] prepares the slicer to slice a new shader model. *)
Definition NewModel (s : Slicer) (shaderSrc : string) (env : Env World)
    : (Slicer * Env World) * option error :=
  match newModel shaderSrc with
  | inr err => ((s, env), Some err)
  | inl m =>
      let s1 := setIRMF s (Some m) in
      if String.eqb (Language m) "glsl" || String.eqb (Language m) ""
      then (selectRenderer OpenGLRenderer s1 env, None)
      else if String.eqb (Language m) "wgsl"
      then (selectRenderer WebGPURenderer s1 env, None)
      else ((s1, env), None)
  end.

(** [Close] closes the renderer. *)
Definition Close (s : Slicer) (env : Env World) : Env World :=
  match renderer s with
  | Some r => callClose r env
  | None => env
  end.

End WithBackend.

End Irmf.

(* ================================================================== *)
(** ** Package binvox: one binvox file per material ([binvox/binvox.go]) *)

Module Binvox.

Import GoImage.

(** Go's [float64], and the conversion [float64(x)] of a [float32],
    which is exact. *)
Definition float64 : Type := spec_float.

Definition ofFloat32 (f : float32) : float64 :=
  match f with
  | S754_finite s m e => binary_normalize 53 1024 (cond_Zopp s (Zpos m)) e false
  | _ => f
  end.

(** Modelled from the spec: the VoxelSet of its section 3, "a sparse
    collection of integer coordinates (u, v, w) marking occupied
    cells, plus declared grid dimensions (NX, NY, NZ)". The type comes
    from the package [stldice/binvox], which is not part of this
    repository. *)
Record BinVOX := {
  NX : Z;
  NY : Z;
  NZ : Z;
  TX : float64;
  TY : float64;
  TZ : float64;
  Scale : float64;
  WhiteVoxels : gset (Z * Z * Z)
}.

(** Modelled from the spec: [binvox.New] declares the dimensions of an
    empty voxel set. *)
Definition New (nx ny nz : Z) (tx ty tz scale : float64) (_ : bool) : BinVOX :=
  {| NX := nx; NY := ny; NZ := nz; TX := tx; TY := ty; TZ := tz;
     Scale := scale; WhiteVoxels := ∅ |}.

(** Modelled from the spec: [Add] marks a cell occupied. *)
Definition Add (x y z : Z) (b : BinVOX) : BinVOX :=
  {| NX := NX b; NY := NY b; NZ := NZ b; TX := TX b; TY := TY b; TZ := TZ b;
     Scale := Scale b; WhiteVoxels := {[ (x, y, z) ]} ∪ WhiteVoxels b |}.

Definition setNXNY (nx ny : Z) (b : BinVOX) : BinVOX :=
  {| NX := nx; NY := ny; NZ := NZ b; TX := TX b; TY := TY b; TZ := TZ b;
     Scale := Scale b; WhiteVoxels := WhiteVoxels b |}.

(** The interface [Slicer] of this package. The getters read what no
    method of the interface writes, so they do not take the state
    [Σ] the two rendering methods act on. *)
Record Slicer (Σ : Type) := {
  NumMaterials : Z;
  MaterialName : Z -> outcome string;
  MBB : Irmf.Vec3 * Irmf.Vec3;
  PrepareRenderZ : Σ -> Σ * outcome unit;
  RenderZSlices : forall P : Type, Z -> Irmf.SliceProcessor P -> Irmf.Order ->
                  Σ * P -> (Σ * P) * outcome unit;
  NumXSlices : outcome Z;
  NumYSlices : outcome Z;
  NumZSlices : outcome Z
}.
Arguments NumMaterials {Σ} _.
Arguments MaterialName {Σ} _ _.
Arguments MBB {Σ} _.
Arguments PrepareRenderZ {Σ} _ _.
Arguments RenderZSlices {Σ} _ _ _ _ _ _.
Arguments NumXSlices {Σ} _.
Arguments NumYSlices {Σ} _.
Arguments NumZSlices {Σ} _.

(** [strings.ReplaceAll(s, old, new)] for a pattern [old] of one byte. *)
Fixpoint ReplaceAll (s : string) (old : ascii) (new : string) : string :=
  match s with
  | EmptyString => EmptyString
  | String c rest =>
      if Ascii.eqb c old then new ++ ReplaceAll rest old new
      else String c (ReplaceAll rest old new)
  end.

(** The verb [%d] for a non-negative integer. *)
Definition digit (d : Z) : ascii := ascii_of_nat (48 + Z.to_nat d).

Fixpoint decimalFrom (fuel : nat) (n : Z) (acc : string) : string :=
  match fuel with
  | O => acc
  | S fuel' =>
      let acc' := String (digit (n mod 10)) acc in
      if n / 10 =? 0 then acc' else decimalFrom fuel' (n / 10) acc'
  end.

(** A number has no more decimal digits than binary ones. *)
Definition decimal (n : Z) : string :=
  decimalFrom (S (Z.to_nat (Z.log2 n))) n EmptyString.

(** The verb [%02d]: the sign, then zeros up to a width of two. *)
Definition fmt02d (n : Z) : string :=
  if n <? 0 then String "-" (decimal (- n))
  else if n <? 10 then String "0" (decimal n)
  else decimal n.

(** [fmt.Sprintf("%v-mat%02d-%v.binvox", baseFilename, materialNum, materialName)] *)
Definition binvoxName (baseFilename : string) (materialNum : Z) (materialName : string)
    : string :=
  (baseFilename ++ "-mat" ++ fmt02d materialNum ++ "-" ++ materialName ++ ".binvox")%string.

(** [ProcessZSlice], on the voxel set [c.b] of the client. *)
Definition ProcessZSlice : Irmf.SliceProcessor BinVOX :=
  fun (sliceNum : Z) (z voxelRadius : float32) (img : Image) (cb : BinVOX) =>
    let b := Bounds img in
    let uSize := GoInt.sub (MaxX b) (MinX b) in
    let vSize := GoInt.sub (MaxY b) (MinY b) in
    let cb := setNXNY uSize vSize cb in
    let cb :=
      foldl (fun cb v =>
               foldl (fun cb u =>
                        let color := At img u v in
                        if (0 <? R color)%N then Add u v sliceNum cb else cb)
                     cb (seqZ (MinX b) (MaxX b - MinX b)))
            cb (seqZ (MinY b) (MaxY b - MinY b)) in
    (cb, None).

(** [Write] of the package [stldice/binvox] is outside this
    repository: a function of the state of the file system. *)
Class Writer (Files : Type) := {
  binvoxWrite : string -> Z -> Z -> Z -> Z -> Z -> Z -> BinVOX -> Files ->
                Files * option error
}.

(** A call of [b.Write]: the file name, the voxel set and dimensions
    handed over, and the result. *)
Record WriteCall := {
  wFilename : string;
  wBinvox : BinVOX;
  wResult : option error
}.

Section Slice.

Context {Σ Files : Type} `{!Writer Files}.

Definition SliceState : Type := (Σ * Files) * list WriteCall.

(** The three dimensions handed to [binvox.New]. *)
Definition dimensions (slicer : Slicer Σ) : outcome (Z * Z * Z) :=
  match NumXSlices slicer with
  | Done nx =>
      match NumYSlices slicer with
      | Done ny =>
          match NumZSlices slicer with
          | Done nz => Done (nx, ny, nz)
          | Failed e => Failed e
          | Panicked => Panicked
          end
      | Failed e => Failed e
      | Panicked => Panicked
      end
  | Failed e => Failed e
  | Panicked => Panicked
  end.

(** The body of the loop of [Slice], for one material. *)
Definition sliceMaterial (baseFilename : string) (slicer : Slicer Σ)
    (materialNum : Z) (st : SliceState) : SliceState * outcome unit :=
  let '((σ, files), writes) := st in
  match MaterialName slicer materialNum with
  | Panicked => (st, Panicked)
  | Failed e => (st, Failed e)
  | Done name =>
      let materialName := ReplaceAll name " " "-" in
      let filename := binvoxName baseFilename materialNum materialName in
      let '(min, max) := MBB slicer in
      let scale := ofFloat32 (Float32.sub (Irmf.v2 max) (Irmf.v2 min)) in
      match dimensions slicer with
      | Panicked => (st, Panicked)
      | Failed e => (st, Failed e)
      | Done (nx, ny, nz) =>
          let b := New nx ny nz (ofFloat32 (Irmf.v0 min)) (ofFloat32 (Irmf.v1 min))
                     (ofFloat32 (Irmf.v2 min)) scale false in
          let '(σ1, r1) := PrepareRenderZ slicer σ in
          match r1 with
          | Panicked => (((σ1, files), writes), Panicked)
          | Failed err => (((σ1, files), writes), Failed (ErrPrepareRenderZ err))
          | Done _ =>
              let '((σ2, b2), r2) :=
                RenderZSlices slicer BinVOX materialNum ProcessZSlice Irmf.MinToMax
                  (σ1, b) in
              match r2 with
              | Panicked => (((σ2, files), writes), Panicked)
              | Failed err => (((σ2, files), writes), Failed (ErrRenderZSlices err))
              | Done _ =>
                  let '(files', e) :=
                    binvoxWrite filename 0 0 0 (NX b2) (NY b2) (NZ b2) b2 files in
                  let writes' :=
                    writes ++ [{| wFilename := filename; wBinvox := b2; wResult := e |}] in
                  match e with
                  | Some err => (((σ2, files'), writes'), Failed (ErrWrite err))
                  | None => (((σ2, files'), writes'), Done tt)
                  end
              end
          end
      end
  end.

(** The loop [for materialNum := 1; materialNum <= NumMaterials(); materialNum++],
    with [todo] iterations left. *)
Fixpoint sliceFrom (baseFilename : string) (slicer : Slicer Σ) (todo : nat)
    (materialNum : Z) (st : SliceState) : SliceState * outcome unit :=
  match todo with
  | O => (st, Done tt)
  | S todo' =>
      let '(st1, r) := sliceMaterial baseFilename slicer materialNum st in
      match r with
      | Done _ => sliceFrom baseFilename slicer todo' (materialNum + 1) st1
      | Failed e => (st1, Failed e)
      | Panicked => (st1, Panicked)
      end
  end.

(** [Slice] slices an IRMF model into one binvox file per material. *)
Definition Slice (baseFilename : string) (slicer : Slicer Σ) (σ : Σ) (files : Files)
    : SliceState * outcome unit :=
  sliceFrom baseFilename slicer (Z.to_nat (NumMaterials slicer)) 1 ((σ, files), []).

End Slice.

(** The slicer of package [irmf] as an implementation of the
    interface. *)
Definition ofIrmf {World : Type} `{!Irmf.Backend World} (s : Irmf.Slicer)
    : Slicer (Irmf.Env World) :=
  {| NumMaterials := Irmf.NumMaterials s;
     MaterialName := Irmf.MaterialName s;
     MBB := Irmf.MBB s;
     PrepareRenderZ := Irmf.PrepareRenderZ s;
     RenderZSlices := fun P materialNum sp order st =>
                        Irmf.RenderZSlices s materialNum sp order st;
     NumXSlices := Irmf.NumXSlices s;
     NumYSlices := Irmf.NumYSlices s;
     NumZSlices := Irmf.NumZSlices s |}.

(** [mockSlicer] of [binvox_test.go]. *)
Record mockSlicer := { nx : Z; ny : Z; nz : Z; matName : string }.

Fixpoint mockLoop {P : Type} (sp : Irmf.SliceProcessor P) (img : Image)
    (todo : nat) (i : Z) (p : P) : P * outcome unit :=
  match todo with
  | O => (p, Done tt)
  | S todo' =>
      let '(p1, e) :=
        sp i (Float32.add (Float32.ofInt i) Float32.half) Float32.half img p in
      match e with
      | Some err => (p1, Failed err)
      | None => mockLoop sp img todo' (i + 1) p1
      end
  end.

Definition ofMock (m : mockSlicer) : Slicer unit :=
  {| NumMaterials := 1;
     MaterialName := fun _ =>
       Done (if String.eqb (matName m) "" then "mat1"%string else matName m);
     MBB := (Irmf.vec 0 0 0, Irmf.vec (nx m) (ny m) (nz m));
     PrepareRenderZ := fun σ => (σ, Done tt);
     RenderZSlices := fun P materialNum sp order st =>
       let img := Uniform (nx m) (ny m) White in
       let '(p, r) := mockLoop sp img (Z.to_nat (nz m)) 0 (snd st) in
       ((fst st, p), r);
     NumXSlices := Done (nx m);
     NumYSlices := Done (ny m);
     NumZSlices := Done (nz m) |}.

End Binvox.

(* ================================================================== *)
(** ** Package irmf: the WebGPU renderer, reading a frame back *)

(** Go's [uint32]: arithmetic modulo 2^32. *)
Module GoUint32.

Definition wrap (z : Z) : Z := z mod 2 ^ 32.

Definition add (a b : Z) : Z := wrap (a + b).
Definition mul (a b : Z) : Z := wrap (a * b).

(** [a &^ b]: the bits of [a] that are not set in [b]. *)
Definition andNot (a b : Z) : Z := Z.ldiff a b.

End GoUint32.

Module Wgpu.

(** A product of [int]s. *)
Definition imul (a b : Z) : Z := GoInt.wrap (a * b).

(** [(uint32(r.width*4) + 255) &^ 255], the row pitch of the read
    buffer that [Prepare] stores in [r.bytesPerRow]. *)
Definition bytesPerRow (width : Z) : Z :=
  GoUint32.andNot (GoUint32.add (GoUint32.wrap (imul width 4)) 255) 255.

(** The size [uint64(r.bytesPerRow * uint32(r.height))] of the read
    buffer, which is also the length of the mapped range. *)
Definition readBufferSize (bytesPerRow height : Z) : Z :=
  GoUint32.mul bytesPerRow (GoUint32.wrap height).

(** The slice expression [s[a:b]] on a slice whose capacity is its
    length; out of range it panics. *)
Definition slice {A : Type} (s : list A) (a b : Z) : option (list A) :=
  if (0 <=? a) && (a <=? b) && (b <=? Z.of_nat (length s))
  then Some (take (Z.to_nat (b - a)) (drop (Z.to_nat a) s))
  else None.

(** The loop of [Render] that copies the rows of the mapped buffer
    into [rgba.Pix], with [todo] rows left and [y] the current row;
    [copy] stops at the shorter of its two arguments. *)
Fixpoint copyRows (todo : nat) (y width bytesPerRow : Z) (data pix : list Byte.byte)
    : option (list Byte.byte) :=
  match todo with
  | O => Some pix
  | S todo' =>
      let srcStart := GoUint32.mul (GoUint32.wrap y) bytesPerRow in
      let srcEnd := GoUint32.add srcStart (GoUint32.wrap (imul width 4)) in
      let destStart := imul (imul y width) 4 in
      match slice pix destStart (GoInt.add destStart (imul width 4)),
            slice data srcStart srcEnd with
      | Some dst, Some src =>
          copyRows todo' (y + 1) width bytesPerRow data
            (list_inserts (Z.to_nat destStart) (take (length dst) src) pix)
      | _, _ => None
      end
  end.

(** The pixels [Render] returns: [make([]uint8, r.width*r.height*4)],
    filled row by row. A negative length panics. *)
Definition readPixels (width height bytesPerRow : Z) (data : list Byte.byte)
    : option (list Byte.byte) :=
  let n := imul (imul width height) 4 in
  if n <? 0 then None
  else copyRows (Z.to_nat height) 0 width bytesPerRow data
         (replicate (Z.to_nat n) Byte.x00).

End Wgpu.

(* ================================================================== *)
(** ** Package irmf: the OpenGL renderer and its window ([irmf/glsl.go]) *)

Module Glsl.

(** [*glfw.Window]: an address. *)
Definition Window : Type := nat.

Inductive hint :=
  | Resizable | ContextVersionMajor | ContextVersionMinor
  | OpenGLProfile | OpenGLForwardCompatible | Visible.

Inductive hintValue :=
  | HintFalse | HintTrue | HintInt (n : Z) | OpenGLCoreProfile.

(** The calls into GLFW and OpenGL that [Init] and [Close] make. *)
Inductive call :=
  | Terminate
  | GlfwInit (res : option error)
  | WindowHint (target : hint) (value : hintValue)
  | CreateWindow (width height : Z) (title : string) (res : Window + error)
  | MakeContextCurrent (w : Window)
  | GlInit (res : option error)
  | GetVersion.

(** The libraries are outside the repository: functions of the state
    of the window system. *)
Class Library (World : Type) := {
  glfwInit : World -> World * option error;
  glfwWindowHint : hint -> hintValue -> World -> World;
  glfwCreateWindow : Z -> Z -> string -> World -> World * (Window + error);
  glfwMakeContextCurrent : Window -> World -> World;
  glInit : World -> World * option error;
  glGetVersion : World -> World;
  glfwTerminate : World -> World
}.

(** The errors [Init] builds with [fmt.Errorf]. *)
Inductive initError :=
  | ErrGlfwInit (cause : error)                      (* "glfw.Init: %v" *)
  | ErrCreateWindow (width height : Z) (cause : error) (* "CreateWindow(%v,%v): %v" *)
  | ErrGlInit (cause : error).                       (* "gl.Init: %v" *)

(** [OpenGLRenderer], as far as [Init] and [Close] touch it. *)
Record OpenGLRenderer := {
  window : option Window;
  width : Z;
  height : Z;
  view : bool
}.

(** [&OpenGLRenderer{}] *)
Definition zeroRenderer : OpenGLRenderer :=
  {| window := None; width := 0; height := 0; view := false |}.

Section WithLibrary.

Context {World : Type} `{!Library World}.

(** The world and the calls made so far. *)
Definition Env : Type := World * list call.

Definition did (env : Env) (w : World) (cs : list call) : Env := (w, snd env ++ cs).

(** The hints [Init] sets before it creates the window. *)
Definition windowHints (view : bool) : list (hint * hintValue) :=
  [(Resizable, HintFalse);
   (ContextVersionMajor, HintInt 4);
   (ContextVersionMinor, HintInt 1);
   (OpenGLProfile, OpenGLCoreProfile);
   (OpenGLForwardCompatible, HintTrue)]
  ++ (if view then [] else [(Visible, HintFalse)]).

Definition setHints (hints : list (hint * hintValue)) (env : Env) : Env :=
  foldl (fun env h => did env (glfwWindowHint (fst h) (snd h) (fst env))
                        [WindowHint (fst h) (snd h)])
        env hints.

(** The block of [Init] under [if r.window == nil], entered with
    the fields already stored. When [glfw.CreateWindow] returns an
    error, the window it returns is nil. *)
Definition createWindow (r0 : OpenGLRenderer) (env0 : Env)
    : (OpenGLRenderer * Env) * option initError :=
  let width := Glsl.width r0 in
  let height := Glsl.height r0 in
  let '(w1, e1) := glfwInit (fst env0) in
  let env1 := did env0 w1 [GlfwInit e1] in
  match e1 with
  | Some err => ((r0, env1), Some (ErrGlfwInit err))
  | None =>
      let env2 := setHints (windowHints (Glsl.view r0)) env1 in
      let '(w3, res) := glfwCreateWindow width height "IRMF Slicer" (fst env2) in
      let env3 := did env2 w3 [CreateWindow width height "IRMF Slicer" res] in
      match res with
      | inr err => ((r0, env3), Some (ErrCreateWindow width height err))
      | inl win =>
          let r1 := {| window := Some win; width := width; height := height;
                       view := Glsl.view r0 |} in
          let env4 := did env3 (glfwMakeContextCurrent win (fst env3))
                        [MakeContextCurrent win] in
          let '(w5, e5) := glInit (fst env4) in
          let env5 := did env4 w5 [GlInit e5] in
          match e5 with
          | Some err => ((r1, env5), Some (ErrGlInit err))
          | None => ((r1, did env5 (glGetVersion (fst env5)) [GetVersion]), None)
          end
      end
  end.

(** [Init] *)
Definition Init (width height : Z) (view : bool) (r : OpenGLRenderer) (env : Env)
    : (OpenGLRenderer * Env) * option initError :=
  let stale :=
    match window r with
    | Some _ => negb (Glsl.width r =? width) || negb (Glsl.height r =? height)
    | None => false
    end in
  let env0 := if stale then did env (glfwTerminate (fst env)) [Terminate] else env in
  let win0 := if stale then None else window r in
  let r0 := {| window := win0; width := width; height := height; view := view |} in
  match win0 with
  | Some _ => ((r0, env0), None)
  | None => createWindow r0 env0
  end.

(** [Close] *)
Definition Close (r : OpenGLRenderer) (env : Env) : OpenGLRenderer * Env :=
  match window r with
  | Some _ =>
      ({| window := None; width := Glsl.width r; height := Glsl.height r;
          view := Glsl.view r |},
       did env (glfwTerminate (fst env)) [Terminate])
  | None => (r, env)
  end.

(** A use of the renderer: a sequence of [Init] and [Close] calls. *)
Inductive op := OpInit (width height : Z) (view : bool) | OpClose.

Definition step (st : OpenGLRenderer * Env) (o : op) : OpenGLRenderer * Env :=
  match o with
  | OpInit width height view => fst (Init width height view (fst st) (snd st))
  | OpClose => Close (fst st) (snd st)
  end.

Definition run (ops : list op) (st : OpenGLRenderer * Env) : OpenGLRenderer * Env :=
  foldl step st ops.

End WithLibrary.

(** The windows a sequence of calls leaves open: [Terminate] destroys
    every window. *)
Definition openWindows (cs : list call) : list Window :=
  foldl (fun open c =>
           match c with
           | Terminate => []
           | CreateWindow _ _ _ (inl win) => open ++ [win]
           | _ => open
           end) [] cs.

End Glsl.

(* ================================================================== *)
(** ** Package irmf: the footers of the fragment shaders *)

Module Footer.

(** [fmt.Sprintf(format, operand)] for a string operand and a format
    whose only verb is one [%v]: the operand takes the place of the
    verb. *)
Fixpoint Sprintf (format operand : string) : string :=
  match format with
  | EmptyString => EmptyString
  | String c rest =>
      match rest with
      | String "v" rest' =>
          if Ascii.eqb c "%" then (operand ++ rest')%string
          else String c (Sprintf rest operand)
      | _ => String c (Sprintf rest operand)
      end
  end.

(** [strings.Replace(s, old, new, -1)] for a pattern [old] that is
    not empty: the occurrences of [old] are replaced from the left,
    without overlap. [skip] counts the bytes of an occurrence still
    to be passed over. *)
Fixpoint replaceFrom (skip : nat) (s old new : string) : string :=
  match s with
  | EmptyString => EmptyString
  | String c rest =>
      match skip with
      | S skip' => replaceFrom skip' rest old new
      | O =>
          if String.prefix old s
          then (new ++ replaceFrom (String.length old - 1) rest old new)%string
          else String c (replaceFrom O rest old new)
      end
  end.

Definition Replace (s old new : string) : string := replaceFrom O s old new.

Definition fsFooterFmt4 : string :=
"
void main() {
  vec4 m;
  mainModel4(m, vec3(%v));
  switch(u_materialNum) {
  case 1:
    outputColor = vec4(m.x);
    break;
  case 2:
    outputColor = vec4(m.y);
    break;
  case 3:
    outputColor = vec4(m.z);
    break;
  case 4:
    outputColor = vec4(m.w);
    break;
  }
}".

Definition fsFooterFmt9 : string :=
"
void main() {
  mat3 m;
  mainModel9(m, vec3(%v));
  switch(u_materialNum) {
  case 1:
    outputColor = vec4(m[0][0]);
    break;
  case 2:
    outputColor = vec4(m[0][1]);
    break;
  case 3:
    outputColor = vec4(m[0][2]);
    break;
  case 4:
    outputColor = vec4(m[1][0]);
    break;
  case 5:
    outputColor = vec4(m[1][1]);
    break;
  case 6:
    outputColor = vec4(m[1][2]);
    break;
  case 7:
    outputColor = vec4(m[2][0]);
    break;
  case 8:
    outputColor = vec4(m[2][1]);
    break;
  case 9:
    outputColor = vec4(m[2][2]);
    break;
  }
}".

Definition fsFooterFmt16 : string :=
"
void main() {
  mat4 m;
  mainModel16(m, vec3(%v));
  switch(u_materialNum) {
  case 1:
    outputColor = vec4(m[0][0]);
    break;
  case 2:
    outputColor = vec4(m[0][1]);
    break;
  case 3:
    outputColor = vec4(m[0][2]);
    break;
  case 4:
    outputColor = vec4(m[0][3]);
    break;
  case 5:
    outputColor = vec4(m[1][0]);
    break;
  case 6:
    outputColor = vec4(m[1][1]);
    break;
  case 7:
    outputColor = vec4(m[1][2]);
    break;
  case 8:
    outputColor = vec4(m[1][3]);
    break;
  case 9:
    outputColor = vec4(m[2][0]);
    break;
  case 10:
    outputColor = vec4(m[2][1]);
    break;
  case 11:
    outputColor = vec4(m[2][2]);
    break;
  case 12:
    outputColor = vec4(m[2][3]);
    break;
  case 13:
    outputColor = vec4(m[3][0]);
    break;
  case 14:
    outputColor = vec4(m[3][1]);
    break;
  case 15:
    outputColor = vec4(m[3][2]);
    break;
  case 16:
    outputColor = vec4(m[3][3]);
    break;
  }
}".

Definition wgslFSFooterFmt4 : string :=
"
@fragment
fn fs_main(@location(0) fragVert: vec3f) -> @location(0) vec4f {
    let u_slice = uniforms.u_slice;
    let u_materialNum = i32(uniforms.u_materialNum);
    let m = mainModel4(vec3f(%v));
    var color = 0.0;
    switch u_materialNum {
        case 1: { color = m.x; }
        case 2: { color = m.y; }
        case 3: { color = m.z; }
        case 4: { color = m.w; }
        default: { color = 0.0; }
    }
    return vec4f(color, color, color, 1.0);
}
".

Definition wgslFSFooterFmt9 : string :=
"
@fragment
fn fs_main(@location(0) fragVert: vec3f) -> @location(0) vec4f {
    let u_slice = uniforms.u_slice;
    let u_materialNum = i32(uniforms.u_materialNum);
    let m = mainModel9(vec3f(%v));
    var color = 0.0;
    switch u_materialNum {
        case 1: { color = m[0][0]; }
        case 2: { color = m[0][1]; }
        case 3: { color = m[0][2]; }
        case 4: { color = m[1][0]; }
        case 5: { color = m[1][1]; }
        case 6: { color = m[1][2]; }
        case 7: { color = m[2][0]; }
        case 8: { color = m[2][1]; }
        case 9: { color = m[2][2]; }
        default: { color = 0.0; }
    }
    return vec4f(color, color, color, 1.0);
}
".

Definition wgslFSFooterFmt16 : string :=
"
@fragment
fn fs_main(@location(0) fragVert: vec3f) -> @location(0) vec4f {
    let u_slice = uniforms.u_slice;
    let u_materialNum = i32(uniforms.u_materialNum);
    let m = mainModel16(vec3f(%v));
    var color = 0.0;
    switch u_materialNum {
        case 1: { color = m[0][0]; }
        case 2: { color = m[0][1]; }
        case 3: { color = m[0][2]; }
        case 4: { color = m[0][3]; }
        case 5: { color = m[1][0]; }
        case 6: { color = m[1][1]; }
        case 7: { color = m[1][2]; }
        case 8: { color = m[1][3]; }
        case 9: { color = m[2][0]; }
        case 10: { color = m[2][1]; }
        case 11: { color = m[2][2]; }
        case 12: { color = m[2][3]; }
        case 13: { color = m[3][0]; }
        case 14: { color = m[3][1]; }
        case 15: { color = m[3][2]; }
        case 16: { color = m[3][3]; }
        default: { color = 0.0; }
    }
    return vec4f(color, color, color, 1.0);
}
".

(** [genFooter], of the OpenGL renderer; the text ends with a NUL. *)
Definition genFooter (numMaterials : Z) (vec3Str : string) : string :=
  match numMaterials with
  | 5 | 6 | 7 | 8 | 9 => (Sprintf fsFooterFmt9 vec3Str ++ String "000" EmptyString)%string
  | 10 | 11 | 12 | 13 | 14 | 15 | 16 =>
      (Sprintf fsFooterFmt16 vec3Str ++ String "000" EmptyString)%string
  | _ => (Sprintf fsFooterFmt4 vec3Str ++ String "000" EmptyString)%string
  end.

(** [genWGSLFooter], of the WebGPU renderer. *)
Definition genWGSLFooter (numMaterials : Z) (vec3Str : string) : string :=
  let wgslVec3 := Replace vec3Str "fragVert" "fragVert" in
  match numMaterials with
  | 5 | 6 | 7 | 8 | 9 => Sprintf wgslFSFooterFmt9 wgslVec3
  | 10 | 11 | 12 | 13 | 14 | 15 | 16 => Sprintf wgslFSFooterFmt16 wgslVec3
  | _ => Sprintf wgslFSFooterFmt4 wgslVec3
  end.

(** The number of materials the model function of a footer yields. *)
Definition arity (numMaterials : Z) : Z :=
  if (5 <=? numMaterials) && (numMaterials <=? 9) then 9
  else if (10 <=? numMaterials) && (numMaterials <=? 16) then 16
  else 4.

End Footer.

(* ================================================================== *)
(** ** Reading a trace *)

Module Trace.

Import Irmf.

(** The calls of the processor's method: index, depth, voxel radius. *)
Definition processCall (ev : event) : option (Z * float32 * float32) :=
  match ev with
  | EvProcess n depth voxelRadius _ _ => Some (n, depth, voxelRadius)
  | _ => None
  end.

Definition processed (evs : list event) : list (Z * float32 * float32) :=
  omap processCall evs.

(** The index of a processor call. *)
Definition sliceIndex (c : Z * float32 * float32) : Z := fst (fst c).

(** The calls of the backend's [Render]: depth and material. *)
Definition renderCall (ev : event) : option (float32 * Z) :=
  match ev with
  | EvRender _ depth materialNum _ => Some (depth, materialNum)
  | _ => None
  end.

Definition rendered (evs : list event) : list (float32 * Z) :=
  omap renderCall evs.

(** The calls of the backend's [Init]: width and height. *)
Definition initCall (ev : event) : option (Z * Z) :=
  match ev with
  | EvInit _ width height _ _ => Some (width, height)
  | _ => None
  end.

Definition initialized (evs : list event) : list (Z * Z) :=
  omap initCall evs.

(** The renderer objects allocated and not closed since, oldest first. *)
Definition ref_eqb (a b : RendererRef) : bool :=
  kind_eqb (kind a) (kind b) && Nat.eqb (ptr a) (ptr b).

Fixpoint unclosed (evs : list event) (open : list RendererRef) : list RendererRef :=
  match evs with
  | [] => open
  | EvNew r :: evs' => unclosed evs' (open ++ [r])
  | EvClose r :: evs' => unclosed evs' (filter (fun r' => negb (ref_eqb r r') = true) open)
  | _ :: evs' => unclosed evs' open
  end.

(** The shape of the events one sweep adds, from index [n] with [todo]
    iterations left, and the way the sweep ends. *)
Inductive sweepRun (r : RendererRef) (axis : Axis) (materialNum : Z)
    (depthOf : Z -> float32) (voxelRadius : float32)
    : Z -> nat -> list event -> outcome unit -> Prop :=
  | run_end n :
      sweepRun r axis materialNum depthOf voxelRadius n O [] (Done tt)
  | run_render_fails n todo err :
      sweepRun r axis materialNum depthOf voxelRadius n (S todo)
        [EvRender r (depthOf n) materialNum (inr err)]
        (Failed (ErrRenderSlice axis (depthOf n) materialNum err))
  | run_process_fails n todo img err :
      sweepRun r axis materialNum depthOf voxelRadius n (S todo)
        [EvRender r (depthOf n) materialNum (inl img);
         EvProcess n (depthOf n) voxelRadius img (Some err)]
        (Failed (ErrProcessSlice n (depthOf n) voxelRadius err))
  | run_step n todo img evs out :
      sweepRun r axis materialNum depthOf voxelRadius (n + 1) todo evs out ->
      sweepRun r axis materialNum depthOf voxelRadius n (S todo)
        (EvRender r (depthOf n) materialNum (inl img)
           :: EvProcess n (depthOf n) voxelRadius img None :: evs)
        out.

(** The bounds and the pitch of the box along an axis. *)
Definition lo (axis : Axis) (m : IRMF) : float32 :=
  match axis with
  | AxisX => v0 (Min m)
  | AxisY => v1 (Min m)
  | AxisZ => v2 (Min m)
  end.

Definition hi (axis : Axis) (m : IRMF) : float32 :=
  match axis with
  | AxisX => v0 (Max m)
  | AxisY => v1 (Max m)
  | AxisZ => v2 (Max m)
  end.

Definition delta (axis : Axis) (s : Slicer) : float32 :=
  match axis with
  | AxisX => deltaX s
  | AxisY => deltaY s
  | AxisZ => deltaZ s
  end.

(** The sweep along an axis, and the count that axis reports. *)
Definition RenderSlices {World : Type} `{!Backend World} {P : Type} (axis : Axis)
    : Slicer -> Z -> SliceProcessor P -> Order -> Env World * P ->
      (Env World * P) * outcome unit :=
  match axis with
  | AxisX => RenderXSlices
  | AxisY => RenderYSlices
  | AxisZ => RenderZSlices
  end.

Definition NumSlices (axis : Axis) : Slicer -> outcome Z :=
  match axis with
  | AxisX => NumXSlices
  | AxisY => NumYSlices
  | AxisZ => NumZSlices
  end.

(** The frame preparation of an axis. *)
Definition PrepareRender {World : Type} `{!Backend World} (axis : Axis)
    : Slicer -> Env World -> Env World * outcome unit :=
  match axis with
  | AxisX => PrepareRenderX
  | AxisY => PrepareRenderY
  | AxisZ => PrepareRenderZ
  end.

(** The plane an axis is rendered on: the bounds of the box along the
    horizontal and the vertical axis of the raster, and the pitch
    along each. *)
Record Plane := {
  left : float32;
  right : float32;
  bottom : float32;
  top : float32;
  deltaW : float32;
  deltaH : float32
}.

Definition plane (axis : Axis) (s : Slicer) (m : IRMF) : Plane :=
  match axis with
  | AxisX => {| left := v1 (Min m); right := v1 (Max m);
                bottom := v2 (Min m); top := v2 (Max m);
                deltaW := deltaY s; deltaH := deltaZ s |}
  | AxisY => {| left := v0 (Min m); right := v0 (Max m);
                bottom := v2 (Min m); top := v2 (Max m);
                deltaW := deltaX s; deltaH := deltaZ s |}
  | AxisZ => {| left := v0 (Min m); right := v0 (Max m);
                bottom := v1 (Min m); top := v1 (Max m);
                deltaW := deltaX s; deltaH := deltaY s |}
  end.

(** The depth of slice [n] as the specification writes it,
    [boxMin + voxelRadius + n * delta] and its mirror image, in
    [float32] arithmetic and without any wrap-around. *)
Definition depthAt (order : Order) (numSlices : Z) (boxMin delta : float32) (n : Z)
    : float32 :=
  let voxelRadius := Float32.mul Float32.half delta in
  match order with
  | MinToMax =>
      Float32.add (Float32.add boxMin voxelRadius) (Float32.mul (Float32.ofInt n) delta)
  | MaxToMin =>
      Float32.add (Float32.add boxMin voxelRadius)
        (Float32.mul (Float32.ofInt (numSlices - n - 1)) delta)
  end.

(** The state of a processor after the calls of a trace. *)
Definition replay {P : Type} (sp : SliceProcessor P) (evs : list event) (p : P) : P :=
  foldl (fun p ev =>
           match ev with
           | EvProcess n depth voxelRadius img _ => fst (sp n depth voxelRadius img p)
           | _ => p
           end) p evs.

(** The rasters handed to the processor, in order. *)
Definition processedImage (ev : event) : option GoImage.Image :=
  match ev with
  | EvProcess _ _ _ img _ => Some img
  | _ => None
  end.

Definition processedImages (evs : list event) : list GoImage.Image :=
  omap processedImage evs.
End Trace.

(* ================================================================== *)
(** ** The words of the specification *)

Module Spec.

Import Irmf.

(** The backend kind a shading-language tag asks for: "glsl" or the
    empty tag select the OpenGL renderer, "wgsl" the WebGPU one. *)
Definition requiredKind (language : string) : option RendererKind :=
  if String.eqb language "glsl" || String.eqb language "" then Some OpenGLRenderer
  else if String.eqb language "wgsl" then Some WebGPURenderer
  else None.

(** A sequence of [NewModel] calls on one slicer; a call that returns
    an error leaves the slicer as it was. *)
Fixpoint loadAll {World : Type} `{!Backend World} `{!Loader}
    (srcs : list string) (st : Slicer * Env World) : Slicer * Env World :=
  match srcs with
  | [] => st
  | src :: srcs' => loadAll srcs' (fst (NewModel (fst st) src (snd st)))
  end.

(** The results of the [Render] calls of a trace, in order: the call
    for slice [k] of a sweep is the [k]-th of them. *)
Definition renderResult (ev : event) : option (GoImage.Image + error) :=
  match ev with
  | EvRender _ _ _ res => Some res
  | _ => None
  end.

Definition renderResults (evs : list event) : list (GoImage.Image + error) :=
  omap renderResult evs.

(** The [Process] call for slice [k] is in the trace and has failed. *)
Definition processFailedAt (k : Z) (cause : error) (evs : list event) : Prop :=
  exists depth voxelRadius img,
    In (EvProcess k depth voxelRadius img (Some cause)) evs.

(** [clean] is [name] with every space replaced by a hyphen and every
    other byte passed through: the same length, a hyphen for each
    space and the same byte everywhere else. *)
Definition sanitized (name clean : string) : Prop :=
  String.length clean = String.length name /\
  forall i c, String.get i name = Some c ->
              String.get i clean = Some (if Ascii.eqb c " " then "-"%char else c).

(** A string of decimal digits only. *)
Fixpoint allDigits (s : string) : bool :=
  match s with
  | EmptyString => true
  | String c rest =>
      (Nat.leb 48 (nat_of_ascii c) && Nat.leb (nat_of_ascii c) 57) && allDigits rest
  end.

(** The number a string of decimal digits stands for. *)
Fixpoint valueFrom (acc : Z) (s : string) : Z :=
  match s with
  | EmptyString => acc
  | String c rest => valueFrom (10 * acc + (Z.of_nat (nat_of_ascii c) - 48)) rest
  end.

Definition decimalValue (s : string) : Z := valueFrom 0 s.

(** The backend a slicer holds is the one object that has been
    allocated and not closed, and its address is not free. *)
Definition holdsItsBackend {World : Type} (st : Slicer * Env World) : Prop :=
  Trace.unclosed (trace (snd st)) []
    = match renderer (fst st) with Some r => [r] | None => [] end /\
  (forall r, renderer (fst st) = Some r -> (ptr r < nextPtr (snd st))%nat).

(** round(q): the integer nearest to the exact value of a finite
    [float32], a half rounded away from zero; on a value that is not
    negative it is floor(q + 1/2). *)
Definition round (q : float32) : option Z :=
  match q with
  | S754_zero _ => Some 0
  | S754_finite s m e =>
      Some (cond_Zopp s
              match e with
              | Z0 => Zpos m
              | Zpos p => Zpos m * 2 ^ Zpos p
              | Zneg p => (2 * Zpos m + 2 ^ Zpos p) / 2 ^ (Zpos p + 1)
              end)
  | _ => None
  end.

(** The counts the sentence on slice counts gives, along X, Y and Z,
    for a loaded model and positive pitches: the quotient of extent
    and pitch rounded to the nearest integer, the X and the Y count
    incremented when the rounded X count is odd. *)
Definition roundedCounts (s : Slicer) : option (Z * Z * Z) :=
  match irmf s with
  | Some m =>
      if Float32.ltb Float32.zero (deltaX s) && Float32.ltb Float32.zero (deltaY s)
         && Float32.ltb Float32.zero (deltaZ s)
      then
        match round (Float32.div (Float32.sub (v0 (Max m)) (v0 (Min m))) (deltaX s)),
              round (Float32.div (Float32.sub (v1 (Max m)) (v1 (Min m))) (deltaY s)),
              round (Float32.div (Float32.sub (v2 (Max m)) (v2 (Min m))) (deltaZ s)) with
        | Some rx, Some ry, Some rz =>
            Some (if Z.odd rx then rx + 1 else rx, if Z.odd rx then ry + 1 else ry, rz)
        | _, _, _ => None
        end
      else None
  | None => None
  end.
End Spec.

(* ================================================================== *)
(** ** Test doubles and the scenarios of the properties *)

Module Doubles.

Import Irmf GoImage.

(** A backend that renders every slice fully white, at the size it was
    initialized with. Its world is that size. *)
Definition whiteBackend : Backend (Z * Z) :=
  {| backendInit := fun _ w h _ _ => ((w, h), None);
     backendPrepare := fun _ _ _ _ _ _ _ w => (w, None);
     backendRender := fun _ _ _ w => (w, inl (Uniform (fst w) (snd w) White));
     backendClose := fun _ w => w |}.

(** A backend whose [Render] fails from the [k]-th call on. Its world
    counts the calls. *)
Definition failingBackend (k : Z) : Backend Z :=
  {| backendInit := fun _ _ _ _ w => (w, None);
     backendPrepare := fun _ _ _ _ _ _ _ w => (w, None);
     backendRender := fun _ _ _ w =>
       (w + 1, if w <? k then inl (Uniform 2 2 White) else inr (ErrMsg "render failed"));
     backendClose := fun _ w => w |}.

(** A processor that counts its calls and fails at slice [k]. *)
Definition failingProcessor (k : Z) : SliceProcessor Z :=
  fun n _ _ _ calls =>
    (calls + 1, if n =? k then Some (ErrMsg "process failed") else None).

(** A processor that only counts its calls. *)
Definition countingProcessor : SliceProcessor Z :=
  fun _ _ _ _ calls => (calls + 1, None).

(** A writer that always succeeds. *)
Definition nullWriter : Binvox.Writer unit :=
  {| Binvox.binvoxWrite := fun _ _ _ _ _ _ _ _ f => (f, None) |}.

(** A loader that reads the language tag off the source text. *)
Definition tagLoader : Loader :=
  {| newModel := fun src =>
       if String.eqb src "bad" then inr (ErrMsg "parse error")
       else inl {| Min := vec 0 0 0; Max := vec 3 3 3;
                   Materials := ["test material"%string];
                   Language := src; Shader := EmptyString |} |}.

Definition freshEnv {World : Type} (w : World) : Env World :=
  {| world := w; nextPtr := 0; trace := [] |}.

(** The solid box of the test: min (0,0,0), max (3,3,3), one material,
    a pitch of one millimetre (1000 microns) on every axis. *)
Definition solidBox : IRMF :=
  {| Min := vec 0 0 0; Max := vec 3 3 3;
     Materials := ["test material"%string];
     Language := "glsl"; Shader := EmptyString |}.

Definition glRenderer : RendererRef := {| kind := OpenGLRenderer; ptr := 0 |}.

Definition solidSlicer : Slicer :=
  setRenderer
    (setIRMF (Init false Float32.thousand Float32.thousand Float32.thousand)
       (Some solidBox))
    (Some glRenderer).

(** The same slicer before any backend is installed. *)
Definition bareSlicer : Slicer := setRenderer solidSlicer None.

(** The mock of the test. *)
Definition solidMock : Binvox.mockSlicer :=
  {| Binvox.nx := 3; Binvox.ny := 3; Binvox.nz := 3;
     Binvox.matName := "test material" |}.

(** A box of [n] millimetres along Z, at a pitch of one millimetre. *)
Definition tallSlicer (n : Z) : Slicer :=
  setIRMF solidSlicer
    (Some {| Min := vec 0 0 0; Max := vec 3 3 n;
             Materials := ["test material"%string];
             Language := "glsl"; Shader := EmptyString |}).

(** A box of 2^-100 by 2^-40 millimetres, one millimetre high, at a
    pitch of 2^-100 millimetres (1000 * 2^-100 microns) along X and Y:
    a raster of one pixel by 2^60 pixels. *)
Definition tiny (e : Z) : float32 := S754_finite false 8388608 (e - 23).

Definition tinyPitch : float32 := S754_finite false 16384000 (-114).

Definition tinyBox : IRMF :=
  {| Min := vec 0 0 0;
     Max := {| v0 := tiny (-100); v1 := tiny (-40); v2 := Float32.one |};
     Materials := ["test material"%string];
     Language := "glsl"; Shader := EmptyString |}.

Definition tinySlicer : Slicer :=
  setRenderer
    (setIRMF (Init false tinyPitch tinyPitch Float32.thousand) (Some tinyBox))
    (Some glRenderer).

(** A box of 2 x 2 x 1 millimetres with [k] materials. *)
Definition manyMaterials (k : nat) : Slicer :=
  setIRMF solidSlicer
    (Some {| Min := vec 0 0 0; Max := vec 2 2 1;
             Materials := replicate k "m"%string;
             Language := "glsl"; Shader := EmptyString |}).

(** A box from the origin to the corner [hi], at a pitch of one
    millimetre. *)
Definition boxSlicer (hi : Vec3) : Slicer :=
  setIRMF solidSlicer
    (Some {| Min := vec 0 0 0; Max := hi;
             Materials := ["test material"%string];
             Language := "glsl"; Shader := EmptyString |}).

(** A box of 3 x 3 millimetres that is 0.49999997 millimetres high,
    the largest [float32] below one half. *)
Definition flatBox : Vec3 :=
  {| v0 := Float32.ofInt 3; v1 := Float32.ofInt 3;
     v2 := S754_finite false 16777215 (-25) |}.

(** A box whose upper corner lies at -3.5 millimetres along X, below
    the lower one. *)
Definition backwardBox : Vec3 :=
  {| v0 := S754_finite true 14680064 (-22); v1 := Float32.ofInt 3;
     v2 := Float32.ofInt 3 |}.
End Doubles.

(* ================================================================== *)
(** * Properties *)

(** ** Integers *)

Section GoIntFacts.

Lemma wrap_inRange z : GoInt.minInt <= z <= GoInt.maxInt -> GoInt.wrap z = z.
Proof.
  unfold GoInt.wrap, GoInt.minInt, GoInt.maxInt. intros Hz.
  rewrite Z.mod_small; lia.
Qed.

Lemma wrap_bounds z : GoInt.minInt <= GoInt.wrap z <= GoInt.maxInt.
Proof.
  unfold GoInt.wrap, GoInt.minInt, GoInt.maxInt.
  pose proof (Z.mod_pos_bound (z + 2 ^ 63) (2 ^ 64) ltac:(lia)). lia.
Qed.

Lemma inRange_spec z :
  GoInt.inRange z = true <-> GoInt.minInt <= z <= GoInt.maxInt.
Proof. unfold GoInt.inRange. rewrite andb_true_iff, !Z.leb_le. tauto. Qed.

(** On a count that is not negative the test [n%2 == 1] is the test
    for an odd number; the smallest [int] is even under both. *)
Lemma rem2_odd n :
  0 <= n \/ n = GoInt.minInt -> (GoInt.rem n 2 =? 1) = Z.odd n.
Proof.
  unfold GoInt.rem. intros [Hn | ->]; [| reflexivity].
  rewrite Z.rem_mod_nonneg by lia.
  rewrite Zmod_odd. destruct (Z.odd n); reflexivity.
Qed.

(** The test [n%2 == 1] holds for the odd numbers above zero only: the
    remainder of a negative odd number is [-1]. *)
Lemma rem2_positive_odd n : (GoInt.rem n 2 =? 1) = (0 <? n) && Z.odd n.
Proof.
  unfold GoInt.rem. destruct (Z.ltb_spec 0 n) as [Hpos | Hneg]; cbn [andb].
  - apply rem2_odd. left. lia.
  - pose proof (Z.rem_nonpos n 2 ltac:(lia) Hneg). apply Z.eqb_neq. lia.
Qed.

End GoIntFacts.

(** ** Floating-point numbers: signs and mantissas *)

Section Float32Facts.

Import Float32.

Lemma shr_m_of_loc m l : shr_m (shr_record_of_loc m l) = m.
Proof. destruct l as [| []]; reflexivity. Qed.

Lemma digits_shr_1 r :
  Zdigits2 (shr_m (shr_1 r)) = Z.max 0 (Zdigits2 (shr_m r) - 1).
Proof.
  destruct r as [m b1 b2]. cbn [shr_1 shr_m].
  destruct m as [| [p | p |] | [p | p |]]; cbn [shr_m Zdigits2 digits2_pos]; lia.
Qed.

Lemma digits_iter_shr p : forall r,
  Zdigits2 (shr_m (SpecFloat.iter_pos shr_1 p r)) = Z.max 0 (Zdigits2 (shr_m r) - Zpos p).
Proof.
  induction p as [p IH | p IH |]; intros r; cbn [SpecFloat.iter_pos].
  - rewrite !IH, digits_shr_1. lia.
  - rewrite !IH. lia.
  - apply digits_shr_1.
Qed.

Lemma Zdigits2_nonneg m : 0 <= Zdigits2 m.
Proof. destruct m; cbn; lia. Qed.

Lemma digits_shr_fexp m e l :
  Zdigits2 (shr_m (fst (shr_fexp prec emax m e l))) <= prec.
Proof.
  unfold shr_fexp, shr, fexp. pose proof (Zdigits2_nonneg m) as Hd.
  destruct (Z.max (Zdigits2 m + e - prec) (emin prec emax) - e) as [| p | p] eqn:Hn;
    cbn [fst]; rewrite ?digits_iter_shr, shr_m_of_loc; unfold prec in *; lia.
Qed.

(** What [binary_round_aux] can return. *)
Lemma round_aux_cases sx mx ex lx :
  match binary_round_aux prec emax sx mx ex lx with
  | S754_zero s | S754_infinity s => s = sx
  | S754_finite s m _ => s = sx /\ Zpos (digits2_pos m) <= prec
  | S754_nan => True
  end.
Proof.
  unfold binary_round_aux.
  destruct (shr_fexp prec emax mx ex lx) as [mrs' e'].
  pose proof (digits_shr_fexp
                (round_nearest_even (shr_m mrs') (loc_of_shr_record mrs')) e' loc_Exact)
    as Hd.
  destruct (shr_fexp prec emax _ e' loc_Exact) as [mrs'' e'']. cbn [fst] in Hd.
  destruct (shr_m mrs'') as [| m | m]; [reflexivity | | exact I].
  destruct (e'' <=? emax - prec); [| reflexivity]. split; [reflexivity | exact Hd].
Qed.

Lemma round_cases sx mx ex :
  match binary_round prec emax sx mx ex with
  | S754_zero s | S754_infinity s => s = sx
  | S754_finite s m _ => s = sx /\ Zpos (digits2_pos m) <= prec
  | S754_nan => True
  end.
Proof.
  unfold binary_round. destruct (shl_align _ _ _) as [mz ez]. apply round_aux_cases.
Qed.

Lemma div_fits24 x y : fits24 (div x y).
Proof.
  destruct x as [sx | sx | | sx mx ex], y as [sy | sy | | sy my ey];
    try exact I.
  unfold div, SFdiv.
  destruct (SFdiv_core_binary prec emax (Zpos mx) ex (Zpos my) ey) as [[mz ez] lz].
  pose proof (round_aux_cases (xorb sx sy) mz ez lz) as H.
  destruct (binary_round_aux _ _ _ _ _ _); try exact I. apply H.
Qed.

Lemma div_notNegative x y :
  ltb zero x = true -> ltb zero y = true -> notNegative (div x y).
Proof.
  destruct x as [sx | [] | | [] mx ex], y as [sy | [] | | [] my ey];
    try discriminate; intros _ _; try exact I.
  unfold div, SFdiv.
  destruct (SFdiv_core_binary prec emax (Zpos mx) ex (Zpos my) ey) as [[mz ez] lz].
  pose proof (round_aux_cases (xorb false false) mz ez lz) as H.
  destruct (binary_round_aux _ _ _ _ _ _) as [s | s | | s m e]; cbn in H |- *;
    try exact I.
  - subst s. exact I.
  - destruct H as [-> _]. exact I.
Qed.

Lemma normalize_cases m e :
  fits24 (binary_normalize prec emax m e false) /\
  (0 <= m -> notNegative (binary_normalize prec emax m e false)).
Proof.
  destruct m as [| p | p]; cbn [binary_normalize].
  - split; intros; exact I.
  - pose proof (round_cases false p e) as H.
    destruct (binary_round _ _ _ _ _) as [s | s | | s m' e']; cbn in H |- *;
      repeat split; intros; try exact I; try tauto.
    + subst s. exact I.
    + destruct H as [-> _]. exact I.
  - pose proof (round_cases true p e) as H.
    destruct (binary_round _ _ _ _ _) as [s | s | | s m' e']; cbn in H |- *;
      repeat split; intros; try exact I; try tauto; lia.
Qed.

Lemma add_half_fits24 q : fits24 q -> fits24 (add half q).
Proof.
  destruct q as [s | s | | s m e]; intros Hq; try exact I.
  - cbn. unfold prec. lia.
  - unfold add, SFadd, half. apply normalize_cases.
Qed.

Lemma add_half_notNegative q : notNegative q -> notNegative (add half q).
Proof.
  destruct q as [s | [] | | [] m e]; intros Hq; try exact I; try contradiction.
  unfold add, SFadd, half. apply normalize_cases.
  unfold cond_Zopp. lia.
Qed.

(** The conversion to [int] stays in the range of an [int]. *)
Lemma toInt_bounds f : GoInt.minInt <= toInt f <= GoInt.maxInt.
Proof.
  unfold toInt. destruct (truncate f) as [t |].
  - destruct (GoInt.inRange t) eqn:Ht.
    + apply inRange_spec, Ht.
    + unfold GoInt.minInt, GoInt.maxInt. lia.
  - unfold GoInt.minInt, GoInt.maxInt. lia.
Qed.

Lemma toInt_notNegative f :
  notNegative f -> 0 <= toInt f \/ toInt f = GoInt.minInt.
Proof.
  unfold toInt. destruct f as [s | s | | s m e]; cbn [truncate]; intros Hf.
  - left. now vm_compute.
  - right. reflexivity.
  - right. reflexivity.
  - destruct s; [contradiction |]. cbn [cond_Zopp].
    destruct (GoInt.inRange _); [left | right; reflexivity].
    destruct e as [| p | p]; [lia | apply Z.shiftl_nonneg; lia
                             | apply Z.shiftr_nonneg; lia].
Qed.

Lemma digits2_pos_bound m : Zpos m < 2 ^ Zpos (digits2_pos m).
Proof.
  induction m as [m IH | m IH |]; cbn [digits2_pos].
  - rewrite Pos2Z.inj_succ, Z.pow_succ_r by lia. lia.
  - rewrite Pos2Z.inj_succ, Z.pow_succ_r by lia. lia.
  - cbn. lia.
Qed.

(** An odd [int] that comes out of a conversion is below [2^24] in
    absolute value: beyond, every [float32] is an even integer. *)
Lemma toInt_odd_small f :
  fits24 f -> Z.odd (toInt f) = true -> - 2 ^ 24 < toInt f < 2 ^ 24.
Proof.
  unfold toInt. destruct f as [s | s | | s m e]; cbn [truncate fits24];
    intros Hf Hodd; try (cbn in Hodd; discriminate).
  assert (Hm : 0 < Zpos m < 2 ^ 24).
  { pose proof (digits2_pos_bound m) as Hb. split; [lia |].
    eapply Z.lt_le_trans; [exact Hb |]. apply Z.pow_le_mono_r; unfold prec in Hf; lia. }
  destruct (GoInt.inRange _) eqn:Hr; [| cbn in Hodd; discriminate].
  destruct e as [| p | p].
  - destruct s; cbn [cond_Zopp] in *; lia.
  - exfalso. rewrite Z.shiftl_mul_pow2 in Hodd by lia.
    assert (Heven : Z.odd (cond_Zopp s (Zpos m * 2 ^ Zpos p)) = false).
    { replace (cond_Zopp s (Zpos m * 2 ^ Zpos p))
        with (2 * (cond_Zopp s (Zpos m) * 2 ^ (Zpos p - 1))).
      - apply Z.odd_even.
      - replace (2 ^ Zpos p) with (2 * 2 ^ (Zpos p - 1)).
        + destruct s; cbn [cond_Zopp]; lia.
        + rewrite <- Z.pow_succ_r by lia. f_equal. lia. }
    congruence.
  - assert (Hs : 0 <= Z.shiftr (Zpos m) (Zpos p) <= Zpos m).
    { rewrite Z.shiftr_div_pow2 by lia. split.
      - apply Z.div_pos; lia.
      - apply Z.div_le_upper_bound; [lia |].
        assert (1 <= 2 ^ Zpos p) by (apply Z.pow_le_mono_r with (b := 0); lia). nia. }
    destruct s; cbn [cond_Zopp] in *; lia.
Qed.

End Float32Facts.

(** ** Floating-point numbers: values and rounding *)

Section Float32Values.

Import Float32.

Lemma bpow_gt_0 e : (0 < bpow e)%R.
Proof. apply powerRZ_lt. lra. Qed.

Lemma bpow_plus a b : bpow (a + b) = (bpow a * bpow b)%R.
Proof. apply powerRZ_add. lra. Qed.

Lemma bpow_lt a b : a < b -> (bpow a < bpow b)%R.
Proof.
  intros H. replace b with (a + (b - a)) by lia. rewrite bpow_plus.
  assert (1 < bpow (b - a))%R.
  { unfold bpow. destruct (b - a) as [| p | p] eqn:E; try lia.
    cbn [powerRZ]. apply Rlt_pow_R1; [lra | lia]. }
  pose proof (bpow_gt_0 a). nra.
Qed.

Lemma bpow_le a b : a <= b -> (bpow a <= bpow b)%R.
Proof.
  intros H. destruct (Z.eq_dec a b) as [-> | Hne]; [lra |].
  apply Rlt_le, bpow_lt. lia.
Qed.

Lemma bpow_IZR e : 0 <= e -> bpow e = IZR (2 ^ e).
Proof.
  intros H. unfold bpow. destruct e as [| p | p]; [reflexivity | | lia].
  change (2 ^ Zpos p) with (Z.pow_pos 2 p). now rewrite Zpower_pos_powerRZ.
Qed.

Lemma bpow_0 : bpow 0 = 1%R.
Proof. reflexivity. Qed.

Lemma digits_lower p : 2 ^ (Zpos (digits2_pos p) - 1) <= Zpos p.
Proof.
  induction p as [p IH | p IH |]; cbn [digits2_pos].
  - rewrite Pos2Z.inj_succ. replace (Z.succ (Zpos (digits2_pos p)) - 1)
      with (Z.succ (Zpos (digits2_pos p) - 1)) by lia.
    rewrite Z.pow_succ_r by lia. lia.
  - rewrite Pos2Z.inj_succ. replace (Z.succ (Zpos (digits2_pos p)) - 1)
      with (Z.succ (Zpos (digits2_pos p) - 1)) by lia.
    rewrite Z.pow_succ_r by lia. lia.
  - cbn. lia.
Qed.

Lemma digits_bounds_R p :
  (bpow (Zpos (digits2_pos p) - 1) <= IZR (Zpos p) < bpow (Zpos (digits2_pos p)))%R.
Proof.
  rewrite !bpow_IZR by lia. split.
  - apply IZR_le, digits_lower.
  - apply IZR_lt, digits2_pos_bound.
Qed.

Lemma fexp32_eq e : fexp32 e = Z.max (e - 24) (-149).
Proof. reflexivity. Qed.

Lemma F2R_le m1 m2 e : m1 <= m2 -> (F2R m1 e <= F2R m2 e)%R.
Proof.
  intros H. unfold F2R. apply Rmult_le_compat_r; [apply Rlt_le, bpow_gt_0 | now apply IZR_le].
Qed.

Lemma F2R_shift m e n : 0 <= n -> F2R (m * 2 ^ n) e = F2R m (e + n).
Proof.
  intros H. unfold F2R. rewrite mult_IZR, <- bpow_IZR by exact H.
  rewrite bpow_plus. ring.
Qed.

(** Dividing the mantissa by a power of two rounds the value down. *)
Lemma F2R_div_le m e n : 0 <= n -> (F2R (m / 2 ^ n) (e + n) <= F2R m e)%R.
Proof.
  intros H. rewrite <- F2R_shift by exact H. apply F2R_le.
  pose proof (Z.mul_div_le m (2 ^ n) ltac:(lia)). lia.
Qed.

(** The shift of [shr] is a division. *)
Lemma shr_1_div r : 0 <= shr_m r -> shr_m (shr_1 r) = shr_m r / 2.
Proof.
  destruct r as [m b1 b2]. cbn [shr_m shr_1]. intros Hm.
  destruct m as [| [p | p |] | p]; cbn [shr_m]; [reflexivity | | | reflexivity | lia].
  - rewrite Pos2Z.inj_xI. apply Z.div_unique with (r := 1); lia.
  - rewrite Pos2Z.inj_xO. apply Z.div_unique with (r := 0); lia.
Qed.

Lemma iter_shr_div p : forall r,
  0 <= shr_m r -> shr_m (SpecFloat.iter_pos shr_1 p r) = shr_m r / 2 ^ Zpos p.
Proof.
  induction p as [p IH | p IH |]; intros r Hr; cbn [SpecFloat.iter_pos].
  - assert (H1 : 0 <= shr_m (shr_1 r)) by (rewrite shr_1_div by exact Hr; apply Z.div_pos; lia).
    assert (H2 : 0 <= shr_m (SpecFloat.iter_pos shr_1 p (shr_1 r))).
    { rewrite IH by exact H1. apply Z.div_pos; lia. }
    rewrite IH, IH, shr_1_div by assumption.
    rewrite !Z.div_div by lia. f_equal.
    rewrite Pos2Z.inj_xI. rewrite <- !Z.pow_add_r, <- Z.pow_succ_r by lia. f_equal. lia.
  - assert (H2 : 0 <= shr_m (SpecFloat.iter_pos shr_1 p r)).
    { rewrite IH by exact Hr. apply Z.div_pos; lia. }
    rewrite IH, IH by assumption. rewrite Z.div_div by lia. f_equal.
    rewrite Pos2Z.inj_xO. rewrite <- Z.pow_add_r by lia. f_equal. lia.
  - rewrite shr_1_div by exact Hr. reflexivity.
Qed.

Lemma bpow_lt_inv a b : (bpow a < bpow b)%R -> a < b.
Proof.
  intros H. destruct (Z.lt_ge_cases a b) as [Hlt | Hge]; [exact Hlt |].
  pose proof (bpow_le b a Hge). lra.
Qed.

Lemma F2R_pos_bounds (p : positive) e :
  (bpow (Zpos (digits2_pos p) - 1 + e) <= F2R (Zpos p) e < bpow (Zpos (digits2_pos p) + e))%R.
Proof.
  unfold F2R. rewrite !bpow_plus. pose proof (digits_bounds_R p) as [Hl Hu].
  pose proof (bpow_gt_0 e). split; nra.
Qed.

(** Truncating a mantissa to the precision of the format stays above
    every canonical number that the value was above. *)
Lemma trunc_ge (m : positive) e (my : positive) ey n :
  canonical my ey ->
  n = fexp32 (Zpos (digits2_pos m) + e) - e -> 0 < n ->
  (F2R (Zpos my) ey <= F2R (Zpos m) e)%R ->
  (F2R (Zpos my) ey <= F2R (Zpos m / 2 ^ n) (e + n))%R.
Proof.
  unfold canonical. intros Hy Hn Hpos Hle.
  set (d := Zpos (digits2_pos m)) in *. set (dy := Zpos (digits2_pos my)) in *.
  pose proof (F2R_pos_bounds m e) as [Hml Hmu]. fold d in Hml, Hmu.
  pose proof (F2R_pos_bounds my ey) as [Hyl Hyu]. fold dy in Hyl, Hyu.
  assert (Hmag : dy + ey <= d + e).
  { assert (bpow (dy - 1 + ey) < bpow (d + e))%R by lra.
    apply bpow_lt_inv in H. lia. }
  rewrite fexp32_eq in Hy, Hn.
  destruct (Z.eq_dec ey (e + n)) as [Heq | Hne].
  - (* same exponent: compare the mantissas *)
    subst ey. apply F2R_le. apply Z.div_le_lower_bound; [lia |].
    rewrite <- F2R_shift in Hle by lia.
    unfold F2R in Hle. pose proof (bpow_gt_0 e).
    apply le_IZR. rewrite Z.mul_comm. nra.
  - (* a smaller exponent: a smaller magnitude *)
    assert (Hd : dy + ey <= d + e - 1) by lia.
    assert (Hn' : n = d - 24) by lia.
    apply Rle_trans with (bpow (d + e - 1)).
    + apply Rlt_le. eapply Rlt_le_trans; [exact Hyu | apply bpow_le; lia].
    + assert (Hdiv : 2 ^ (d - 1 - n) <= Zpos m / 2 ^ n).
      { apply Z.div_le_lower_bound; [lia |].
        rewrite <- Z.pow_add_r by lia. replace (n + (d - 1 - n)) with (d - 1) by lia.
        apply digits_lower. }
      apply Rle_trans with (F2R (2 ^ (d - 1 - n)) (e + n)); [| apply F2R_le, Hdiv].
      unfold F2R. rewrite <- bpow_IZR by lia. rewrite <- bpow_plus.
      apply bpow_le. lia.
Qed.

Lemma F2R_pos_gt_0 (p : positive) e : (0 < F2R (Zpos p) e)%R.
Proof.
  unfold F2R. apply Rmult_lt_0_compat; [apply IZR_lt; lia | apply bpow_gt_0].
Qed.

Lemma F2R_gt_0_inv m e : (0 < F2R m e)%R -> 0 < m.
Proof.
  unfold F2R. intros H. pose proof (bpow_gt_0 e).
  apply lt_IZR. nra.
Qed.

(** The same for the shift [shr_fexp] performs. *)
Lemma shr_fexp_ge (m : positive) e l (my : positive) ey :
  canonical my ey ->
  (F2R (Zpos my) ey <= F2R (Zpos m) e)%R ->
  (F2R (Zpos my) ey
   <= F2R (shr_m (fst (shr_fexp prec emax (Zpos m) e l)))
          (snd (shr_fexp prec emax (Zpos m) e l)))%R.
Proof.
  intros Hy Hle. unfold shr_fexp, shr. cbn [Zdigits2].
  change (SpecFloat.fexp prec emax (Zpos (digits2_pos m) + e))
    with (fexp32 (Zpos (digits2_pos m) + e)).
  destruct (fexp32 (Zpos (digits2_pos m) + e) - e) as [| n | n] eqn:Hn;
    cbn [fst snd]; rewrite ?shr_m_of_loc; try exact Hle.
  rewrite iter_shr_div by (rewrite shr_m_of_loc; lia). rewrite shr_m_of_loc.
  apply trunc_ge; [exact Hy | lia | lia | exact Hle].
Qed.

Lemma round_nearest_even_ge m l : m <= round_nearest_even m l.
Proof. destruct l as [| []]; cbn; try lia. destruct (Z.even m); lia. Qed.

(** Rounding stays above every canonical number that the exact value
    is above. *)
Lemma round_aux_ge (m : positive) e l (my : positive) ey :
  canonical my ey ->
  (F2R (Zpos my) ey <= F2R (Zpos m) e)%R ->
  binary_round_aux prec emax false (Zpos m) e l = S754_infinity false \/
  exists m' e',
    binary_round_aux prec emax false (Zpos m) e l = S754_finite false m' e' /\
    (F2R (Zpos my) ey <= F2R (Zpos m') e')%R.
Proof.
  intros Hy Hle. unfold binary_round_aux.
  pose proof (shr_fexp_ge m e l my ey Hy Hle) as H1.
  destruct (shr_fexp prec emax (Zpos m) e l) as [mrs' e']. cbn [fst snd] in H1.
  set (m1 := round_nearest_even (shr_m mrs') (loc_of_shr_record mrs')).
  assert (Hm1 : (F2R (Zpos my) ey <= F2R m1 e')%R).
  { eapply Rle_trans; [exact H1 | apply F2R_le, round_nearest_even_ge]. }
  assert (Hpos : 0 < m1).
  { apply (F2R_gt_0_inv m1 e'). pose proof (F2R_pos_gt_0 my ey). lra. }
  destruct m1 as [| p1 | p1] eqn:E1; try lia.
  pose proof (shr_fexp_ge p1 e' loc_Exact my ey Hy Hm1) as H2.
  destruct (shr_fexp prec emax (Zpos p1) e' loc_Exact) as [mrs'' e'']. cbn [fst snd] in H2.
  assert (Hpos2 : 0 < shr_m mrs'').
  { apply (F2R_gt_0_inv _ e''). pose proof (F2R_pos_gt_0 my ey). lra. }
  destruct (shr_m mrs'') as [| p2 | p2]; try lia.
  destruct (e'' <=? emax - prec); [right | left; reflexivity].
  exists p2, e''. split; [reflexivity | exact H2].
Qed.

(** [x < y] on a bounded [x] and a normal [y] is the order of the
    values. *)
Lemma ltb_finite_lt m1 e1 my ey :
  Zpos (digits2_pos m1) <= 24 -> Zpos (digits2_pos my) = 24 ->
  ltb (S754_finite false m1 e1) (S754_finite false my ey) = true ->
  (F2R (Zpos m1) e1 < F2R (Zpos my) ey)%R.
Proof.
  intros H1 Hy. unfold ltb, SFltb, SFcompare.
  pose proof (F2R_pos_bounds m1 e1) as [_ Hu]. pose proof (F2R_pos_bounds my ey) as [Hl _].
  destruct (Z.compare_spec e1 ey) as [Heq | Hlt | Hgt]; try discriminate.
  - subst ey. rewrite Pos.compare_cont_spec. cbn [Pos.switch_Eq].
    destruct (Pos.compare_spec m1 my) as [| Hm |]; try discriminate. intros _.
    unfold F2R. pose proof (bpow_gt_0 e1).
    assert (IZR (Zpos m1) < IZR (Zpos my))%R by (apply IZR_lt; lia). nra.
  - intros _. eapply Rlt_le_trans; [exact Hu |].
    eapply Rle_trans; [| exact Hl]. apply bpow_le. lia.
Qed.

(** Shifting out zeros is exact. *)
Lemma shr_1_exact k :
  0 <= k ->
  shr_1 {| shr_m := 2 * k; shr_r := false; shr_s := false |}
  = {| shr_m := k; shr_r := false; shr_s := false |}.
Proof.
  intros Hk. destruct k as [| p | p]; [reflexivity | reflexivity | lia].
Qed.

Lemma iter_shr_exact q : forall k,
  0 <= k ->
  SpecFloat.iter_pos shr_1 q {| shr_m := k * 2 ^ Zpos q; shr_r := false; shr_s := false |}
  = {| shr_m := k; shr_r := false; shr_s := false |}.
Proof.
  induction q as [q IH | q IH |]; intros k Hk; cbn [SpecFloat.iter_pos].
  - replace (k * 2 ^ Zpos q~1) with (2 * ((k * 2 ^ Zpos q) * 2 ^ Zpos q)).
    + rewrite shr_1_exact by nia. rewrite IH by nia. apply IH, Hk.
    + replace (Zpos q~1) with (Zpos q + Zpos q + 1) by lia.
      rewrite !Z.pow_add_r, Z.pow_1_r by lia. ring.
  - replace (k * 2 ^ Zpos q~0) with ((k * 2 ^ Zpos q) * 2 ^ Zpos q).
    + rewrite IH by nia. apply IH, Hk.
    + replace (Zpos q~0) with (Zpos q + Zpos q) by lia.
      rewrite !Z.pow_add_r by lia. ring.
  - replace (k * 2 ^ 1) with (2 * k) by lia. apply shr_1_exact, Hk.
Qed.

(** The number of binary digits, from the bounds. *)
Lemma digits_unique (p : positive) d :
  2 ^ (d - 1) <= Zpos p < 2 ^ d -> Zpos (digits2_pos p) = d.
Proof.
  intros [Hl Hu]. pose proof (digits_lower p) as Hl'. pose proof (digits2_pos_bound p) as Hu'.
  assert (0 < d).
  { destruct (Z.lt_ge_cases 0 d); [assumption |].
    destruct (Z.eq_dec d 0) as [-> | ]; [cbn in Hu; lia |].
    rewrite (Z.pow_neg_r 2 d) in Hu by lia. lia. }
  destruct (Z.lt_trichotomy (Zpos (digits2_pos p)) d) as [Hlt | [Heq | Hgt]];
    [| exact Heq |].
  - assert (2 ^ Zpos (digits2_pos p) <= 2 ^ (d - 1)) by (apply Z.pow_le_mono_r; lia). lia.
  - assert (2 ^ d <= 2 ^ (Zpos (digits2_pos p) - 1)) by (apply Z.pow_le_mono_r; lia). lia.
Qed.

Lemma digits_shift (p : positive) n :
  0 <= n -> Zdigits2 (Zpos p * 2 ^ n) = Zpos (digits2_pos p) + n.
Proof.
  intros Hn. assert (Hp : 0 < Zpos p * 2 ^ n) by (apply Z.mul_pos_pos; lia).
  destruct (Zpos p * 2 ^ n) as [| q | q] eqn:E; try lia.
  cbn [Zdigits2]. apply digits_unique. rewrite <- E.
  pose proof (digits_lower p). pose proof (digits2_pos_bound p).
  replace (Zpos (digits2_pos p) + n - 1) with ((Zpos (digits2_pos p) - 1) + n) by lia.
  rewrite !Z.pow_add_r by lia. split; nia.
Qed.

(** Rounding a canonical number, given with a finer exponent, yields
    that number. *)
Lemma round_aux_exact (my : positive) ey n :
  canonical my ey -> ey <= emax - prec -> 0 <= n ->
  binary_round_aux prec emax false (Zpos my * 2 ^ n) (ey - n) loc_Exact
  = S754_finite false my ey.
Proof.
  unfold canonical. intros Hy Hmax Hn. unfold binary_round_aux.
  assert (Hshift : shr_fexp prec emax (Zpos my * 2 ^ n) (ey - n) loc_Exact
                   = ({| shr_m := Zpos my; shr_r := false; shr_s := false |}, ey)).
  { unfold shr_fexp, shr. rewrite digits_shift by exact Hn.
    replace (Zpos (digits2_pos my) + n + (ey - n)) with (Zpos (digits2_pos my) + ey) by lia.
    change (SpecFloat.fexp prec emax (Zpos (digits2_pos my) + ey))
      with (fexp32 (Zpos (digits2_pos my) + ey)). rewrite Hy.
    replace (ey - (ey - n)) with n by lia.
    destruct n as [| q | q]; [| | lia].
    - rewrite Z.mul_1_r. cbn. f_equal. lia.
    - cbn [shr_record_of_loc]. rewrite iter_shr_exact by lia. f_equal. lia. }
  rewrite Hshift. cbn [shr_m loc_of_shr_record round_nearest_even].
  assert (Hshift2 : shr_fexp prec emax (Zpos my) ey loc_Exact
                    = ({| shr_m := Zpos my; shr_r := false; shr_s := false |}, ey)).
  { unfold shr_fexp, shr. cbn [Zdigits2].
    change (SpecFloat.fexp prec emax (Zpos (digits2_pos my) + ey))
      with (fexp32 (Zpos (digits2_pos my) + ey)). rewrite Hy, Z.sub_diag. reflexivity. }
  rewrite Hshift2. cbn [shr_m].
  destruct (Z.leb_spec ey (emax - prec)); [reflexivity | lia].
Qed.

Lemma pos_iter_xO (p d : positive) : Zpos (Pos.iter xO p d) = Zpos p * 2 ^ Zpos d.
Proof.
  revert p. induction d as [| d IH] using Pos.peano_ind; intros p.
  - cbn [Pos.iter]. rewrite Pos2Z.inj_xO. lia.
  - rewrite Pos.iter_succ, Pos2Z.inj_xO, IH, Pos2Z.inj_succ, Z.pow_succ_r by lia. ring.
Qed.

(** [shl_align] keeps the value. *)
Lemma shl_align_value (m : positive) e e' :
  F2R (Zpos (fst (shl_align m e e'))) (snd (shl_align m e e')) = F2R (Zpos m) e.
Proof.
  unfold shl_align. destruct (e' - e) as [| d | d] eqn:Hd; cbn [fst snd]; try reflexivity.
  rewrite pos_iter_xO. rewrite F2R_shift by lia. f_equal. lia.
Qed.

Lemma shl_align_exponent (m : positive) e e' :
  e' <= e -> snd (shl_align m e e') = e'.
Proof.
  intros H. unfold shl_align. destruct (e' - e) as [| d | d] eqn:Hd; cbn [snd]; lia.
Qed.

(** The same bound for [binary_round], which first aligns. *)
Lemma round_ge (m : positive) e (my : positive) ey :
  canonical my ey ->
  (F2R (Zpos my) ey <= F2R (Zpos m) e)%R ->
  binary_round prec emax false m e = S754_infinity false \/
  exists m' e',
    binary_round prec emax false m e = S754_finite false m' e' /\
    (F2R (Zpos my) ey <= F2R (Zpos m') e')%R.
Proof.
  intros Hy Hle. unfold binary_round.
  pose proof (shl_align_value m e (SpecFloat.fexp prec emax (Zpos (digits2_pos m) + e))) as Hv.
  destruct (shl_align m e _) as [mz ez]. cbn [fst snd] in Hv.
  apply round_aux_ge; [exact Hy | now rewrite Hv].
Qed.

(** Rounding a canonical number given with any exponent. *)
Lemma round_exact (m : positive) e (my : positive) ey :
  canonical my ey -> ey <= emax - prec ->
  F2R (Zpos m) e = F2R (Zpos my) ey ->
  binary_round prec emax false m e = S754_finite false my ey.
Proof.
  intros Hy Hmax Hv. unfold binary_round.
  assert (Hmag : Zpos (digits2_pos m) + e = Zpos (digits2_pos my) + ey).
  { pose proof (F2R_pos_bounds m e) as [Hl Hu]. pose proof (F2R_pos_bounds my ey) as [Hl' Hu'].
    rewrite Hv in Hl, Hu.
    assert (H1 : (bpow (Zpos (digits2_pos m) - 1 + e) < bpow (Zpos (digits2_pos my) + ey))%R)
      by lra.
    assert (H2 : (bpow (Zpos (digits2_pos my) - 1 + ey) < bpow (Zpos (digits2_pos m) + e))%R)
      by lra.
    apply bpow_lt_inv in H1, H2. lia. }
  rewrite Hmag. change (SpecFloat.fexp prec emax (Zpos (digits2_pos my) + ey))
    with (fexp32 (Zpos (digits2_pos my) + ey)). rewrite Hy.
  pose proof (shl_align_value m e ey) as Hal.
  assert (Hez : snd (shl_align m e ey) <= ey).
  { unfold shl_align. destruct (ey - e) as [| d | d] eqn:Hd; cbn [snd]; lia. }
  destruct (shl_align m e ey) as [mz ez]. cbn [fst snd] in Hal, Hez.
  assert (Hmz : Zpos mz = Zpos my * 2 ^ (ey - ez)).
  { rewrite Hv in Hal.
    assert (Hsh : F2R (Zpos my) ey = F2R (Zpos my * 2 ^ (ey - ez)) ez).
    { rewrite F2R_shift by lia. f_equal. lia. }
    rewrite Hsh in Hal. unfold F2R in Hal.
    pose proof (bpow_gt_0 ez). apply eq_IZR. nra. }
  rewrite Hmz. replace ez with (ey - (ey - ez)) at 2 by lia.
  apply round_aux_exact; [exact Hy | exact Hmax | lia].
Qed.

(** The product of two positive numbers, from below. *)
Lemma mul_ge ma ea mb eb (my : positive) ey :
  canonical my ey ->
  (F2R (Zpos my) ey <= F2R (Zpos ma) ea * F2R (Zpos mb) eb)%R ->
  mul (S754_finite false ma ea) (S754_finite false mb eb) = S754_infinity false \/
  exists m' e',
    mul (S754_finite false ma ea) (S754_finite false mb eb) = S754_finite false m' e' /\
    (F2R (Zpos my) ey <= F2R (Zpos m') e')%R.
Proof.
  intros Hy Hle. unfold mul, SFmul. cbn [xorb].
  apply round_aux_ge; [exact Hy |].
  unfold F2R in *. rewrite Pos2Z.inj_mul, mult_IZR, bpow_plus. lra.
Qed.

(** The sum of one half and a positive number, from below. *)
Lemma add_half_ge mq eq (my : positive) ey :
  canonical my ey ->
  (F2R (Zpos my) ey <= F2R (Zpos mq) eq)%R ->
  add half (S754_finite false mq eq) = S754_infinity false \/
  exists m' e',
    add half (S754_finite false mq eq) = S754_finite false m' e' /\
    (F2R (Zpos my) ey <= F2R (Zpos m') e')%R.
Proof.
  intros Hy Hle. unfold add, SFadd, half. cbn [cond_Zopp].
  set (ez := Z.min (-24) eq).
  pose proof (shl_align_value 8388608 (-24) ez) as H1.
  pose proof (shl_align_value mq eq ez) as H2.
  rewrite shl_align_exponent in H1, H2 by lia.
  change (Zpos (fst (shl_align 8388608 (-24) ez)) + Zpos (fst (shl_align mq eq ez)))
    with (Zpos (fst (shl_align 8388608 (-24) ez) + fst (shl_align mq eq ez))).
  cbn [binary_normalize]. apply round_ge; [exact Hy |].
  unfold F2R in *. rewrite Pos2Z.inj_add, plus_IZR.
  pose proof (F2R_pos_gt_0 8388608 (-24)) as Hpos. unfold F2R in Hpos. lra.
Qed.

(** The quotient [SFdiv_core_binary] computes, from below: a canonical
    number below the exact quotient is below the truncated one. *)
Lemma div_core_ge (m1 : positive) e1 (m2 : positive) e2 (my : positive) ey :
  canonical my ey ->
  (F2R (Zpos my) ey * F2R (Zpos m2) e2 <= F2R (Zpos m1) e1)%R ->
  (F2R (Zpos my) ey
   <= F2R (fst (fst (SFdiv_core_binary prec emax (Zpos m1) e1 (Zpos m2) e2)))
          (snd (fst (SFdiv_core_binary prec emax (Zpos m1) e1 (Zpos m2) e2))))%R.
Proof.
  unfold canonical. intros Hy Hle. unfold SFdiv_core_binary. cbn [Zdigits2].
  set (d1 := Zpos (digits2_pos m1)). set (d2 := Zpos (digits2_pos m2)).
  set (dy := Zpos (digits2_pos my)) in *.
  change (SpecFloat.fexp prec emax (d1 + e1 - (d2 + e2))) with (fexp32 (d1 + e1 - (d2 + e2))).
  set (e' := Z.min (fexp32 (d1 + e1 - (d2 + e2))) (e1 - e2)).
  set (s := e1 - e2 - e').
  assert (Hs : 0 <= s) by (unfold s, e'; lia).
  set (m' := match s with Zpos _ => Z.shiftl (Zpos m1) s | Z0 => Zpos m1 | Zneg _ => 0 end).
  assert (Hm' : m' = Zpos m1 * 2 ^ s).
  { unfold m'. destruct s as [| p | p]; [lia | | lia]. now rewrite Z.shiftl_mul_pow2 by lia. }
  pose proof (Z.div_eucl_eq m' (Zpos m2) ltac:(lia)) as Heucl.
  pose proof (Z.mod_pos_bound m' (Zpos m2) ltac:(lia)) as Hmod.
  unfold Z.modulo in Hmod.
  assert (Hq : fst (Z.div_eucl m' (Zpos m2)) = m' / Zpos m2) by reflexivity.
  destruct (Z.div_eucl m' (Zpos m2)) as [q r] eqn:Hdiv. cbn [fst snd] in *.
  pose proof (F2R_pos_bounds m1 e1) as [H1l H1u]. fold d1 in H1l, H1u.
  pose proof (F2R_pos_bounds m2 e2) as [H2l H2u]. fold d2 in H2l, H2u.
  pose proof (F2R_pos_bounds my ey) as [Hyl Hyu]. fold dy in Hyl, Hyu.
  pose proof (F2R_pos_gt_0 m2 e2) as H2pos.
  destruct (Z.le_gt_cases e' ey) as [Hfine | Hcoarse].
  - (* the number lies on the grid of the quotient *)
    replace ey with (e' + (ey - e')) by lia. rewrite <- F2R_shift by lia.
    apply F2R_le. rewrite Hq. apply Z.div_le_lower_bound; [lia |].
    rewrite Hm'. apply le_IZR.
    assert (Hsh : F2R (Zpos my) ey = F2R (Zpos my * 2 ^ (ey - e')) e').
    { rewrite F2R_shift by lia. f_equal. lia. }
    assert (Hsh1 : F2R (Zpos m1) e1 = F2R (Zpos m1 * 2 ^ s) (e' + e2)).
    { rewrite F2R_shift by lia. f_equal. unfold s. lia. }
    rewrite Hsh, Hsh1 in Hle. unfold F2R in Hle. rewrite bpow_plus in Hle.
    pose proof (bpow_gt_0 e'). pose proof (bpow_gt_0 e2).
    rewrite !mult_IZR. rewrite !mult_IZR in Hle.
    assert (Hk : (0 < bpow e' * bpow e2)%R) by nra.
    apply Rmult_le_reg_r with (bpow e' * bpow e2)%R; [exact Hk |]. lra.
  - (* a smaller magnitude *)
    rewrite fexp32_eq in Hy.
    assert (He' : e' <= d1 + e1 - (d2 + e2) - 24).
    { unfold e'. rewrite fexp32_eq. unfold e' in Hcoarse. rewrite fexp32_eq in Hcoarse. lia. }
    assert (Hmag : dy + ey <= d1 + e1 - (d2 + e2) - 1).
    { unfold e' in Hcoarse. rewrite fexp32_eq in Hcoarse. lia. }
    set (k := d1 + e1 - (d2 + e2) - 1 - e') in *.
    assert (Hk0 : 0 <= k) by (unfold k; lia).
    apply Rle_trans with (F2R (2 ^ k) e').
    + unfold F2R. rewrite <- bpow_IZR, <- bpow_plus by lia.
      apply Rlt_le. eapply Rlt_le_trans; [exact Hyu |]. apply bpow_le. unfold k. lia.
    + apply F2R_le. rewrite Hq. apply Z.div_le_lower_bound; [lia |].
      rewrite Hm'. pose proof (digits_lower m1) as Hd1. pose proof (digits2_pos_bound m2) as Hd2.
      fold d1 in Hd1. fold d2 in Hd2.
      assert (Hpow : 2 ^ d2 * 2 ^ k = 2 ^ (d1 - 1) * 2 ^ s).
      { rewrite <- !Z.pow_add_r by (unfold d1, d2; lia). f_equal. unfold k, s. lia. }
      assert (0 < 2 ^ k) by (apply Z.pow_pos_nonneg; lia).
      assert (0 < 2 ^ s) by (apply Z.pow_pos_nonneg; lia).
      nia.
Qed.

(** The quotient of two positive numbers, from below. *)
Lemma div_ge m1 e1 m2 e2 (my : positive) ey :
  canonical my ey ->
  (F2R (Zpos my) ey * F2R (Zpos m2) e2 <= F2R (Zpos m1) e1)%R ->
  div (S754_finite false m1 e1) (S754_finite false m2 e2) = S754_infinity false \/
  exists m' e',
    div (S754_finite false m1 e1) (S754_finite false m2 e2) = S754_finite false m' e' /\
    (F2R (Zpos my) ey <= F2R (Zpos m') e')%R.
Proof.
  intros Hy Hle. unfold div, SFdiv. cbn [xorb].
  pose proof (div_core_ge m1 e1 m2 e2 my ey Hy Hle) as Hq.
  destruct (SFdiv_core_binary prec emax (Zpos m1) e1 (Zpos m2) e2) as [[mz ez] lz].
  cbn [fst snd] in Hq.
  assert (Hpos : 0 < mz).
  { apply (F2R_gt_0_inv mz ez). pose proof (F2R_pos_gt_0 my ey). lra. }
  destruct mz as [| pz | pz]; try lia.
  apply round_aux_ge; assumption.
Qed.

(** The conversion to [int], from below. *)
Lemma toInt_ge m e h :
  (IZR h <= F2R (Zpos m) e)%R ->
  h <= toInt (S754_finite false m e) \/ toInt (S754_finite false m e) = GoInt.minInt.
Proof.
  intros Hle. unfold toInt. cbn [truncate cond_Zopp].
  destruct (GoInt.inRange _); [left | right; reflexivity].
  destruct e as [| p | p].
  - unfold F2R in Hle. rewrite bpow_0, Rmult_1_r in Hle. now apply le_IZR.
  - rewrite Z.shiftl_mul_pow2 by lia. apply le_IZR.
    unfold F2R in Hle. rewrite bpow_IZR, <- mult_IZR in Hle by lia. exact Hle.
  - rewrite Z.shiftr_div_pow2 by lia. apply Z.div_le_lower_bound; [lia |].
    apply le_IZR. rewrite Z.mul_comm, mult_IZR, <- bpow_IZR by lia.
    unfold F2R in Hle. pose proof (bpow_gt_0 (Zpos p)).
    assert (Hinv : (bpow (Zneg p) * bpow (Zpos p) = 1)%R).
    { rewrite <- bpow_plus. replace (Zneg p + Zpos p) with 0 by lia. apply bpow_0. }
    apply Rmult_le_compat_r with (r := bpow (Zpos p)) in Hle; [| lra].
    rewrite Rmult_assoc, Hinv, Rmult_1_r in Hle. exact Hle.
Qed.

Lemma digits_mono (a b : positive) :
  (a <= b)%positive -> Zpos (digits2_pos a) <= Zpos (digits2_pos b).
Proof.
  intros Hab. pose proof (digits_lower a). pose proof (digits2_pos_bound b).
  assert (H1 : 2 ^ (Zpos (digits2_pos a) - 1) < 2 ^ Zpos (digits2_pos b)) by lia.
  apply Z.pow_lt_mono_r_iff in H1; lia.
Qed.

(** An integer with at most 24 significant bits converts exactly, to
    a normal number. *)
Lemma ofInt_exact (c : positive) k :
  Zpos (digits2_pos c) <= 24 -> 0 <= k <= 100 ->
  exists my ey,
    ofInt (Zpos c * 2 ^ k) = S754_finite false my ey /\
    canonical my ey /\ Zpos (digits2_pos my) = 24 /\
    F2R (Zpos my) ey = IZR (Zpos c * 2 ^ k) /\
    Zpos my = Zpos c * 2 ^ (24 - Zpos (digits2_pos c)) /\
    ey = k + Zpos (digits2_pos c) - 24.
Proof.
  intros Hc Hk. set (dc := Zpos (digits2_pos c)) in *.
  assert (Hmy : 0 < Zpos c * 2 ^ (24 - dc)) by (apply Z.mul_pos_pos; lia).
  assert (Hp : 0 < Zpos c * 2 ^ k) by (apply Z.mul_pos_pos; lia).
  destruct (Zpos c * 2 ^ (24 - dc)) as [| my | my] eqn:Emy; try lia.
  destruct (Zpos c * 2 ^ k) as [| p | p] eqn:Ep; try lia.
  exists my, (k + dc - 24).
  assert (Hd : Zpos (digits2_pos my) = 24).
  { change (Zpos (digits2_pos my)) with (Zdigits2 (Zpos my)).
    rewrite <- Emy, digits_shift by lia. fold dc. lia. }
  assert (Hcan : canonical my (k + dc - 24)).
  { unfold canonical. rewrite Hd, fexp32_eq. unfold dc in *. lia. }
  assert (Hval : F2R (Zpos my) (k + dc - 24) = IZR (Zpos p)).
  { rewrite <- Emy, <- Ep. rewrite F2R_shift by lia.
    replace (k + dc - 24 + (24 - dc)) with (0 + k) by lia.
    rewrite <- F2R_shift by lia. unfold F2R. rewrite bpow_0. ring. }
  split; [| repeat split; assumption || reflexivity].
  unfold ofInt. cbn [binary_normalize]. apply round_exact; [exact Hcan | unfold emax, prec; lia |].
  rewrite Hval. unfold F2R. rewrite bpow_0. ring.
Qed.

(** A positive [int] that comes out of a conversion has at most 24
    significant bits. *)
Lemma toInt_repr f :
  fits24 f -> 0 < toInt f ->
  exists (c : positive) k,
    toInt f = Zpos c * 2 ^ k /\ Zpos (digits2_pos c) <= 24 /\ 0 <= k <= 63.
Proof.
  intros Hf Hpos.
  destruct f as [s | s | | s m e];
    [exfalso; revert Hpos; now vm_compute ..|].
  unfold toInt in *. cbn [truncate fits24] in *.
  destruct (GoInt.inRange _) eqn:Hr; [| exfalso; revert Hpos; now vm_compute].
  apply inRange_spec in Hr. unfold GoInt.minInt, GoInt.maxInt in Hr.
  destruct s; cbn [cond_Zopp] in *.
  { exfalso. destruct e as [| p | p].
    - lia.
    - rewrite Z.shiftl_mul_pow2 in Hpos by lia.
      assert (0 < 2 ^ Zpos p) by (apply Z.pow_pos_nonneg; lia). nia.
    - rewrite Z.shiftr_div_pow2 in Hpos by lia.
      assert (0 <= Zpos m / 2 ^ Zpos p) by (apply Z.div_pos; lia). lia. }
  destruct e as [| p | p].
  - exists m, 0. rewrite Z.mul_1_r. unfold prec in Hf. repeat split; lia.
  - exists m, (Zpos p). rewrite Z.shiftl_mul_pow2 in * by lia.
    unfold prec in Hf. repeat split; try lia.
    destruct (Z.le_gt_cases (Zpos p) 63) as [Hle | Hgt]; [exact Hle | exfalso].
    assert (H64 : 2 ^ 64 <= 2 ^ Zpos p) by (apply Z.pow_le_mono_r; lia).
    assert (Hmp : 2 ^ Zpos p <= Zpos m * 2 ^ Zpos p) by nia.
    change (2 ^ 64) with 18446744073709551616 in H64.
    change (2 ^ 63 - 1) with 9223372036854775807 in Hr. lia.
  - rewrite Z.shiftr_div_pow2 in * by lia.
    destruct (Zpos m / 2 ^ Zpos p) as [| c | c] eqn:Ec; try lia.
    exists c, 0. rewrite Z.mul_1_r. repeat split; try lia.
    assert (Hcm : (c <= m)%positive).
    { assert (Zpos c <= Zpos m); [| lia]. rewrite <- Ec.
      apply Z.div_le_upper_bound; [lia |].
      assert (1 <= 2 ^ Zpos p) by (apply Z.pow_le_mono_r with (b := 0); lia). nia. }
    pose proof (digits_mono c m Hcm). unfold prec in Hf. lia.
Qed.

Lemma ltb_zero_negative x : ltb x zero = true -> ~ notNegative x.
Proof. destruct x as [[] | [] | | [] m e]; cbn; intros H; try discriminate; tauto. Qed.

Lemma mul_notNegative ma ea y :
  notNegative y -> notNegative (mul (S754_finite false ma ea) y).
Proof.
  destruct y as [s | [] | | [] m e]; cbn [notNegative]; intros Hy; try contradiction;
    try exact I.
  unfold mul, SFmul.
  pose proof (round_aux_cases (xorb false false) (Zpos (ma * m)) (ea + e) loc_Exact) as Hc.
  destruct (binary_round_aux _ _ _ _ _ _) as [s' | s' | | s' m' e']; cbn in Hc |- *;
    try exact I.
  - now subst s'.
  - destruct Hc as [-> _]. exact I.
Qed.

Lemma ofInt_notNegative n : 0 <= n -> notNegative (ofInt n).
Proof. intros Hn. now apply normalize_cases. Qed.

(** The replacement of the height, on an aspect ratio that is a
    positive finite number and on dimensions that are not negative:
    the new height is not below the old one, unless it does not fit
    an [int]. *)
Lemma height_replacement fw fh (a : float32) :
  fits24 fw -> fits24 fh ->
  ltb zero a = true -> isFinite a = true ->
  0 <= toInt fw -> 0 <= toInt fh ->
  ltb (mul a (ofInt (toInt fh))) (ofInt (toInt fw)) = true ->
  toInt fh <= toInt (add half (div (ofInt (toInt fw)) a)) \/
  toInt (add half (div (ofInt (toInt fw)) a)) = GoInt.minInt.
Proof.
  intros Hfw Hfh Ha Hfin Hw0 Hh0 Hlt.
  destruct a as [sa | sa | | sa ma ea]; try discriminate.
  destruct sa; [discriminate |].
  destruct (Z.eq_dec (toInt fw) 0) as [Hw | Hw].
  { (* a raster of width zero is never narrower than the height asks *)
    exfalso. rewrite Hw in Hlt. change (ofInt 0) with zero in Hlt.
    apply ltb_zero_negative in Hlt. apply Hlt, mul_notNegative, ofInt_notNegative, Hh0. }
  destruct (toInt_repr fw Hfw ltac:(lia)) as (cw & kw & Ew & Hcw & Hkw).
  destruct (ofInt_exact cw kw Hcw ltac:(lia)) as (mW & eW & EW & HcanW & HdW & HvW & _ & _).
  rewrite <- Ew in EW, HvW. rewrite EW in *.
  destruct (Z.eq_dec (toInt fh) 0) as [Hh | Hh].
  { (* a height of zero: the new height is not negative *)
    rewrite Hh. apply toInt_notNegative, add_half_notNegative, div_notNegative; reflexivity. }
  destruct (toInt_repr fh Hfh ltac:(lia)) as (ch & kh & Eh & Hch & Hkh).
  destruct (ofInt_exact ch kh Hch ltac:(lia)) as (mH & eH & EH & HcanH & HdH & HvH & _ & _).
  rewrite <- Eh in EH, HvH. rewrite EH in *.
  (* the test says that the exact product is below the width *)
  assert (Hprod : (F2R (Zpos ma) ea * F2R (Zpos mH) eH < F2R (Zpos mW) eW)%R).
  { destruct (Rlt_le_dec (F2R (Zpos ma) ea * F2R (Zpos mH) eH) (F2R (Zpos mW) eW))
      as [Hok | Hbad]; [exact Hok | exfalso].
    destruct (mul_ge ma ea mH eH mW eW HcanW Hbad) as [Hinf | (m' & e' & Hm & Hge)].
    - rewrite Hinf in Hlt. discriminate.
    - rewrite Hm in Hlt.
      pose proof (round_aux_cases (xorb false false) (Zpos (ma * mH)) (ea + eH) loc_Exact) as Hc.
      unfold mul, SFmul in Hm. rewrite Hm in Hc. destruct Hc as [_ Hd].
      pose proof (ltb_finite_lt m' e' mW eW Hd HdW Hlt). lra. }
  (* hence the exact quotient is above the height *)
  assert (Hquot : (F2R (Zpos mH) eH * F2R (Zpos ma) ea <= F2R (Zpos mW) eW)%R) by lra.
  destruct (div_ge mW eW ma ea mH eH HcanH Hquot) as [Hinf | (mq & eq & Hq & Hge)].
  - rewrite Hinf. right. reflexivity.
  - rewrite Hq.
    destruct (add_half_ge mq eq mH eH HcanH Hge) as [Hinf | (mr & er & Hr & Hge')].
    + rewrite Hinf. right. reflexivity.
    + rewrite Hr. apply toInt_ge. rewrite <- HvH. exact Hge'.
Qed.

(** Twice a number that is an integer of halves. *)
Lemma twice_spec (m : positive) e t q :
  0 <= q -> e = - q - 1 -> Zpos m = t * 2 ^ q ->
  twice (S754_finite false m e) = Some t.
Proof.
  intros Hq -> Hm. unfold twice. replace (- q - 1 + 1) with (- q) by lia.
  destruct q as [| q | q]; [| | lia].
  - change (- 0) with 0. cbv iota beta. cbn [cond_Zopp]. f_equal. lia.
  - change (- Zpos q) with (Zneg q). cbv iota beta. cbn [cond_Zopp].
    rewrite Z.land_ones by lia. rewrite Hm, Z.mod_mul by lia. cbn [Z.eqb].
    rewrite Z.shiftr_div_pow2 by lia. now rewrite Z.div_mul by lia.
Qed.

(** Below [2^23] the depth [0.5 + k] of a slice at a pitch of one is
    exact. *)
Lemma half_integer_depth k :
  0 <= k < 2 ^ 23 ->
  twice (add (add zero (mul half one)) (mul (ofInt k) one)) = Some (2 * k + 1).
Proof.
  intros Hk. change (add zero (mul half one)) with half.
  destruct k as [| c | c]; [reflexivity | | lia].
  assert (Hdc : Zpos (digits2_pos c) <= 23).
  { destruct (Z.le_gt_cases (Zpos (digits2_pos c)) 23) as [H | H]; [exact H |].
    pose proof (digits_lower c).
    assert (2 ^ 23 <= 2 ^ (Zpos (digits2_pos c) - 1)) by (apply Z.pow_le_mono_r; lia). lia. }
  destruct (ofInt_exact c 0 ltac:(lia) ltac:(lia))
    as (my & ey & Eof & Hcan & Hd & Hv & Hmy & Hey).
  rewrite Z.mul_1_r in Eof, Hv. rewrite Eof.
  (* times one *)
  assert (Hmul : mul (S754_finite false my ey) one = S754_finite false my ey).
  { unfold mul, SFmul, one. cbn [xorb].
    change (Zpos (my * 8388608)) with (Zpos my * 2 ^ 23).
    replace (ey + -23) with (ey - 23) by lia.
    apply round_aux_exact; [exact Hcan | unfold emax, prec; lia | lia]. }
  rewrite Hmul.
  (* plus one half *)
  destruct (ofInt_exact c~1 0 ltac:(cbn [digits2_pos]; lia) ltac:(lia))
    as (mr & er & _ & Hcanr & Hdr & Hvr & Hmr & Her).
  rewrite Z.mul_1_r in Hvr. cbn [digits2_pos] in Hmr, Her.
  rewrite Pos2Z.inj_succ in Hmr, Her.
  assert (Hadd : add half (S754_finite false my ey) = S754_finite false mr (er - 1)).
  { unfold add, SFadd, half. cbn [cond_Zopp].
    set (ez := Z.min (-24) ey).
    pose proof (shl_align_value 8388608 (-24) ez) as H1.
    pose proof (shl_align_value my ey ez) as H2.
    rewrite shl_align_exponent in H1, H2 by lia.
    change (Zpos (fst (shl_align 8388608 (-24) ez)) + Zpos (fst (shl_align my ey ez)))
      with (Zpos (fst (shl_align 8388608 (-24) ez) + fst (shl_align my ey ez))).
    cbn [binary_normalize]. apply round_exact.
    - unfold canonical in *. rewrite Hdr, fexp32_eq in *. lia.
    - unfold emax, prec. lia.
    - unfold F2R in *. rewrite Pos2Z.inj_add, plus_IZR, Rmult_plus_distr_r, H1, H2, Hv.
      replace (er - 1) with (er + -1) by lia. rewrite bpow_plus, <- Rmult_assoc, Hvr.
      rewrite Pos2Z.inj_xI, plus_IZR, mult_IZR.
      assert (H24 : bpow (-24) = (/ 16777216)%R).
      { unfold bpow. change (-24) with (- (24)). rewrite powerRZ_neg'.
        fold (bpow 24). now rewrite bpow_IZR by lia. }
      assert (H01 : bpow (-1) = (/ 2)%R).
      { unfold bpow. change (-1) with (- (1)). rewrite powerRZ_neg'.
        fold (bpow 1). now rewrite bpow_IZR by lia. }
      rewrite H24, H01. lra. }
  rewrite Hadd.
  apply twice_spec with (q := 24 - (Zpos (digits2_pos c) + 1) ); [lia | lia |].
  rewrite Hmr. unfold Z.succ. rewrite Pos2Z.inj_xI. reflexivity.
Qed.

End Float32Values.

(** ** Rounding to the nearest integer *)

Section Float32Rounding.

Import Float32.

Lemma bpow_neg p : (bpow (Zneg p) * IZR (2 ^ Zpos p) = 1)%R.
Proof.
  rewrite <- bpow_IZR by lia. rewrite <- bpow_plus.
  replace (Zneg p + Zpos p) with 0 by lia. apply bpow_0.
Qed.

(** The quotient of an integer by a power of two is the floor of the
    real quotient. *)
Lemma floor_div_R (a : Z) (p : positive) :
  (IZR (a / 2 ^ Zpos p) <= IZR a * bpow (Zneg p) < IZR (a / 2 ^ Zpos p) + 1)%R.
Proof.
  pose proof (Z.div_mod a (2 ^ Zpos p) ltac:(lia)) as Hdm.
  pose proof (Z.mod_pos_bound a (2 ^ Zpos p) ltac:(lia)) as Hb.
  pose proof (bpow_neg p) as Hinv. pose proof (bpow_gt_0 (Zneg p)) as Hpos.
  set (q := a / 2 ^ Zpos p) in *. set (r := a mod 2 ^ Zpos p) in *.
  assert (Ha : IZR a = (IZR (2 ^ Zpos p) * IZR q + IZR r)%R).
  { rewrite Hdm at 1. now rewrite plus_IZR, mult_IZR. }
  assert (Hr0 : (0 <= IZR r)%R) by (apply IZR_le; lia).
  assert (Hr1 : (IZR r < IZR (2 ^ Zpos p))%R) by (apply IZR_lt; lia).
  rewrite Ha.
  replace ((IZR (2 ^ Zpos p) * IZR q + IZR r) * bpow (Zneg p))%R
    with (IZR q * (bpow (Zneg p) * IZR (2 ^ Zpos p)) + IZR r * bpow (Zneg p))%R by ring.
  rewrite Hinv, Rmult_1_r.
  assert (H0 : (0 <= IZR r * bpow (Zneg p))%R) by (apply Rmult_le_pos; lra).
  assert (H1 : (IZR r * bpow (Zneg p) < 1)%R).
  { rewrite <- Hinv, (Rmult_comm (bpow (Zneg p))).
    apply Rmult_lt_compat_r; assumption. }
  split; lra.
Qed.

(** The conversion of a positive number below 2^63 is the floor of
    its value. *)
Lemma toInt_floor m e :
  (F2R (Zpos m) e < IZR (2 ^ 63))%R ->
  0 <= toInt (S754_finite false m e) /\
  (IZR (toInt (S754_finite false m e)) <= F2R (Zpos m) e
   < IZR (toInt (S754_finite false m e)) + 1)%R.
Proof.
  intros Hlt. unfold toInt. cbn [truncate cond_Zopp].
  set (t := match e with
            | 0 => Zpos m
            | Zpos _ => Z.shiftl (Zpos m) e
            | Zneg p => Z.shiftr (Zpos m) (Zpos p)
            end).
  assert (Ht : 0 <= t /\ (IZR t <= F2R (Zpos m) e < IZR t + 1)%R).
  { subst t. destruct e as [| p | p].
    - unfold F2R. rewrite bpow_0, Rmult_1_r. split; [lia | lra].
    - rewrite Z.shiftl_mul_pow2 by lia. unfold F2R.
      rewrite bpow_IZR, <- mult_IZR by lia. split; [lia | lra].
    - rewrite Z.shiftr_div_pow2 by lia. split; [apply Z.div_pos; lia |].
      apply floor_div_R. }
  destruct Ht as [H0 [Hl Hu]].
  assert (Hin : GoInt.inRange t = true).
  { apply inRange_spec. unfold GoInt.minInt, GoInt.maxInt.
    assert (t < 2 ^ 63); [| lia]. apply lt_IZR. lra. }
  rewrite Hin. split; [exact H0 | split; assumption].
Qed.

(** [round] of a positive number is the floor of its value plus one
    half. *)
Lemma round_floor m e :
  exists r, Spec.round (S754_finite false m e) = Some r /\
            (IZR r <= F2R (Zpos m) e + / 2 < IZR r + 1)%R.
Proof.
  unfold Spec.round. cbn [cond_Zopp]. eexists. split; [reflexivity |].
  destruct e as [| p | p].
  - unfold F2R. rewrite bpow_0, Rmult_1_r. lra.
  - unfold F2R. rewrite bpow_IZR, <- mult_IZR by lia. lra.
  - pose proof (floor_div_R (2 * Zpos m + 2 ^ Zpos p) (p + 1)) as H.
    change (Zpos (p + 1)) with (Zpos p + 1) in H.
    assert (Hv : (IZR (2 * Zpos m + 2 ^ Zpos p) * bpow (Zneg (p + 1))
                  = F2R (Zpos m) (Zneg p) + / 2)%R).
    { unfold F2R. replace (Zneg (p + 1)) with (Zneg p + (-1)) by lia.
      rewrite bpow_plus, plus_IZR, mult_IZR.
      pose proof (bpow_neg p) as Hinv. pose proof (bpow_neg 1) as Hh.
      change (IZR (2 ^ 1)) with 2%R in Hh. change (Zneg 1) with (-1) in Hh.
      replace ((2 * IZR (Zpos m) + IZR (2 ^ Zpos p)) * (bpow (Zneg p) * bpow (-1)))%R
        with (IZR (Zpos m) * bpow (Zneg p) * (bpow (-1) * 2)
              + bpow (Zneg p) * IZR (2 ^ Zpos p) * bpow (-1))%R by ring.
      rewrite Hinv, Hh. lra. }
    rewrite Hv in H. exact H.
Qed.


Lemma round_nearest_even_le m l : round_nearest_even m l <= m + 1.
Proof. destruct l as [| []]; cbn; try lia. destruct (Z.even m); lia. Qed.

(** The shift [shr_fexp] performs rounds the value down, to the
    exponent of the format or the one it was given. *)
Lemma shr_fexp_le (m : Z) e l :
  0 <= m ->
  0 <= shr_m (fst (shr_fexp prec emax m e l)) /\
  (F2R (shr_m (fst (shr_fexp prec emax m e l))) (snd (shr_fexp prec emax m e l))
   <= F2R m e)%R /\
  snd (shr_fexp prec emax m e l) = Z.max e (fexp32 (Zdigits2 m + e)).
Proof.
  intros Hm. unfold shr_fexp, shr.
  change (SpecFloat.fexp prec emax (Zdigits2 m + e)) with (fexp32 (Zdigits2 m + e)).
  destruct (fexp32 (Zdigits2 m + e) - e) as [| n | n] eqn:Hn;
    cbn [fst snd]; rewrite ?shr_m_of_loc.
  - split; [exact Hm |]. split; [lra | lia].
  - rewrite iter_shr_div by (rewrite shr_m_of_loc; exact Hm). rewrite shr_m_of_loc.
    split; [apply Z.div_pos; lia |]. split; [apply F2R_div_le; lia | lia].
  - split; [exact Hm |]. split; [lra | lia].
Qed.

Lemma bpow_1 : bpow 1 = 2%R.
Proof. rewrite (bpow_IZR 1) by lia. reflexivity. Qed.

Lemma bpow_m1 : bpow (-1) = (/ 2)%R.
Proof.
  pose proof (bpow_neg 1) as Hh.
  change (IZR (2 ^ 1)) with 2%R in Hh. change (Zneg 1) with (-1) in Hh. lra.
Qed.

Lemma F2R_succ m e : F2R (m + 1) e = (F2R m e + bpow e)%R.
Proof. unfold F2R. rewrite plus_IZR. ring. Qed.

(** Rounding exceeds the exact value by less than one unit of the
    exponent it shifts to. *)
Lemma round_aux_le (m : positive) e l :
  let ulp := bpow (Z.max e (fexp32 (Zpos (digits2_pos m) + e))) in
  match binary_round_aux prec emax false (Zpos m) e l with
  | S754_finite _ m' e' => (F2R (Zpos m') e' <= F2R (Zpos m) e + ulp)%R
  | S754_infinity _ => (bpow 105 <= F2R (Zpos m) e + ulp)%R
  | _ => True
  end.
Proof.
  cbn zeta. unfold binary_round_aux.
  destruct (shr_fexp_le (Zpos m) e l ltac:(lia)) as (H0 & H1 & He).
  cbn [Zdigits2] in He.
  destruct (shr_fexp prec emax (Zpos m) e l) as [mrs' e']. cbn [fst snd] in H0, H1, He.
  set (m1 := round_nearest_even (shr_m mrs') (loc_of_shr_record mrs')).
  assert (Hm1 : 0 <= m1) by (pose proof (round_nearest_even_ge (shr_m mrs')
                                          (loc_of_shr_record mrs')); lia).
  assert (Hb1 : (F2R m1 e' <= F2R (Zpos m) e + bpow e')%R).
  { eapply Rle_trans; [apply F2R_le, round_nearest_even_le |]. rewrite F2R_succ. lra. }
  destruct (shr_fexp_le m1 e' loc_Exact Hm1) as (H2 & H3 & _).
  destruct (shr_fexp prec emax m1 e' loc_Exact) as [mrs'' e'']. cbn [fst snd] in H2, H3.
  rewrite <- He.
  destruct (shr_m mrs'') as [| p2 | p2]; [exact I | | exact I].
  destruct (Z.leb_spec e'' (emax - prec)) as [Hle | Hgt].
  - lra.
  - assert (Hbig : (bpow 105 <= F2R (Zpos p2) e'')%R).
    { eapply Rle_trans; [apply (bpow_le 105 e''); unfold emax, prec in Hgt; lia |].
      unfold F2R. pose proof (bpow_gt_0 e'').
      assert (1 <= IZR (Zpos p2))%R by (apply IZR_le; lia). nra. }
    lra.
Qed.

Lemma shl_align_le (m : positive) e e' : snd (shl_align m e e') <= e.
Proof. unfold shl_align. destruct (e' - e) as [| d | d] eqn:Hd; cbn [snd]; lia. Qed.

(** Below 2^24, with an exponent that is not positive, [binary_round]
    exceeds the exact value by at most one, and it does not
    overflow. *)
Lemma round_le_one (m : positive) e :
  e <= 0 -> (F2R (Zpos m) e < bpow 24)%R ->
  match binary_round prec emax false m e with
  | S754_finite _ m' e' => (F2R (Zpos m') e' <= F2R (Zpos m) e + 1)%R
  | S754_infinity _ => False
  | _ => True
  end.
Proof.
  intros He Hlt. unfold binary_round.
  pose proof (shl_align_value m e (SpecFloat.fexp prec emax (Zpos (digits2_pos m) + e))) as Hv.
  pose proof (shl_align_le m e (SpecFloat.fexp prec emax (Zpos (digits2_pos m) + e))) as Hez.
  destruct (shl_align m e _) as [mz ez]. cbn [fst snd] in Hv, Hez.
  pose proof (round_aux_le mz ez loc_Exact) as Hr. cbn zeta in Hr.
  assert (Hulp : (bpow (Z.max ez (fexp32 (Zpos (digits2_pos mz) + ez))) <= 1)%R).
  { rewrite <- bpow_0. apply bpow_le.
    pose proof (F2R_pos_bounds mz ez) as [Hl _]. rewrite Hv in Hl.
    assert (Hd : (bpow (Zpos (digits2_pos mz) - 1 + ez) < bpow 24)%R) by lra.
    apply bpow_lt_inv in Hd. rewrite fexp32_eq. lia. }
  rewrite Hv in Hr.
  destruct (binary_round_aux prec emax false (Zpos mz) ez loc_Exact) as [s | s | | s m' e'];
    try exact I.
  - pose proof (bpow_lt 25 105 ltac:(lia)) as H25.
    assert (H24 : (bpow 24 + 1 <= bpow 25)%R).
    { replace 25 with (24 + 1) by lia. rewrite bpow_plus.
      pose proof (bpow_le 0 24 ltac:(lia)) as H0. rewrite bpow_0 in H0.
      rewrite bpow_1. lra. }
    lra.
  - lra.
Qed.

(** The sum of one half and a positive number is the rounding of the
    exact sum. *)
Lemma add_half_round mq eq :
  exists ms es,
    add half (S754_finite false mq eq) = binary_round prec emax false ms es /\
    F2R (Zpos ms) es = (/ 2 + F2R (Zpos mq) eq)%R /\
    es <= 0.
Proof.
  unfold add, SFadd, half. cbn [cond_Zopp].
  set (ez := Z.min (-24) eq).
  pose proof (shl_align_value 8388608 (-24) ez) as H1.
  pose proof (shl_align_value mq eq ez) as H2.
  rewrite shl_align_exponent in H1, H2 by lia.
  change (Zpos (fst (shl_align 8388608 (-24) ez)) + Zpos (fst (shl_align mq eq ez)))
    with (Zpos (fst (shl_align 8388608 (-24) ez) + fst (shl_align mq eq ez))).
  cbn [binary_normalize]. eexists _, ez. split; [reflexivity |]. split; [| lia].
  assert (Hh : F2R 8388608 (-24) = (/ 2)%R).
  { unfold F2R. pose proof (bpow_neg 24) as Hinv.
    change (IZR (2 ^ 24)) with 16777216%R in Hinv. change (Zneg 24) with (-24) in Hinv.
    lra. }
  unfold F2R in *. rewrite Pos2Z.inj_add, plus_IZR. lra.
Qed.

(** What the sum of one half and a positive number below 2^23 is:
    a positive number, at most one above the exact sum, and above
    every canonical number that the exact sum is above. *)
Lemma add_half_bounds mq eq :
  (F2R (Zpos mq) eq < bpow 23)%R ->
  exists m' e',
    add half (S754_finite false mq eq) = S754_finite false m' e' /\
    (F2R (Zpos m') e' <= / 2 + F2R (Zpos mq) eq + 1)%R /\
    (forall (my : positive) ey,
        canonical my ey -> (F2R (Zpos my) ey <= / 2 + F2R (Zpos mq) eq)%R ->
        (F2R (Zpos my) ey <= F2R (Zpos m') e')%R).
Proof.
  intros Hq. destruct (add_half_round mq eq) as (ms & es & Hadd & Hv & Hes).
  pose proof (F2R_pos_gt_0 mq eq) as Hpos.
  assert (Hlt : (F2R (Zpos ms) es < bpow 24)%R).
  { rewrite Hv. replace 24 with (23 + 1) by lia. rewrite bpow_plus.
    rewrite bpow_1.
    pose proof (bpow_le 0 23 ltac:(lia)) as H0. rewrite bpow_0 in H0. lra. }
  pose proof (round_le_one ms es Hes Hlt) as Hle.
  assert (Hhalf : canonical 8388608 (-24)) by reflexivity.
  assert (Hh : F2R 8388608 (-24) = (/ 2)%R).
  { unfold F2R. pose proof (bpow_neg 24) as Hinv.
    change (IZR (2 ^ 24)) with 16777216%R in Hinv. change (Zneg 24) with (-24) in Hinv.
    lra. }
  destruct (round_ge ms es 8388608 (-24) Hhalf ltac:(rewrite Hv, Hh; lra))
    as [Hinf | (m' & e' & Hfin & _)].
  - rewrite Hinf in Hle. contradiction.
  - rewrite Hfin in Hle. exists m', e'. rewrite Hadd. split; [exact Hfin |].
    split; [rewrite <- Hv; exact Hle |].
    intros my ey Hy Hyle.
    destruct (round_ge ms es my ey Hy ltac:(rewrite Hv; exact Hyle))
      as [Hinf | (m'' & e'' & Hfin' & Hge)]; [congruence |].
    rewrite Hfin in Hfin'. injection Hfin' as <- <-. exact Hge.
Qed.

(** The sum is exact when the exact sum is a number of the format. *)
Lemma add_half_exact mq eq (my : positive) ey :
  canonical my ey -> ey <= emax - prec ->
  F2R (Zpos my) ey = (/ 2 + F2R (Zpos mq) eq)%R ->
  add half (S754_finite false mq eq) = S754_finite false my ey.
Proof.
  intros Hy Hmax Hv. destruct (add_half_round mq eq) as (ms & es & Hadd & Hs & _).
  rewrite Hadd. apply round_exact; [exact Hy | exact Hmax | now rewrite Hs].
Qed.

(** The value of a number that is a multiple of one half. *)
Lemma twice_value m e t :
  twice (S754_finite false m e) = Some t -> (F2R (Zpos m) e = IZR t * / 2)%R.
Proof.
  unfold twice. cbn [cond_Zopp].
  pose proof bpow_m1 as Hh.
  destruct (e + 1) as [| p | p] eqn:He.
  - intros [= <-]. replace e with (-1) by lia. unfold F2R. rewrite Hh. reflexivity.
  - intros [= <-]. rewrite Z.shiftl_mul_pow2 by lia.
    replace e with (Zpos p + (-1)) by lia. unfold F2R.
    rewrite bpow_plus, mult_IZR, <- bpow_IZR by lia. rewrite Hh. ring.
  - destruct (Z.eqb_spec (Z.land (Zpos m) (Z.ones (Zpos p))) 0) as [Hz | Hz];
      [| discriminate].
    intros [= <-]. rewrite Z.shiftr_div_pow2 by lia.
    rewrite Z.land_ones in Hz by lia.
    pose proof (Z.div_mod (Zpos m) (2 ^ Zpos p) ltac:(lia)) as Hdm. rewrite Hz in Hdm.
    replace e with (Zneg p + (-1)) by lia. unfold F2R. rewrite bpow_plus.
    rewrite Hdm at 1. rewrite Z.add_0_r, mult_IZR.
    pose proof (bpow_neg p) as Hinv.
    replace (IZR (2 ^ Zpos p) * IZR (Zpos m / 2 ^ Zpos p) * (bpow (Zneg p) * bpow (-1)))%R
      with (IZR (Zpos m / 2 ^ Zpos p) * (bpow (Zneg p) * IZR (2 ^ Zpos p)) * bpow (-1))%R
      by ring.
    rewrite Hinv, Hh. ring.
Qed.


(** A half-integer below 2^23 plus one half is a number of the
    format. *)
Lemma half_integer_canonical (T : Z) :
  2 <= T <= 2 ^ 24 ->
  exists my ey, canonical my ey /\ ey <= emax - prec /\
                F2R (Zpos my) ey = (IZR T * / 2)%R.
Proof.
  intros HT.
  assert (Hck : exists (c : positive) k,
             T = Zpos c * 2 ^ k /\ Zpos (digits2_pos c) <= 24 /\ 0 <= k <= 24).
  { destruct (Z.eq_dec T (2 ^ 24)) as [-> | Hne].
    - exists 1%positive, 24. split; [reflexivity |]. cbn. lia.
    - destruct T as [| c | c]; try lia. exists c, 0. rewrite Z.mul_1_r.
      split; [reflexivity |]. split; [| lia].
      destruct (Z.le_gt_cases (Zpos (digits2_pos c)) 24) as [Hle | Hgt]; [exact Hle |].
      pose proof (digits_lower c) as Hl.
      assert (2 ^ 24 <= 2 ^ (Zpos (digits2_pos c) - 1))
        by (apply Z.pow_le_mono_r; lia). lia. }
  destruct Hck as (c & k & -> & Hc & Hk).
  destruct (ofInt_exact c k Hc ltac:(lia)) as (my & ey & _ & Hcan & Hd & Hv & _ & Hey).
  exists my, (ey - 1). split; [| split].
  - unfold canonical in *. rewrite fexp32_eq in *. rewrite Hd in *.
    pose proof (Pos2Z.is_pos (digits2_pos c)). lia.
  - unfold emax, prec. lia.
  - rewrite <- Hv. unfold F2R. replace (ey - 1) with (ey + (-1)) by lia.
    rewrite bpow_plus, bpow_m1. ring.
Qed.

(** The count [int(0.5 + q)] against the nearest integer of [q], for
    a quotient [0 <= q < 2^23]: the count is [round q] or one above,
    and it is [round q] when [q] is a multiple of one half. *)
Lemma count_vs_round (q : float32) :
  fits24 q -> notNegative q -> ltb q (S754_finite false 8388608 0) = true ->
  exists r, Spec.round q = Some r /\
            r <= toInt (add half q) <= r + 1 /\
            (forall t, twice q = Some t -> toInt (add half q) = r).
Proof.
  intros Hfit Hnn Hlt.
  destruct q as [s | s | | s mq eq].
  - exists 0. split; [reflexivity |]. destruct s; vm_compute; repeat split; congruence.
  - destruct s; [contradiction | discriminate].
  - discriminate.
  - destruct s; [contradiction |]. cbn [fits24] in Hfit. unfold prec in Hfit.
    apply ltb_finite_lt in Hlt; [| exact Hfit | reflexivity].
    assert (H23 : F2R 8388608 0 = bpow 23).
    { unfold F2R. rewrite bpow_0, Rmult_1_r. rewrite (bpow_IZR 23) by lia. reflexivity. }
    rewrite H23 in Hlt.
    assert (H23' : bpow 23 = 8388608%R) by (rewrite (bpow_IZR 23) by lia; reflexivity).
    pose proof (F2R_pos_gt_0 mq eq) as Hpos.
    destruct (round_floor mq eq) as (r & Hr & Hr1 & Hr2).
    destruct (add_half_bounds mq eq Hlt) as (m' & e' & Hadd & Hup & Hlow).
    assert (H63 : (F2R (Zpos m') e' < IZR (2 ^ 63))%R).
    { change (2 ^ 63) with 9223372036854775808. lra. }
    destruct (toInt_floor m' e' H63) as (Hn0 & Hn1 & Hn2).
    exists r. split; [exact Hr |]. rewrite Hadd.
    set (n := toInt (S754_finite false m' e')) in *.
    split; [split |].
    + (* the nearest integer is a number of the format, so the sum is
         not below it *)
      destruct (Z_le_gt_dec r 0) as [Hr0 | Hr0]; [lia |].
      assert (Hr23 : r <= 2 ^ 23).
      { assert (r < 2 ^ 23 + 1); [| lia]. apply lt_IZR. rewrite plus_IZR.
        change (2 ^ 23) with 8388608. lra. }
      destruct r as [| c | c]; try lia.
      assert (Hc : Zpos (digits2_pos c) <= 24).
      { destruct (Z.le_gt_cases (Zpos (digits2_pos c)) 24) as [Hle | Hgt]; [exact Hle |].
        pose proof (digits_lower c) as Hl.
        assert (2 ^ 24 <= 2 ^ (Zpos (digits2_pos c) - 1))
          by (apply Z.pow_le_mono_r; lia).
        change (2 ^ 23) with 8388608 in Hr23. change (2 ^ 24) with 16777216 in *. lia. }
      destruct (ofInt_exact c 0 Hc ltac:(lia)) as (my & ey & _ & Hcan & _ & Hv & _ & _).
      rewrite Z.mul_1_r in Hv.
      pose proof (Hlow my ey Hcan ltac:(rewrite Hv; lra)) as Hge. rewrite Hv in Hge.
      assert (Zpos c < n + 1); [| lia]. apply lt_IZR. rewrite plus_IZR. lra.
    + assert (n < r + 2); [| lia]. apply lt_IZR. rewrite plus_IZR. lra.
    + intros t Ht. apply twice_value in Ht.
      assert (HT : 2 <= t + 1 <= 2 ^ 24).
      { split.
        - assert (0 < t); [| lia]. apply lt_IZR. lra.
        - assert (t < 2 ^ 24); [| lia]. apply lt_IZR.
          change (2 ^ 24) with 16777216. lra. }
      destruct (half_integer_canonical (t + 1) HT) as (my & ey & Hcan & Hmax & Hv).
      rewrite plus_IZR in Hv.
      pose proof (add_half_exact mq eq my ey Hcan Hmax ltac:(rewrite Hv; lra)) as Hex.
      rewrite Hadd in Hex. injection Hex as -> ->.
      assert (Hs : F2R (Zpos my) ey = (F2R (Zpos mq) eq + / 2)%R) by (rewrite Hv; lra).
      rewrite Hs in Hn1, Hn2.
      assert (n < r + 1) by (apply lt_IZR; rewrite plus_IZR; lra).
      assert (r < n + 1) by (apply lt_IZR; rewrite plus_IZR; lra).
      lia.
Qed.

End Float32Rounding.

(** ** Slice counts *)

Section SliceCounts.

Import Irmf.

Lemma sliceCount_fits lo hi d : Float32.fits24 (Float32.add Float32.half
                                          (Float32.div (Float32.sub hi lo) d)).
Proof. apply add_half_fits24, div_fits24. Qed.

Lemma sliceCount_bounds lo hi d :
  GoInt.minInt <= sliceCount lo hi d <= GoInt.maxInt.
Proof. apply toInt_bounds. Qed.

Lemma odd_count_small lo hi d :
  Z.odd (sliceCount lo hi d) = true -> - 2 ^ 24 < sliceCount lo hi d < 2 ^ 24.
Proof. apply toInt_odd_small, sliceCount_fits. Qed.

Lemma count_below_max lo hi d : sliceCount lo hi d < GoInt.maxInt.
Proof.
  pose proof (sliceCount_bounds lo hi d) as Hb.
  destruct (Z.odd (sliceCount lo hi d)) eqn:Hodd.
  - pose proof (odd_count_small lo hi d Hodd). unfold GoInt.maxInt. lia.
  - assert (sliceCount lo hi d <> GoInt.maxInt); [| lia].
    intros Heq. rewrite Heq in Hodd. vm_compute in Hodd. discriminate.
Qed.

(** The parity step on a count [n], decided by the count [k]: the
    test [k%2 == 1] holds for the odd counts above zero only. *)
Lemma parity_step k n :
  GoInt.minInt <= n < GoInt.maxInt ->
  (if GoInt.rem k 2 =? 1 then GoInt.incr n else n)
  = (if (0 <? k) && Z.odd k then n + 1 else n).
Proof.
  intros Hn. rewrite rem2_positive_odd. destruct ((0 <? k) && Z.odd k); [| reflexivity].
  unfold GoInt.incr, GoInt.add. apply wrap_inRange.
  unfold GoInt.minInt, GoInt.maxInt in *. lia.
Qed.

Lemma count_range lo hi d : GoInt.minInt <= sliceCount lo hi d < GoInt.maxInt.
Proof.
  pose proof (sliceCount_bounds lo hi d). pose proof (count_below_max lo hi d). lia.
Qed.

(** C2, amended. For every loaded model, with [q] the quotient of
    extent and pitch along an axis and [n = int(0.5 + q)] the count
    along it, every operation in [float32] and the conversion
    truncating: [NumZSlices] returns the Z count with no parity
    adjustment; [NumXSlices] returns the X count, incremented by one
    exactly when it is odd and above zero; [NumYSlices] returns the Y
    count, incremented by one exactly when the X count is odd and
    above zero, whatever the parity of the Y count.  For a quotient
    [0 <= q < 2^23] the count is the nearest integer round(q) or one
    above it, and it is round(q) when [q] is a multiple of one
    half. *)
Theorem slice_counts_parity_and_rounding (s : Slicer) (m : IRMF) :
  irmf s = Some m ->
  let qx := Float32.div (Float32.sub (v0 (Max m)) (v0 (Min m))) (deltaX s) in
  let qy := Float32.div (Float32.sub (v1 (Max m)) (v1 (Min m))) (deltaY s) in
  let qz := Float32.div (Float32.sub (v2 (Max m)) (v2 (Min m))) (deltaZ s) in
  let nx := Float32.toInt (Float32.add Float32.half qx) in
  let ny := Float32.toInt (Float32.add Float32.half qy) in
  let nz := Float32.toInt (Float32.add Float32.half qz) in
  let near (q : float32) (n : Z) :=
    Float32.notNegative q ->
    Float32.ltb q (Float32.ofInt 8388608) = true ->
    exists r, Spec.round q = Some r /\ r <= n <= r + 1 /\
              (forall t, Float32.twice q = Some t -> n = r) in
  (NumZSlices s = Done nz /\
   NumXSlices s = Done (if (0 <? nx) && Z.odd nx then nx + 1 else nx) /\
   NumYSlices s = Done (if (0 <? nx) && Z.odd nx then ny + 1 else ny)) /\
  near qx nx /\ near qy ny /\ near qz nz.
Proof.
  intros Hm qx qy qz nx ny nz near.
  assert (Hnear : forall lo hi d,
             near (Float32.div (Float32.sub hi lo) d)
                  (Float32.toInt (Float32.add Float32.half
                                    (Float32.div (Float32.sub hi lo) d)))).
  { intros lo hi d Hnn Hlt. apply count_vs_round; [apply div_fits24 | exact Hnn | exact Hlt]. }
  split; [split; [| split] | split; [| split]]; try apply Hnear.
  - unfold NumZSlices. rewrite Hm. reflexivity.
  - unfold NumXSlices. rewrite Hm. cbv zeta. f_equal.
    apply parity_step, count_range.
  - unfold NumYSlices. rewrite Hm. cbv zeta. f_equal.
    apply parity_step, count_range.
Qed.

Lemma slice_counts_parity_and_rounding_witness :
  NumZSlices Doubles.solidSlicer = Done 3 /\
  NumXSlices Doubles.solidSlicer = Done 4 /\
  NumYSlices Doubles.solidSlicer = Done 4 /\
  Spec.round (Float32.ofInt 3) = Some 3.
Proof.
  destruct (slice_counts_parity_and_rounding Doubles.solidSlicer Doubles.solidBox eq_refl)
    as [(Hz & Hx & Hy) (Hqx & _ & _)].
  split; [exact Hz |]. split; [exact Hx |]. split; [exact Hy |].
  destruct (Hqx I eq_refl) as (r & Hr & _ & Hex).
  rewrite <- (Hex 6 eq_refl) in Hr. exact Hr.
Defined.

(** C2, as stated, fails on three boxes at a pitch of one millimetre.
    A box of 8388609 millimetres along Z has 8388610 slices along Z,
    the nearest integer of the quotient being 8388609; a box of
    0.49999997 millimetres along Z has one slice, the nearest integer
    being 0; and a box whose extent along X is -3.5 millimetres has
    the odd count -3 along X, which is returned as it is.  On each of
    them the differences and the quotients are exact. *)
Lemma slice_counts_are_not_rounded :
  (Spec.roundedCounts (Doubles.tallSlicer 8388609) = Some (4, 4, 8388609) /\
   NumZSlices (Doubles.tallSlicer 8388609) = Done 8388610) /\
  (Spec.roundedCounts (Doubles.boxSlicer Doubles.flatBox) = Some (4, 4, 0) /\
   NumZSlices (Doubles.boxSlicer Doubles.flatBox) = Done 1) /\
  (Spec.roundedCounts (Doubles.boxSlicer Doubles.backwardBox) = Some (-4, 3, 3) /\
   NumXSlices (Doubles.boxSlicer Doubles.backwardBox) = Done (-3) /\
   NumYSlices (Doubles.boxSlicer Doubles.backwardBox) = Done 3).
Proof. repeat split; vm_compute; reflexivity. Qed.

(** C1, as stated, fails: the solid box does not have three slices on
    every axis. *)
Lemma solid_box_counts_differ :
  ~ (NumXSlices Doubles.solidSlicer = Done 3 /\
     NumYSlices Doubles.solidSlicer = Done 3 /\
     NumZSlices Doubles.solidSlicer = Done 3).
Proof. intros [H _]. vm_compute in H. discriminate. Qed.

End SliceCounts.

(** ** The sweeps *)

Section SweepFacts.

Import Irmf Trace.

Context {World : Type} `{!Backend World} {P : Type}.

Variables (s : Slicer) (axis : Axis) (materialNum : Z) (sp : SliceProcessor P).
Variables (depthOf : Z -> float32) (voxelRadius : float32).

(** With a backend installed, the loop adds events of the shape
    [sweepRun] to the trace and touches nothing else of it. *)
Lemma sliceLoop_run r todo :
  renderer s = Some r ->
  forall n st,
    exists evs,
      trace (fst (fst (sliceLoop s axis materialNum sp depthOf voxelRadius todo n st)))
        = trace (fst st) ++ evs /\
      sweepRun r axis materialNum depthOf voxelRadius n todo evs
        (snd (sliceLoop s axis materialNum sp depthOf voxelRadius todo n st)).
Proof.
  intros Hr. induction todo as [| todo IH]; intros n [env p]; cbn [sliceLoop].
  - exists []. split; [cbn; now rewrite app_nil_r | constructor].
  - unfold renderSlice. rewrite Hr. cbn [fst snd].
    destruct (backendRender r (depthOf n) materialNum (world env)) as [w [img | err]].
    + unfold callProcess. cbn [fst snd].
      destruct (sp n (depthOf n) voxelRadius img p) as [p' [err |]].
      * eexists. split; [cbn; rewrite <- app_assoc; reflexivity | constructor].
      * match goal with
        | |- context [sliceLoop _ _ _ _ _ _ todo (n + 1) ?st'] =>
            destruct (IH (n + 1) st') as [evs [Htr Hrun]]
        end.
        eexists. split.
        -- rewrite Htr. cbn. rewrite <- !app_assoc. reflexivity.
        -- constructor. exact Hrun.
    + eexists. split; [cbn; reflexivity | constructor].
Qed.

(** Without a backend the first slice fails, and nothing is called. *)
Lemma sliceLoop_no_backend todo n st :
  renderer s = None ->
  sliceLoop s axis materialNum sp depthOf voxelRadius (S todo) n st
    = (st, Failed (ErrRenderSlice axis (depthOf n) materialNum errNotInitialized)).
Proof.
  intros Hr. cbn [sliceLoop]. unfold renderSlice. rewrite Hr. now destruct st.
Qed.

End SweepFacts.

Section SweepShape.

Import Irmf Trace.

Variables (r : RendererRef) (axis : Axis) (materialNum : Z).
Variables (depthOf : Z -> float32) (voxelRadius : float32).

Let processCallOf (i : Z) : Z * float32 * float32 := (i, depthOf i, voxelRadius).
Let renderCallOf (i : Z) : float32 * Z := (depthOf i, materialNum).

Lemma seqZ_step n (k : nat) :
  seqZ n (Z.of_nat (S k)) = n :: seqZ (n + 1) (Z.of_nat k).
Proof.
  rewrite seqZ_cons by lia. f_equal. f_equal; lia.
Qed.

(** A sweep that ends well has rendered and processed every index. *)
Lemma sweepRun_done n todo evs :
  sweepRun r axis materialNum depthOf voxelRadius n todo evs (Done tt) ->
  processed evs = map processCallOf (seqZ n (Z.of_nat todo)) /\
  rendered evs = map renderCallOf (seqZ n (Z.of_nat todo)) /\
  Forall (fun res => exists img, res = inl img) (Spec.renderResults evs).
Proof.
  intros H. remember (Done tt) as out eqn:Hout.
  induction H as [n | n todo err | n todo img err | n todo img evs out H IH];
    try discriminate.
  - cbn. repeat split. constructor.
  - destruct (IH Hout) as [Hp [Hr Hf]]. rewrite seqZ_step.
    cbn. rewrite <- Hp, <- Hr. repeat split. constructor; [eauto | exact Hf].
Qed.

(** A sweep never panics once the model is loaded. *)
Lemma sweepRun_returns n todo evs out :
  sweepRun r axis materialNum depthOf voxelRadius n todo evs out -> out <> Panicked.
Proof. induction 1; congruence. Qed.

(** A sweep in which the [Render] call of the [j]-th slice from [n]
    fails. *)
Lemma sweepRun_render_failure n todo evs out (j : nat) cause :
  sweepRun r axis materialNum depthOf voxelRadius n todo evs out ->
  Spec.renderResults evs !! j = Some (inr cause) ->
  out = Failed (ErrRenderSlice axis (depthOf (n + Z.of_nat j)) materialNum cause) /\
  processed evs = map processCallOf (seqZ n (Z.of_nat j)) /\
  rendered evs = map renderCallOf (seqZ n (Z.of_nat (S j))) /\
  (j < todo)%nat.
Proof.
  intros H. revert j.
  induction H as [n | n todo err | n todo img err | n todo img evs out H IH];
    intros j Hj.
  - discriminate.
  - destruct j as [| j]; [| discriminate]. cbn in Hj. injection Hj as ->.
    change (Z.of_nat 0) with 0. rewrite Z.add_0_r.
    repeat split; try reflexivity; lia.
  - destruct j as [| [| j]]; discriminate.
  - destruct j as [| j]; [discriminate |]. cbn in Hj.
    destruct (IH j Hj) as [Ho [Hp [Hr Hlt]]].
    replace (n + Z.of_nat (S j)) with (n + 1 + Z.of_nat j) by lia.
    rewrite (seqZ_step n j), (seqZ_step n (S j)). cbn.
    rewrite <- Hp, <- Hr. repeat split; try reflexivity; [exact Ho | lia].
Qed.

Lemma processed_index_bound n todo evs out k d vr img res :
  sweepRun r axis materialNum depthOf voxelRadius n todo evs out ->
  In (EvProcess k d vr img res) evs -> n <= k < n + Z.of_nat todo.
Proof.
  intros H. induction H as [n | n todo err | n todo img' err | n todo img' evs out H IH];
    cbn; intros Hin.
  - contradiction.
  - destruct Hin as [Heq | []]. discriminate.
  - destruct Hin as [Heq | [Heq | []]]; [discriminate |]. injection Heq as <-. lia.
  - destruct Hin as [Heq | [Heq | Hin]]; [discriminate | |].
    + injection Heq as <-. lia.
    + specialize (IH Hin). lia.
Qed.

(** A sweep in which the [Process] call of slice [k] fails. *)
Lemma sweepRun_process_failure n todo evs out k cause :
  sweepRun r axis materialNum depthOf voxelRadius n todo evs out ->
  Spec.processFailedAt k cause evs ->
  out = Failed (ErrProcessSlice k (depthOf k) voxelRadius cause) /\
  processed evs = map processCallOf (seqZ n (k - n + 1)) /\
  rendered evs = map renderCallOf (seqZ n (k - n + 1)) /\
  n <= k < n + Z.of_nat todo.
Proof.
  intros H (d & vr & img & Hin).
  induction H as [n | n todo err | n todo img' err | n todo img' evs out H IH];
    cbn in Hin.
  - contradiction.
  - destruct Hin as [Heq | []]. discriminate.
  - destruct Hin as [Heq | [Heq | []]]; [discriminate |].
    injection Heq as <- _ _ _ <-.
    replace (n - n + 1) with (Z.of_nat 1) by lia. rewrite seqZ_step.
    repeat split; try reflexivity; lia.
  - destruct Hin as [Heq | [Heq | Hin]]; [discriminate | discriminate |].
    destruct (IH Hin) as [Ho [Hp [Hr Hb]]].
    replace (k - n + 1) with (Z.of_nat (S (Z.to_nat (k - (n + 1) + 1)))) by lia.
    rewrite seqZ_step. rewrite Z2Nat.id by lia. cbn.
    rewrite <- Hp, <- Hr. repeat split; try reflexivity; try lia. exact Ho.
Qed.

End SweepShape.

Section Sweeps.

Import Irmf Trace.

Context {World : Type} `{!Backend World} {P : Type}.

Lemma seqZ_to_nat a n : seqZ a (Z.of_nat (Z.to_nat n)) = seqZ a n.
Proof. unfold seqZ. now rewrite Nat2Z.id. Qed.

(** A sweep along [axis] is the shared body at the bounds and the
    pitch of that axis. *)
Lemma RenderSlices_body axis (s : Slicer) m materialNum (sp : SliceProcessor P)
    order (st : Env World * P) :
  irmf s = Some m ->
  RenderSlices axis s materialNum sp order st
    = renderSlices axis (lo axis m) (hi axis m) (delta axis s) s materialNum sp order st.
Proof.
  intros Hm. destruct axis; cbn [RenderSlices lo hi delta];
    unfold RenderXSlices, RenderYSlices, RenderZSlices; now rewrite Hm.
Qed.

(** The events of a sweep, whatever its end. *)
Lemma sweep_events axis (s : Slicer) m materialNum (sp : SliceProcessor P)
    order (st : Env World * P) :
  irmf s = Some m ->
  let numSlices := sliceCount (lo axis m) (hi axis m) (delta axis s) in
  let voxelRadius := Float32.mul Float32.half (delta axis s) in
  let depthOf := depthFunc order numSlices (Float32.add (lo axis m) voxelRadius)
                   (delta axis s) in
  let run := RenderSlices axis s materialNum sp order st in
  exists evs,
    trace (fst (fst run)) = trace (fst st) ++ evs /\
    match renderer s with
    | Some r =>
        sweepRun r axis materialNum depthOf voxelRadius 0 (Z.to_nat numSlices) evs (snd run)
    | None =>
        evs = [] /\
        snd run = if 0 <? numSlices
                  then Failed (ErrRenderSlice axis (depthOf 0) materialNum errNotInitialized)
                  else Done tt
    end.
Proof.
  intros Hm numSlices voxelRadius depthOf run. subst run.
  rewrite (RenderSlices_body axis s m) by exact Hm. unfold renderSlices.
  fold numSlices voxelRadius depthOf.
  destruct (renderer s) as [r |] eqn:Hr.
  - apply sliceLoop_run. exact Hr.
  - exists []. rewrite app_nil_r.
    destruct (Z.ltb_spec 0 numSlices) as [Hpos | Hneg].
    + destruct (Z.to_nat numSlices) as [| todo] eqn:Hn; [lia |].
      rewrite sliceLoop_no_backend by exact Hr. now destruct st.
    + replace (Z.to_nat numSlices) with O by lia. cbn. now destruct st.
Qed.

(** C3, amended. A sweep over a loaded model that meets no error calls
    [Render] and then the processor once per slice index
    n = 0, 1, ..., numSlices-1, in that order, where numSlices is
    [int(0.5 + extent/delta)] of the swept axis, without parity
    adjustment. That is the count [NumZSlices] reports; [NumXSlices]
    and [NumYSlices] report one more than the rasters
    [RenderXSlices] and [RenderYSlices] emit whenever the X count is
    odd (and positive). *)
Theorem sweep_visits_each_slice axis (s : Slicer) (m : IRMF) (materialNum : Z)
    (sp : SliceProcessor P) (order : Order) (st : Env World * P) :
  irmf s = Some m ->
  snd (RenderSlices axis s materialNum sp order st) = Done tt ->
  let numSlices := sliceCount (lo axis m) (hi axis m) (delta axis s) in
  let voxelRadius := Float32.mul Float32.half (delta axis s) in
  let depthOf := depthFunc order numSlices (Float32.add (lo axis m) voxelRadius)
                   (delta axis s) in
  let nx := sliceCount (lo AxisX m) (hi AxisX m) (delta AxisX s) in
  let ny := sliceCount (lo AxisY m) (hi AxisY m) (delta AxisY s) in
  let nz := sliceCount (lo AxisZ m) (hi AxisZ m) (delta AxisZ s) in
  (exists evs,
     trace (fst (fst (RenderSlices axis s materialNum sp order st)))
       = trace (fst st) ++ evs /\
     processed evs = map (fun n => (n, depthOf n, voxelRadius)) (seqZ 0 numSlices) /\
     rendered evs = map (fun n => (depthOf n, materialNum)) (seqZ 0 numSlices)) /\
  NumSlices AxisZ s = Done nz /\
  NumSlices AxisX s = Done (if (0 <? nx) && Z.odd nx then nx + 1 else nx) /\
  NumSlices AxisY s = Done (if (0 <? nx) && Z.odd nx then ny + 1 else ny).
Proof.
  intros Hm Hdone numSlices voxelRadius depthOf nx ny nz.
  split; [| split; [| split]].
  - destruct (sweep_events axis s m materialNum sp order st Hm) as [evs [Htr Hshape]].
    fold numSlices voxelRadius depthOf in Hshape.
    exists evs. split; [exact Htr |].
    destruct (renderer s) as [r |].
    + rewrite Hdone in Hshape. apply sweepRun_done in Hshape.
      rewrite seqZ_to_nat in Hshape. tauto.
    + destruct Hshape as [-> Hout]. rewrite Hdone in Hout.
      destruct (Z.ltb_spec 0 numSlices) as [Hpos | Hneg]; [discriminate |].
      rewrite seqZ_nil by lia. split; reflexivity.
  - cbn [NumSlices]. unfold NumZSlices. now rewrite Hm.
  - cbn [NumSlices]. unfold NumXSlices. rewrite Hm. f_equal.
    fold (lo AxisX m) (hi AxisX m) (delta AxisX s). fold nx.
    rewrite rem2_positive_odd. destruct ((0 <? nx) && Z.odd nx); [| reflexivity].
    unfold GoInt.incr, GoInt.add. apply wrap_inRange.
    pose proof (sliceCount_bounds (lo AxisX m) (hi AxisX m) (delta AxisX s)) as Hb.
    pose proof (count_below_max (lo AxisX m) (hi AxisX m) (delta AxisX s)) as Hlt.
    fold nx in Hb, Hlt. unfold GoInt.minInt, GoInt.maxInt in *. lia.
  - cbn [NumSlices]. unfold NumYSlices. rewrite Hm. f_equal.
    fold (lo AxisX m) (hi AxisX m) (delta AxisX s). fold nx.
    fold (lo AxisY m) (hi AxisY m) (delta AxisY s). fold ny.
    rewrite rem2_positive_odd. destruct ((0 <? nx) && Z.odd nx); [| reflexivity].
    unfold GoInt.incr, GoInt.add. apply wrap_inRange.
    pose proof (sliceCount_bounds (lo AxisY m) (hi AxisY m) (delta AxisY s)) as Hb.
    pose proof (count_below_max (lo AxisY m) (hi AxisY m) (delta AxisY s)) as Hlt.
    fold ny in Hb, Hlt. unfold GoInt.minInt, GoInt.maxInt in *. lia.
Qed.

(** C5, amended. When the [Render] call for slice [k] fails, the sweep
    returns an error that wraps the depth and the material of that
    slice, the processor has been called for exactly the slices
    0..k-1 and [Render] for 0..k. When the processor's call for
    slice [k] fails, the sweep returns an error that wraps the index,
    the depth and the voxel radius of that slice, and both [Render]
    and the processor have been called for exactly the slices 0..k,
    the failing call included. In both cases no slice after [k] is
    rendered or processed. *)
Theorem sweep_aborts_on_failure axis (s : Slicer) (m : IRMF) (materialNum : Z)
    (sp : SliceProcessor P) (order : Order) (st : Env World * P) :
  irmf s = Some m ->
  let numSlices := sliceCount (lo axis m) (hi axis m) (delta axis s) in
  let voxelRadius := Float32.mul Float32.half (delta axis s) in
  let depthOf := depthFunc order numSlices (Float32.add (lo axis m) voxelRadius)
                   (delta axis s) in
  let run := RenderSlices axis s materialNum sp order st in
  exists evs,
    trace (fst (fst run)) = trace (fst st) ++ evs /\
    (forall (k : nat) cause,
        Spec.renderResults evs !! k = Some (inr cause) ->
        snd run = Failed (ErrRenderSlice axis (depthOf (Z.of_nat k)) materialNum cause) /\
        processed evs
          = map (fun n => (n, depthOf n, voxelRadius)) (seqZ 0 (Z.of_nat k)) /\
        rendered evs
          = map (fun n => (depthOf n, materialNum)) (seqZ 0 (Z.of_nat k + 1)) /\
        Z.of_nat k < numSlices) /\
    (forall k cause,
        Spec.processFailedAt k cause evs ->
        snd run = Failed (ErrProcessSlice k (depthOf k) voxelRadius cause) /\
        processed evs = map (fun n => (n, depthOf n, voxelRadius)) (seqZ 0 (k + 1)) /\
        rendered evs = map (fun n => (depthOf n, materialNum)) (seqZ 0 (k + 1)) /\
        0 <= k < numSlices).
Proof.
  intros Hm numSlices voxelRadius depthOf run.
  destruct (sweep_events axis s m materialNum sp order st Hm) as [evs [Htr Hshape]].
  fold numSlices voxelRadius depthOf run in Hshape, Htr.
  exists evs. split; [exact Htr |].
  destruct (renderer s) as [r |].
  - split.
    + intros k cause Hk.
      destruct (sweepRun_render_failure _ _ _ _ _ _ _ _ _ k cause Hshape Hk)
        as [Ho [Hp [Hr Hlt]]].
      rewrite Z.add_0_l in Ho.
      replace (Z.of_nat k + 1) with (Z.of_nat (S k)) by lia.
      repeat split; try assumption. lia.
    + intros k cause Hk.
      destruct (sweepRun_process_failure _ _ _ _ _ _ _ _ _ k cause Hshape Hk)
        as [Ho [Hp [Hr Hb]]].
      rewrite Z.sub_0_r in Hp, Hr. repeat split; try assumption; lia.
  - destruct Hshape as [-> _]. split.
    + intros k cause Hk. destruct k; discriminate.
    + intros k cause (d & vr & img & []).
Qed.

End Sweeps.

(** ** The sweeps on the solid box *)

Section SweepScenarios.

Import Irmf Trace Doubles.

Lemma sweep_visits_each_slice_witness :
  exists evs,
    trace (fst (fst (@RenderSlices _ whiteBackend _ AxisX solidSlicer 1
                       countingProcessor MinToMax (freshEnv (4, 4), 0))))
      = [] ++ evs /\
    map sliceIndex (processed evs) = [0; 1; 2] /\
    length (rendered evs) = 3%nat.
Proof.
  destruct (@sweep_visits_each_slice _ whiteBackend _ AxisX solidSlicer solidBox 1
              countingProcessor MinToMax (freshEnv (4, 4), 0) eq_refl eq_refl)
    as [[evs [Htr [Hp Hr]]] _].
  exists evs. split; [exact Htr |]. rewrite Hp, Hr. split; reflexivity.
Defined.

(** C3, as stated, fails: along X the solid box is swept in three
    slices, while [NumXSlices] reports four. *)
Lemma x_sweep_emits_fewer_than_NumXSlices :
  ~ (forall n,
        NumXSlices solidSlicer = Done n ->
        map sliceIndex
          (processed (trace (fst (fst (@RenderXSlices _ whiteBackend _ solidSlicer 1
                                         countingProcessor MinToMax
                                         (freshEnv (4, 4), 0))))))
          = seqZ 0 n).
Proof.
  intros H. specialize (H 4 eq_refl). vm_compute in H. discriminate.
Qed.

Lemma sweep_aborts_on_failure_witness :
  snd (@RenderSlices _ (failingBackend 2) _ AxisZ solidSlicer 1
         countingProcessor MinToMax (freshEnv 0, 0))
    = Failed (ErrRenderSlice AxisZ (S754_finite false 10485760 (-22)) 1
                (ErrMsg "render failed")) /\
  map sliceIndex
    (processed (trace (fst (fst (@RenderSlices _ (failingBackend 2) _ AxisZ solidSlicer 1
                                   countingProcessor MinToMax (freshEnv 0, 0))))))
    = [0; 1].
Proof.
  destruct (@sweep_aborts_on_failure _ (failingBackend 2) _ AxisZ solidSlicer solidBox 1
              countingProcessor MinToMax (freshEnv 0, 0) eq_refl)
    as [evs [Htr [Hrender _]]].
  cbn [freshEnv trace fst app] in Htr.
  destruct (Hrender 2%nat (ErrMsg "render failed")) as [Ho [Hp _]].
  - rewrite <- Htr. reflexivity.
  - split; [exact Ho |]. rewrite Htr, Hp. reflexivity.
Defined.

(** C5, as stated, fails: when the processor fails at slice 1 it has
    been called for the slices 0 and 1, not for slice 0 alone, and
    slice 1 has been rendered. *)
Lemma failing_process_call_is_made :
  let run := @RenderZSlices _ whiteBackend _ solidSlicer 1 (failingProcessor 1)
               MinToMax (freshEnv (4, 4), 0) in
  Spec.processFailedAt 1 (ErrMsg "process failed") (trace (fst (fst run))) /\
  map sliceIndex (processed (trace (fst (fst run)))) <> seqZ 0 1 /\
  length (rendered (trace (fst (fst run)))) = 2%nat.
Proof.
  cbv zeta. split; [| split].
  - unfold Spec.processFailedAt. eexists _, _, _.
    vm_compute. right. right. right. left. reflexivity.
  - vm_compute. discriminate.
  - vm_compute. reflexivity.
Qed.

(** C1, amended. For the box min (0,0,0), max (3,3,3) at a pitch of
    one on every axis, [NumZSlices] is 3 while [NumXSlices] and
    [NumYSlices] are 4, the odd count 3 being incremented;
    [PrepareRenderZ] asks the backend for a raster of 4 x 4; slicing
    the one material with every rendered raster fully white yields
    one file, with NX = NY = 4, NZ = 3 and 48 occupied cells. NX = NY
    = NZ = 3 and 27 cells are what the mock of the test yields, whose
    rasters are 3 x 3 and whose counts are 3 on every axis. *)
Theorem solid_box_scenario :
  let summary (w : Binvox.WriteCall) :=
    (Binvox.wFilename w, Binvox.NX (Binvox.wBinvox w), Binvox.NY (Binvox.wBinvox w),
     Binvox.NZ (Binvox.wBinvox w), size (Binvox.WhiteVoxels (Binvox.wBinvox w))) in
  let run := @Binvox.Slice _ _ nullWriter "test-solid"
               (@Binvox.ofIrmf _ whiteBackend solidSlicer) (freshEnv (0, 0)) tt in
  let mock := @Binvox.Slice _ _ nullWriter "test-solid"
                (Binvox.ofMock solidMock) tt tt in
  NumZSlices solidSlicer = Done 3 /\
  NumXSlices solidSlicer = Done 4 /\
  NumYSlices solidSlicer = Done 4 /\
  snd run = Done tt /\
  initialized (trace (fst (fst (fst run)))) = [(4, 4)] /\
  map summary (snd (fst run))
    = [("test-solid-mat01-test-material.binvox"%string, 4, 4, 3, 48%nat)] /\
  snd mock = Done tt /\
  map summary (snd (fst mock))
    = [("test-solid-mat01-test-material.binvox"%string, 3, 3, 3, 27%nat)].
Proof. cbv zeta. repeat split; vm_compute; reflexivity. Qed.

End SweepScenarios.

(** ** The depths of the slices *)

Section Depths.

Import Irmf Trace.

Context {World : Type} `{!Backend World} {P : Type}.

(** Whatever its end, a sweep has rendered a prefix of the indices and
    processed a prefix of those. *)
Lemma sweepRun_prefix r axis materialNum depthOf voxelRadius n todo evs out :
  sweepRun r axis materialNum depthOf voxelRadius n todo evs out ->
  exists k k' : nat,
    (k' <= k <= todo)%nat /\
    rendered evs = map (fun i => (depthOf i, materialNum)) (seqZ n (Z.of_nat k)) /\
    processed evs = map (fun i => (i, depthOf i, voxelRadius)) (seqZ n (Z.of_nat k')) /\
    (out = Done tt -> k = todo /\ k' = todo).
Proof.
  induction 1 as [n | n todo err | n todo img err | n todo img evs out H IH].
  - exists O, O. repeat split; lia.
  - exists 1%nat, O. repeat split; try reflexivity; try lia; discriminate.
  - exists 1%nat, 1%nat. repeat split; try reflexivity; try lia; discriminate.
  - destruct IH as (k & k' & Hle & Hr & Hp & Hdone).
    exists (S k), (S k'). rewrite !seqZ_step. cbn. rewrite <- Hr, <- Hp.
    split; [lia | split; [reflexivity | split; [reflexivity |]]].
    intros Hd. apply Hdone in Hd. lia.
Qed.

(** Inside the sweep the mirrored index does not wrap around, so the
    closure of the source computes the depth the specification
    writes. *)
Lemma depthFunc_depthAt order numSlices boxMin d n :
  GoInt.inRange numSlices = true -> 0 <= n < numSlices ->
  depthFunc order numSlices (Float32.add boxMin (Float32.mul Float32.half d)) d n
    = depthAt order numSlices boxMin d n.
Proof.
  intros Hin Hn. apply inRange_spec in Hin. destruct order; [reflexivity |].
  unfold depthFunc, depthAt, GoInt.sub.
  rewrite (wrap_inRange (numSlices - n)) by (unfold GoInt.minInt, GoInt.maxInt in *; lia).
  rewrite wrap_inRange by (unfold GoInt.minInt, GoInt.maxInt in *; lia).
  reflexivity.
Qed.

(** The calls of a sweep carry the depths the specification writes. *)
Lemma sweep_depths axis (s : Slicer) (m : IRMF) (materialNum : Z)
    (sp : SliceProcessor P) (order : Order) (st : Env World * P) :
  irmf s = Some m ->
  let numSlices := sliceCount (lo axis m) (hi axis m) (delta axis s) in
  let voxelRadius := Float32.mul Float32.half (delta axis s) in
  let depth := depthAt order numSlices (lo axis m) (delta axis s) in
  let run := RenderSlices axis s materialNum sp order st in
  exists evs k k',
    trace (fst (fst run)) = trace (fst st) ++ evs /\
    rendered evs = map (fun n => (depth n, materialNum)) (seqZ 0 k) /\
    processed evs = map (fun n => (n, depth n, voxelRadius)) (seqZ 0 k') /\
    0 <= k' <= k /\ k <= Z.max 0 numSlices /\
    (snd run = Done tt -> k = Z.max 0 numSlices /\ k' = Z.max 0 numSlices).
Proof.
  intros Hm numSlices voxelRadius depth run.
  destruct (sweep_events axis s m materialNum sp order st Hm) as [evs [Htr Hshape]].
  fold numSlices voxelRadius run in Hshape, Htr.
  exists evs. destruct (renderer s) as [r |].
  - apply sweepRun_prefix in Hshape. destruct Hshape as (k & k' & Hle & Hr & Hp & Hdone).
    assert (Hin : GoInt.inRange numSlices = true).
    { apply inRange_spec, sliceCount_bounds. }
    exists (Z.of_nat k), (Z.of_nat k'). split; [exact Htr |].
    split; [| split; [| split; [lia | split; [lia |]]]].
    + rewrite Hr. apply map_ext_in. intros n Hn.
      apply list_elem_of_In, elem_of_seqZ in Hn. f_equal.
      apply depthFunc_depthAt; [exact Hin | lia].
    + rewrite Hp. apply map_ext_in. intros n Hn.
      apply list_elem_of_In, elem_of_seqZ in Hn. f_equal. f_equal.
      apply depthFunc_depthAt; [exact Hin | lia].
    + intros Hd. apply Hdone in Hd. lia.
  - destruct Hshape as [-> Hout]. exists 0, 0. split; [exact Htr |].
    split; [reflexivity | split; [reflexivity | split; [lia | split; [lia |]]]].
    intros Hd. rewrite Hd in Hout.
    destruct (Z.ltb_spec 0 numSlices); [discriminate | lia].
Qed.

(** C4, amended. In every sweep over a loaded model the [Render] calls
    and the processor's calls made, for the slice indices n of a
    prefix of 0, 1, ..., numSlices-1 (all of them when the sweep
    returns no error), carry the depth boxMin + 0.5*delta + n*delta
    under MinToMax and boxMin + 0.5*delta + (numSlices-n-1)*delta
    under MaxToMin, each operation rounded to [float32]. With
    delta = 1 and boxMin = 0 the first MinToMax depth is 0.5, and the
    last one is numSlices - 0.5 as long as numSlices <= 2^23; beyond,
    numSlices - 0.5 is no [float32] value. *)
Theorem slice_depths axis (s : Slicer) (m : IRMF) (materialNum : Z)
    (sp : SliceProcessor P) (order : Order) (st : Env World * P) :
  irmf s = Some m ->
  let numSlices := sliceCount (lo axis m) (hi axis m) (delta axis s) in
  let voxelRadius := Float32.mul Float32.half (delta axis s) in
  let depth := depthAt order numSlices (lo axis m) (delta axis s) in
  let run := RenderSlices axis s materialNum sp order st in
  (exists evs k k',
      trace (fst (fst run)) = trace (fst st) ++ evs /\
      rendered evs = map (fun n => (depth n, materialNum)) (seqZ 0 k) /\
      processed evs = map (fun n => (n, depth n, voxelRadius)) (seqZ 0 k') /\
      0 <= k' <= k /\ k <= Z.max 0 numSlices /\
      (snd run = Done tt -> k = Z.max 0 numSlices /\ k' = Z.max 0 numSlices)) /\
  (lo axis m = Float32.zero -> delta axis s = Float32.one -> 1 <= numSlices ->
   depthAt MinToMax numSlices (lo axis m) (delta axis s) 0 = Float32.half /\
   (numSlices <= 2 ^ 23 ->
    Float32.twice (depthAt MinToMax numSlices (lo axis m) (delta axis s) (numSlices - 1))
      = Some (2 * numSlices - 1))).
Proof.
  intros Hm numSlices voxelRadius depth run. split.
  - exact (sweep_depths axis s m materialNum sp order st Hm).
  - intros -> -> Hn. split; [reflexivity |]. intros Hmax.
    unfold depthAt. rewrite half_integer_depth by lia. f_equal. lia.
Qed.

End Depths.

Section DepthScenarios.

Import Irmf Trace Doubles.

Lemma slice_depths_witness :
  exists evs,
    trace (fst (fst (@RenderSlices _ whiteBackend _ AxisZ solidSlicer 1
                       countingProcessor MaxToMin (freshEnv (4, 4), 0))))
      = [] ++ evs /\
    map Float32.twice (map fst (rendered evs)) = [Some 5; Some 3; Some 1] /\
    Float32.twice (depthAt MinToMax 3 Float32.zero Float32.one (3 - 1)) = Some (2 * 3 - 1).
Proof.
  destruct (@slice_depths _ whiteBackend _ AxisZ solidSlicer solidBox 1
              countingProcessor MaxToMin (freshEnv (4, 4), 0) eq_refl)
    as [(evs & k & k' & Htr & Hr & _ & _ & _ & Hdone) Hlast].
  destruct (Hdone eq_refl) as [-> _].
  exists evs. split; [exact Htr |]. split.
  - rewrite Hr. reflexivity.
  - assert (Hn : sliceCount (lo AxisZ solidBox) (hi AxisZ solidBox) (delta AxisZ solidSlicer)
                 = 3) by now vm_compute.
    rewrite Hn in Hlast.
    exact (proj2 (Hlast eq_refl eq_refl ltac:(lia)) ltac:(lia)).
Defined.

(** The white backend and the counting processor never fail. *)
Lemma white_sweep_completes (s : Slicer) axis materialNum depthOf voxelRadius todo :
  renderer s <> None ->
  forall n st,
    snd (@sliceLoop _ whiteBackend _ s axis materialNum countingProcessor depthOf
           voxelRadius todo n st) = Done tt.
Proof.
  intros Hr. induction todo as [| todo IH]; intros n [env p]; cbn [sliceLoop].
  - reflexivity.
  - unfold renderSlice. destruct (renderer s) as [r |]; [| contradiction].
    cbn. apply IH.
Qed.

Lemma white_sweep_done axis (s : Slicer) m materialNum order st :
  irmf s = Some m -> renderer s <> None ->
  snd (@RenderSlices _ whiteBackend _ axis s materialNum countingProcessor order st)
    = Done tt.
Proof.
  intros Hm Hr. rewrite (RenderSlices_body axis s m) by exact Hm.
  unfold renderSlices. apply white_sweep_completes. exact Hr.
Qed.

(** C4, as stated, fails: a box of 8388609 millimetres along Z at a
    pitch of one has 8388610 slices, and the depth of the last one,
    slice 8388609, is 8388610 and not 8388609.5, which [float32]
    cannot hold. *)
Lemma last_depth_of_a_tall_box :
  let s := tallSlicer 8388609 in
  let run := @RenderSlices _ whiteBackend _ AxisZ s 1 countingProcessor MinToMax
               (freshEnv (4, 4), 0) in
  let depth := depthAt MinToMax 8388610 Float32.zero Float32.one in
  NumZSlices s = Done 8388610 /\
  snd run = Done tt /\
  rendered (trace (fst (fst run))) = map (fun n => (depth n, 1)) (seqZ 0 8388610) /\
  depth (8388610 - 1) = S754_finite false 8388610 0 /\
  Float32.twice (depth (8388610 - 1)) = Some 16777220 /\
  16777220 <> 2 * 8388610 - 1.
Proof.
  cbv zeta. split; [now vm_compute |].
  pose (m := {| Min := vec 0 0 0; Max := vec 3 3 8388609;
                Materials := ["test material"%string];
                Language := "glsl"; Shader := EmptyString |}).
  assert (Hm : irmf (tallSlicer 8388609) = Some m) by reflexivity.
  assert (Hn : sliceCount (lo AxisZ m) (hi AxisZ m) (delta AxisZ (tallSlicer 8388609))
               = 8388610) by now vm_compute.
  pose proof (white_sweep_done AxisZ (tallSlicer 8388609) m 1 MinToMax
                (freshEnv (4, 4), 0) Hm ltac:(discriminate)) as Hdone.
  split; [exact Hdone |].
  split; [| split; [now vm_compute | split; [now vm_compute | lia]]].
  destruct (@sweep_depths _ whiteBackend _ AxisZ (tallSlicer 8388609) m 1
              countingProcessor MinToMax (freshEnv (4, 4), 0) Hm)
    as (evs & k & k' & Htr & Hr & _ & _ & _ & Hd).
  rewrite Hn in Hr, Hd.
  destruct (Hd Hdone) as [Hk _].
  rewrite Z.max_r in Hk by lia. subst k.
  rewrite Htr. exact Hr.
Qed.

End DepthScenarios.

(** ** The raster dimensions *)

Section RasterSize.

Import Irmf Trace Float32.

Context {World : Type} `{!Backend World}.

(** The product of two positive numbers is not negative, and it is
    not the negative zero. *)
Lemma mul_positive x y :
  ltb zero x = true -> ltb zero y = true ->
  notNegative (mul x y) /\ mul x y <> S754_zero true.
Proof.
  destruct x as [sx | sx | | sx mx ex]; try destruct sx; try discriminate; intros _;
    (destruct y as [sy | sy | | sy my ey]; try destruct sy; try discriminate; intros _);
    try (split; [exact I | discriminate]).
  unfold mul, SFmul.
  pose proof (round_aux_cases (xorb false false) (Zpos (mx * my)) (ex + ey) loc_Exact) as Hc.
  destruct (binary_round_aux _ _ _ _ _ _) as [s | s | | s m e]; cbn in Hc |- *.
  - subst s. split; [exact I | discriminate].
  - subst s. split; [exact I | discriminate].
  - split; [exact I | discriminate].
  - destruct Hc as [-> _]. split; [exact I | discriminate].
Qed.

Lemma div_signs x y :
  notNegative x -> notNegative y -> y <> S754_zero true -> notNegative (div x y).
Proof.
  destruct x as [sx | sx | | sx mx ex], y as [sy | sy | | sy my ey];
    try destruct sx; try destruct sy;
    cbn [notNegative]; intros Hx Hy Hz; try contradiction; try exact I;
    try (now contradiction Hz).
  unfold div, SFdiv.
  destruct (SFdiv_core_binary prec emax (Zpos mx) ex (Zpos my) ey) as [[mz ez] lz].
  pose proof (round_aux_cases (xorb false false) mz ez lz) as Hc.
  destruct (binary_round_aux _ _ _ _ _ _) as [s | s | | s m e]; cbn in Hc |- *;
    try exact I.
  - subst s. exact I.
  - destruct Hc as [-> _]. exact I.
Qed.

(** Nothing that is not negative is below a negative number. *)
Lemma ltb_below_negative x m e :
  notNegative x -> ltb x (S754_finite true m e) = false.
Proof.
  destruct x as [sx | [] | | [] mx ex]; cbn [notNegative]; intros Hx;
    try contradiction; reflexivity.
Qed.

(** Nothing is above an infinity, and a NaN compares with nothing. *)
Lemma ltb_infinity y : ltb (S754_infinity false) y = false.
Proof. destruct y as [sy | [] | | [] my ey]; reflexivity. Qed.

(** The replacement of the height on dimensions that are not negative
    or overflowed, whatever the aspect ratio of positive extents has
    become: the height grows, or it no longer fits an [int]. *)
Lemma height_never_shrinks fw fh (a : float32) :
  fits24 fw -> fits24 fh -> notNegative fw -> notNegative fh -> notNegative a ->
  let height' :=
    if ltb (mul a (ofInt (toInt fh))) (ofInt (toInt fw))
    then toInt (add half (div (ofInt (toInt fw)) a))
    else toInt fh in
  toInt fh <= height' \/ height' = GoInt.minInt.
Proof.
  intros Hfw Hfh Hnw Hnh Ha height'. subst height'.
  destruct (toInt_notNegative fh Hnh) as [Hh | Hh].
  2:{ left. rewrite Hh. destruct (ltb _ _); [apply toInt_bounds | lia]. }
  destruct (ltb (mul a (ofInt (toInt fh))) (ofInt (toInt fw))) eqn:Hlt; [| left; lia].
  pose proof (ofInt_notNegative _ Hh) as HnH.
  destruct a as [sa | [] | | [] ma ea]; cbn [notNegative] in Ha; try contradiction.
  - (* the aspect ratio has underflowed to zero *)
    right. destruct (ofInt (toInt fw)) as [sw | sw | | sw mw ew]; reflexivity.
  - (* the aspect ratio has overflowed *)
    exfalso. destruct (ofInt (toInt fh)) as [sh | [] | | [] mh eh];
      cbn [notNegative] in HnH; try contradiction;
      try (change (mul (S754_infinity false) _) with (S754_infinity false) in Hlt;
           rewrite ltb_infinity in Hlt);
      discriminate.
  - discriminate.
  - destruct (toInt_notNegative fw Hnw) as [Hw | Hw].
    + apply height_replacement; try assumption; reflexivity.
    + exfalso. rewrite Hw in Hlt.
      change (ofInt GoInt.minInt)
        with (S754_finite true 8388608 40) in Hlt.
      rewrite ltb_below_negative in Hlt; [discriminate |].
      apply mul_notNegative, HnH.
Qed.

Lemma toInt_below_max f : fits24 f -> toInt f < GoInt.maxInt.
Proof.
  intros Hf. pose proof (toInt_bounds f) as Hb.
  destruct (Z.odd (toInt f)) eqn:Hodd.
  - pose proof (toInt_odd_small f Hf Hodd). unfold GoInt.maxInt. lia.
  - assert (toInt f <> GoInt.maxInt); [| lia].
    intros Heq. rewrite Heq in Hodd. vm_compute in Hodd. discriminate.
Qed.

(** What [prepareRender] asks of the backend. *)
Lemma prepareRender_init (s : Slicer) r w h l rt b t camera vec3Str planeVertices env :
  renderer s = Some r ->
  exists evs,
    trace (fst (prepareRender s w h l rt b t camera vec3Str planeVertices env))
      = trace env ++ evs /\
    initialized evs = [evenSize w h].
Proof.
  intros Hr. unfold prepareRender. destruct (evenSize w h) as [w' h']. rewrite Hr.
  destruct (backendInit r w' h' (view s) (world env)) as [w1 [err |]].
  - eexists. split; [reflexivity | reflexivity].
  - destruct (backendPrepare _ _ _ _ _ _ _ _) as [w2 e2].
    eexists. split; [cbn; rewrite <- app_assoc; reflexivity | reflexivity].
Qed.

(** A frame preparation along [axis] asks for the raster of the plane
    of that axis. *)
Lemma PrepareRender_init axis (s : Slicer) m r env :
  irmf s = Some m -> renderer s = Some r ->
  let p := plane axis s m in
  exists evs,
    trace (fst (PrepareRender axis s env)) = trace env ++ evs /\
    initialized evs
      = [evenSize (fst (rasterSize (left p) (right p) (bottom p) (top p)
                          (deltaW p) (deltaH p)))
                  (snd (rasterSize (left p) (right p) (bottom p) (top p)
                          (deltaW p) (deltaH p)))].
Proof.
  intros Hm Hr p. subst p.
  destruct axis; cbn [PrepareRender plane left right bottom top deltaW deltaH];
    unfold PrepareRenderX, PrepareRenderY, PrepareRenderZ; rewrite Hm;
    cbv zeta; destruct (rasterSize _ _ _ _ _ _) as [w h]; unfold returning;
    cbn [fst snd]; apply (prepareRender_init s r); exact Hr.
Qed.

(** C8, amended. In every PrepareRenderX/Y/Z call on a loaded model
    whose box has positive extents and positive pitches along the two
    axes of the raster, with a backend installed: width and height
    are [int(0.5 + extent/pitch)]; if aspectRatio * height < width
    the height is replaced by [int(0.5 + width/aspectRatio)], which
    does not decrease it unless that value does not fit an [int] (the
    conversion then yields the smallest [int]); afterwards, if the
    width is odd, both are incremented by one; and the width passed
    to the backend's [Init] is even. *)
Theorem raster_width_is_even axis (s : Slicer) (m : IRMF) (r : RendererRef)
    (env : Env World) :
  irmf s = Some m -> renderer s = Some r ->
  let p := plane axis s m in
  ltb zero (sub (right p) (left p)) = true -> ltb zero (deltaW p) = true ->
  ltb zero (sub (top p) (bottom p)) = true -> ltb zero (deltaH p) = true ->
  let aspectRatio := div (mul (sub (right p) (left p)) (deltaH p))
                         (mul (sub (top p) (bottom p)) (deltaW p)) in
  let width := toInt (add half (div (sub (right p) (left p)) (deltaW p))) in
  let height := toInt (add half (div (sub (top p) (bottom p)) (deltaH p))) in
  let height' := if ltb (mul aspectRatio (ofInt height)) (ofInt width)
                 then toInt (add half (div (ofInt width) aspectRatio))
                 else height in
  (height <= height' \/ height' = GoInt.minInt) /\
  exists evs,
    trace (fst (PrepareRender axis s env)) = trace env ++ evs /\
    initialized evs = [if Z.odd width then (width + 1, height' + 1) else (width, height')] /\
    Forall (fun size => Z.even (fst size) = true) (initialized evs).
Proof.
  intros Hm Hr p HeW HdW HeH HdH aspectRatio width height height'.
  assert (HnW : notNegative (add half (div (sub (right p) (left p)) (deltaW p)))).
  { apply add_half_notNegative, div_notNegative; assumption. }
  assert (HnH : notNegative (add half (div (sub (top p) (bottom p)) (deltaH p)))).
  { apply add_half_notNegative, div_notNegative; assumption. }
  assert (Ha : notNegative aspectRatio).
  { apply div_signs; apply mul_positive; assumption. }
  split.
  - apply (height_never_shrinks _ _ aspectRatio); try assumption;
      apply add_half_fits24, div_fits24.
  - destruct (PrepareRender_init axis s m r env Hm Hr) as [evs [Htr Hinit]].
    fold p in Hinit. exists evs. split; [exact Htr |].
    assert (Hsize : rasterSize (left p) (right p) (bottom p) (top p) (deltaW p) (deltaH p)
                    = (width, height')).
    { unfold rasterSize, height', height, width, aspectRatio. cbv zeta.
      match goal with |- context [if ?c then _ else _] => destruct c end; reflexivity. }
    rewrite Hsize in Hinit. cbn [fst snd] in Hinit.
    assert (Hh' : exists fh, fits24 fh /\ height' = toInt fh).
    { unfold height'.
      match goal with |- context [if ?c then _ else _] => destruct c end;
        eexists; (split; [| reflexivity]); apply add_half_fits24, div_fits24. }
    destruct Hh' as (fh & Hfh & Hh').
    assert (Heven : evenSize width height'
                    = if Z.odd width then (width + 1, height' + 1) else (width, height')).
    { unfold evenSize. rewrite rem2_odd by (apply toInt_notNegative, HnW).
      destruct (Z.odd width) eqn:Hodd; [| reflexivity].
      pose proof (toInt_odd_small _ (sliceCount_fits (left p) (right p) (deltaW p)) Hodd)
        as Hsmall. fold width in Hsmall.
      pose proof (toInt_bounds fh) as Hb. pose proof (toInt_below_max fh Hfh) as Hlt.
      rewrite <- Hh' in Hb, Hlt.
      unfold GoInt.incr, GoInt.add.
      rewrite !wrap_inRange by (unfold GoInt.minInt, GoInt.maxInt in *; lia).
      reflexivity. }
    rewrite Heven in Hinit. split; [exact Hinit |].
    rewrite Hinit. constructor; [| constructor].
    destruct (Z.odd width) eqn:Hodd; cbn [fst].
    + rewrite Z.even_add, <- Z.negb_odd, Hodd. reflexivity.
    + now rewrite <- Z.negb_odd, Hodd.
Qed.

End RasterSize.

Section RasterScenarios.

Import Irmf Trace Doubles.

Lemma raster_width_is_even_witness :
  exists evs,
    trace (fst (@PrepareRender _ whiteBackend AxisZ solidSlicer (freshEnv (0, 0))))
      = [] ++ evs /\
    initialized evs = [(4, 4)].
Proof.
  destruct (@raster_width_is_even _ whiteBackend AxisZ solidSlicer solidBox glRenderer
              (freshEnv (0, 0)) eq_refl eq_refl eq_refl eq_refl eq_refl eq_refl)
    as [_ (evs & Htr & Hinit & _)].
  exists evs. split; [exact Htr |]. rewrite Hinit. now vm_compute.
Defined.

(** C8, as stated, fails: on a box of 2^-100 by 2^-40 millimetres
    sliced at a pitch of 2^-100 the raster is one pixel wide and 2^60
    high, the aspect ratio underflows to zero, and the height is
    replaced by the conversion of an infinity, the smallest [int]. *)
Lemma replaced_height_overflows :
  let s := tinySlicer in
  let p := plane AxisZ s tinyBox in
  let aspectRatio :=
    Float32.div (Float32.mul (Float32.sub (right p) (left p)) (deltaH p))
                (Float32.mul (Float32.sub (top p) (bottom p)) (deltaW p)) in
  let width := sliceCount (left p) (right p) (deltaW p) in
  let height := sliceCount (bottom p) (top p) (deltaH p) in
  deltaX s = tiny (-100) /\ deltaY s = tiny (-100) /\
  Float32.ltb Float32.zero (Float32.sub (right p) (left p)) = true /\
  Float32.ltb Float32.zero (Float32.sub (top p) (bottom p)) = true /\
  width = 1 /\ height = 2 ^ 60 /\ aspectRatio = Float32.zero /\
  Float32.ltb (Float32.mul aspectRatio (Float32.ofInt height)) (Float32.ofInt width) = true /\
  Float32.div (Float32.ofInt width) aspectRatio = S754_infinity false /\
  rasterSize (left p) (right p) (bottom p) (top p) (deltaW p) (deltaH p)
    = (1, GoInt.minInt) /\
  GoInt.minInt < height /\
  initialized (trace (fst (@PrepareRenderZ _ whiteBackend s (freshEnv (0, 0)))))
    = [(2, GoInt.minInt + 1)].
Proof. cbv zeta. repeat split; now vm_compute. Qed.

End RasterScenarios.

(** ** The voxel accumulator *)

Section Accumulator.

Import GoImage Binvox.

Variables (sliceNum : Z) (img : Image).

(** The body of the inner loop, at column [u] of row [v]. *)
Let mark (v : Z) (cb : BinVOX) (u : Z) : BinVOX :=
  if (0 <? R (At img u v))%N then Add u v sliceNum cb else cb.

Lemma mark_row_dims v us : forall cb,
  NX (foldl (mark v) cb us) = NX cb /\
  NY (foldl (mark v) cb us) = NY cb /\
  NZ (foldl (mark v) cb us) = NZ cb.
Proof.
  induction us as [| u us IH]; intros cb; cbn [foldl]; [tauto |].
  destruct (IH (mark v cb u)) as (-> & -> & ->).
  unfold mark. destruct (0 <? R (At img u v))%N; cbn; tauto.
Qed.

Lemma mark_row_voxels v us : forall cb x y w,
  (x, y, w) ∈ WhiteVoxels (foldl (mark v) cb us) <->
  (x, y, w) ∈ WhiteVoxels cb \/
  (x ∈ us /\ y = v /\ w = sliceNum /\ R (At img x y) <> 0%N).
Proof.
  induction us as [| u us IH]; intros cb x y w; cbn [foldl].
  - rewrite elem_of_nil. tauto.
  - rewrite IH, elem_of_cons. unfold mark.
    destruct (N.ltb_spec 0 (R (At img u v))) as [Hred | Hred].
    + cbn [Add WhiteVoxels]. rewrite elem_of_union, elem_of_singleton.
      split.
      * intros [[Heq | Hin] | Hrow]; [| tauto | tauto].
        injection Heq as -> -> ->. right. repeat split; [now left | lia].
      * intros [Hin | ([-> | Hin] & -> & -> & Hne)]; tauto.
    + split.
      * intros [Hin | Hrow]; tauto.
      * intros [Hin | ([-> | Hin] & -> & -> & Hne)]; [tauto | lia | tauto].
Qed.

Lemma mark_rows_dims us vs : forall cb,
  NX (foldl (fun cb v => foldl (mark v) cb us) cb vs) = NX cb /\
  NY (foldl (fun cb v => foldl (mark v) cb us) cb vs) = NY cb /\
  NZ (foldl (fun cb v => foldl (mark v) cb us) cb vs) = NZ cb.
Proof.
  induction vs as [| v vs IH]; intros cb; cbn [foldl]; [tauto |].
  destruct (IH (foldl (mark v) cb us)) as (-> & -> & ->). apply mark_row_dims.
Qed.

Lemma mark_rows_voxels us vs : forall cb x y w,
  (x, y, w) ∈ WhiteVoxels (foldl (fun cb v => foldl (mark v) cb us) cb vs) <->
  (x, y, w) ∈ WhiteVoxels cb \/
  (x ∈ us /\ y ∈ vs /\ w = sliceNum /\ R (At img x y) <> 0%N).
Proof.
  induction vs as [| v vs IH]; intros cb x y w; cbn [foldl].
  - rewrite elem_of_nil. tauto.
  - rewrite IH, mark_row_voxels, elem_of_cons. split.
    + intros [[Hin | (Hx & -> & Hw & Hne)] | (Hx & Hy & Hw & Hne)]; tauto.
    + intros [Hin | (Hx & [-> | Hy] & Hw & Hne)]; tauto.
Qed.

(** C7. [ProcessZSlice] returns a nil error whatever the raster; it
    records the width and the height of the raster as NX and NY and
    leaves NZ alone; and afterwards the occupied cells are the ones
    occupied before together with (u, v, sliceNum) for exactly the
    pixels (u, v) within the bounds whose red channel is not zero. A
    raster without any such pixel leaves the voxel set as it was. *)
Theorem ProcessZSlice_marks_red_pixels (z voxelRadius : float32) (cb : BinVOX) :
  let b := Bounds img in
  let res := ProcessZSlice sliceNum z voxelRadius img cb in
  snd res = None /\
  NX (fst res) = GoInt.sub (MaxX b) (MinX b) /\
  NY (fst res) = GoInt.sub (MaxY b) (MinY b) /\
  NZ (fst res) = NZ cb /\
  (forall u v w,
      (u, v, w) ∈ WhiteVoxels (fst res) <->
      (u, v, w) ∈ WhiteVoxels cb \/
      (w = sliceNum /\ MinX b <= u < MaxX b /\ MinY b <= v < MaxY b /\
       R (At img u v) <> 0%N)) /\
  ((forall u v, MinX b <= u < MaxX b -> MinY b <= v < MaxY b -> R (At img u v) = 0%N) ->
   WhiteVoxels (fst res) = WhiteVoxels cb).
Proof.
  intros b res.
  assert (Hvox : forall u v w,
             (u, v, w) ∈ WhiteVoxels (fst res) <->
             (u, v, w) ∈ WhiteVoxels cb \/
             (w = sliceNum /\ MinX b <= u < MaxX b /\ MinY b <= v < MaxY b /\
              R (At img u v) <> 0%N)).
  { intros u v w. subst res. unfold ProcessZSlice. cbn [fst].
    fold b. change (fun cb0 v0 => foldl _ cb0 _)
      with (fun cb0 v0 => foldl (mark v0) cb0 (seqZ (MinX b) (MaxX b - MinX b))).
    rewrite mark_rows_voxels, !elem_of_seqZ. cbn [setNXNY WhiteVoxels].
    split; intros [Hin | H]; [tauto | right | tauto | right]; repeat split; try tauto; lia. }
  subst res. unfold ProcessZSlice in *. cbn [fst snd] in *. fold b in Hvox |- *.
  change (fun cb0 v0 => foldl _ cb0 _)
    with (fun cb0 v0 => foldl (mark v0) cb0 (seqZ (MinX b) (MaxX b - MinX b)))
    in Hvox |- *.
  destruct (mark_rows_dims (seqZ (MinX b) (MaxX b - MinX b))
              (seqZ (MinY b) (MaxY b - MinY b))
              (setNXNY (GoInt.sub (MaxX b) (MinX b)) (GoInt.sub (MaxY b) (MinY b)) cb))
    as (Hx & Hy & Hz).
  repeat split; try assumption; try apply Hvox.
  intros Hblack. apply set_eq. intros [[u v] w]. rewrite Hvox. split; [| tauto].
  intros [Hin | (_ & Hu & Hv & Hne)]; [exact Hin |].
  exfalso. apply Hne, Hblack; assumption.
Qed.

End Accumulator.

Section AccumulatorScenario.

Import GoImage Binvox.

Lemma ProcessZSlice_marks_red_pixels_witness :
  WhiteVoxels (fst (ProcessZSlice 0 Float32.half Float32.half
                      (Uniform 2 2 Transparent)
                      (New 2 2 1 Float32.zero Float32.zero Float32.zero Float32.one false)))
  = ∅.
Proof.
  apply (ProcessZSlice_marks_red_pixels 0 (Uniform 2 2 Transparent)
           Float32.half Float32.half
           (New 2 2 1 Float32.zero Float32.zero Float32.zero Float32.one false)).
  intros u v Hu Hv. cbn.
  destruct ((0 <=? u) && (u <? 2) && (0 <=? v) && (v <? 2)); reflexivity.
Defined.

End AccumulatorScenario.

(** ** File names *)

Section FileNames.

Import Binvox.

Lemma string_app_cons c (a b : string) : (String c a ++ b = String c (a ++ b))%string.
Proof. reflexivity. Qed.

Lemma string_app_nil_l (b : string) : ("" ++ b = b)%string.
Proof. reflexivity. Qed.

Lemma string_length_app (a b : string) :
  String.length (a ++ b) = (String.length a + String.length b)%nat.
Proof.
  induction a as [| c a IH]; [reflexivity |].
  rewrite string_app_cons. cbn [String.length]. now rewrite IH.
Qed.

Lemma string_app_assoc (a b c : string) : ((a ++ b) ++ c = a ++ (b ++ c))%string.
Proof.
  induction a as [| x a IH]; [reflexivity |].
  rewrite !string_app_cons. now rewrite IH.
Qed.

Lemma string_app_nil_r (a : string) : (a ++ "" = a)%string.
Proof.
  induction a as [| x a IH]; [reflexivity |].
  rewrite string_app_cons. now rewrite IH.
Qed.

Lemma valueFrom_app (a b : string) : forall acc,
  Spec.valueFrom acc (a ++ b) = Spec.valueFrom (Spec.valueFrom acc a) b.
Proof.
  induction a as [| c a IH]; intros acc; [reflexivity |].
  rewrite string_app_cons. cbn [Spec.valueFrom]. apply IH.
Qed.

Lemma allDigits_app (a b : string) :
  Spec.allDigits (a ++ b) = Spec.allDigits a && Spec.allDigits b.
Proof.
  induction a as [| c a IH]; [reflexivity |].
  rewrite string_app_cons. cbn [Spec.allDigits]. rewrite IH. now rewrite andb_assoc.
Qed.

Lemma digit_code d : 0 <= d <= 9 -> nat_of_ascii (digit d) = (48 + Z.to_nat d)%nat.
Proof. intros Hd. unfold digit. apply nat_ascii_embedding. lia. Qed.

Lemma allDigits_digit d :
  0 <= d <= 9 -> Spec.allDigits (String (digit d) EmptyString) = true.
Proof.
  intros Hd. cbn [Spec.allDigits]. rewrite digit_code by exact Hd.
  rewrite andb_true_r. apply andb_true_intro. split; apply Nat.leb_le; lia.
Qed.

Lemma valueFrom_digit a d :
  0 <= d <= 9 -> Spec.valueFrom a (String (digit d) EmptyString) = 10 * a + d.
Proof.
  intros Hd. cbn [Spec.valueFrom]. rewrite digit_code by exact Hd. lia.
Qed.

(** The digits [decimalFrom] puts in front of [acc]: decimal digits
    only, which read back as [n]; one digit below 10, two below 100,
    three or more from 100 on. *)
Lemma decimalFrom_digits fuel : forall n acc,
  0 <= n < 10 ^ Z.of_nat fuel -> (0 < fuel)%nat ->
  exists ds,
    decimalFrom fuel n acc = (ds ++ acc)%string /\
    Spec.allDigits ds = true /\
    (forall a, Spec.valueFrom a ds = a * 10 ^ Z.of_nat (String.length ds) + n) /\
    (n < 10 -> String.length ds = 1%nat) /\
    (10 <= n < 100 -> String.length ds = 2%nat) /\
    (100 <= n -> (3 <= String.length ds)%nat).
Proof.
  induction fuel as [| fuel IH]; intros n acc Hn Hfuel; [lia |].
  cbn [decimalFrom].
  assert (Hmod : 0 <= n mod 10 <= 9) by (pose proof (Z.mod_pos_bound n 10); lia).
  assert (Hdiv : n = 10 * (n / 10) + n mod 10) by (apply Z.div_mod; lia).
  destruct (Z.eqb_spec (n / 10) 0) as [Hz | Hnz].
  - exists (String (digit (n mod 10)) EmptyString).
    split; [reflexivity |]. split; [apply allDigits_digit, Hmod |].
    split; [intros a; rewrite valueFrom_digit by exact Hmod;
            change (Z.of_nat (String.length (String (digit (n mod 10)) ""))) with 1; lia |].
    repeat split; intros; try reflexivity; lia.
  - assert (Hq : 0 <= n / 10 < 10 ^ Z.of_nat fuel).
    { split; [apply Z.div_pos; lia |].
      apply Z.div_lt_upper_bound; [lia |].
      rewrite Nat2Z.inj_succ, Z.pow_succ_r in Hn by lia. lia. }
    assert (Hf : (0 < fuel)%nat).
    { destruct fuel; [| lia]. cbn in Hq. lia. }
    destruct (IH (n / 10) (String (digit (n mod 10)) acc) Hq Hf)
      as (ds & Heq & Hall & Hval & H1 & H2 & H3).
    exists (ds ++ String (digit (n mod 10)) EmptyString)%string.
    assert (Hq1 : 1 <= n / 10) by lia.
    assert (Hlen : String.length (ds ++ String (digit (n mod 10)) EmptyString)
                   = S (String.length ds)).
    { rewrite string_length_app. cbn [String.length]. lia. }
    split; [rewrite Heq; now rewrite string_app_assoc |].
    split; [rewrite allDigits_app, Hall; apply allDigits_digit, Hmod |].
    split.
    { intros a. rewrite valueFrom_app, Hval, valueFrom_digit by exact Hmod.
      rewrite Hlen, Nat2Z.inj_succ, Z.pow_succ_r by lia. lia. }
    rewrite Hlen. repeat split.
    + intros Hlt. lia.
    + intros Hr. rewrite H1; [reflexivity | lia].
    + intros Hr. destruct (Z.lt_ge_cases (n / 10) 100) as [Hs | Hb].
      * rewrite H2; lia.
      * specialize (H3 Hb). lia.
Qed.

(** The verb [%02d] on an ordinal: decimal digits that read back as
    the ordinal, two of them up to 99, more from 100 on. *)
Lemma fmt02d_digits n :
  0 <= n ->
  Spec.allDigits (fmt02d n) = true /\
  Spec.decimalValue (fmt02d n) = n /\
  (n <= 99 -> String.length (fmt02d n) = 2%nat) /\
  (100 <= n -> (3 <= String.length (fmt02d n))%nat).
Proof.
  intros Hn. unfold fmt02d, Spec.decimalValue.
  destruct (Z.ltb_spec n 0) as [Hneg | _]; [lia |].
  assert (Hfuel : 0 <= n < 10 ^ Z.of_nat (S (Z.to_nat (Z.log2 n)))).
  { split; [lia |]. rewrite Nat2Z.inj_succ, Z2Nat.id by apply Z.log2_nonneg.
    destruct (Z.eq_dec n 0) as [-> | Hne]; [cbn; lia |].
    pose proof (Z.log2_spec n ltac:(lia)) as [_ Hlt].
    eapply Z.lt_le_trans; [exact Hlt |].
    apply Z.pow_le_mono_l. pose proof (Z.log2_nonneg n). lia. }
  destruct (decimalFrom_digits _ n EmptyString Hfuel ltac:(lia))
    as (ds & Heq & Hall & Hval & H1 & H2 & H3).
  unfold decimal. rewrite Heq, string_app_nil_r.
  destruct (Z.ltb_spec n 10) as [Hsmall | Hbig].
  - cbn [Spec.allDigits Spec.valueFrom String.length].
    change (nat_of_ascii "0") with 48%nat.
    change (Nat.leb 48 48 && Nat.leb 48 57) with true. cbn [andb].
    rewrite Hall, Hval, (H1 Hsmall). repeat split; intros; lia.
  - rewrite Hall, Hval. repeat split; lia.
Qed.

(** Replacing the spaces by hyphens keeps the length and every other
    byte. *)
Lemma ReplaceAll_sanitized name : Spec.sanitized name (ReplaceAll name " " "-").
Proof.
  unfold Spec.sanitized. induction name as [| c name [Hlen Hget]].
  - split; [reflexivity | intros i c H; discriminate].
  - cbn [ReplaceAll]. destruct (Ascii.eqb_spec c " ") as [-> | Hne].
    + rewrite string_app_cons, string_app_nil_l. cbn [String.length String.get].
      split; [now rewrite Hlen |]. intros [| i] c' H.
      * injection H as <-. reflexivity.
      * apply Hget, H.
    + cbn [String.length String.get].
      split; [now rewrite Hlen |]. intros [| i] c' H.
      * injection H as <-. destruct (Ascii.eqb_spec c " "); [contradiction | reflexivity].
      * apply Hget, H.
Qed.

(** ** The loop over the materials *)

Context {Σ Files : Type} `{!Writer Files}.

Variables (baseFilename : string) (slicer : Slicer Σ).

(** The file of material [m], to the letter. *)
Let nameOf (m : Z) (w : WriteCall) : Prop :=
  exists name,
    MaterialName slicer m = Done name /\
    wFilename w = binvoxName baseFilename m (ReplaceAll name " " "-").

Lemma sliceMaterial_writes m (st : @SliceState Σ Files) :
  let res := sliceMaterial baseFilename slicer m st in
  (snd (fst res) = snd st /\ snd res <> Done tt) \/
  (exists w, snd (fst res) = snd st ++ [w] /\ nameOf m w).
Proof.
  destruct st as [[σ files] writes]. cbn zeta. unfold sliceMaterial.
  destruct (MaterialName slicer m) as [name | e |] eqn:Hname;
    [| left; cbn; split; [reflexivity | discriminate] ..].
  destruct (MBB slicer) as [lo hi].
  destruct (dimensions slicer) as [[[nx ny] nz] | e |];
    [| left; cbn; split; [reflexivity | discriminate] ..].
  destruct (PrepareRenderZ slicer σ) as [σ1 [[] | e |]];
    [| left; cbn; split; [reflexivity | discriminate] ..].
  destruct (RenderZSlices slicer BinVOX m ProcessZSlice Irmf.MinToMax _)
    as [[σ2 b2] [[] | e |]];
    [| left; cbn; split; [reflexivity | discriminate] ..].
  destruct (binvoxWrite _ 0 0 0 (NX b2) (NY b2) (NZ b2) b2 files) as [files' [e |]];
    right; eexists; (split; [reflexivity |]); exists name; (split; [exact Hname | reflexivity]).
Qed.

Lemma sliceFrom_writes todo : forall m (st : @SliceState Σ Files),
  let res := sliceFrom baseFilename slicer todo m st in
  exists ws,
    snd (fst res) = snd st ++ ws /\
    (length ws <= todo)%nat /\
    (snd res = Done tt -> length ws = todo) /\
    (forall (i : nat) w, ws !! i = Some w -> nameOf (m + Z.of_nat i) w).
Proof.
  assert (Hnone : forall m, forall (i : nat) (w : WriteCall),
             @nil WriteCall !! i = Some w -> nameOf (m + Z.of_nat i) w).
  { intros m i w H. destruct i; discriminate. }
  assert (Hone : forall m w, nameOf m w ->
             forall (i : nat) (w' : WriteCall),
               [w] !! i = Some w' -> nameOf (m + Z.of_nat i) w').
  { intros m w Hw [| i] w' H; cbn in H; [| destruct i; discriminate].
    injection H as <-. now rewrite Z.add_0_r. }
  induction todo as [| todo IH]; intros m st; cbn zeta; cbn [sliceFrom].
  - exists []. rewrite app_nil_r.
    split; [reflexivity |]. split; [cbn; lia |]. split; [reflexivity | apply Hnone].
  - pose proof (sliceMaterial_writes m st) as Hstep. cbn zeta in Hstep.
    destruct (sliceMaterial baseFilename slicer m st) as [st1 r]. cbn [fst snd] in Hstep.
    destruct Hstep as [[Hsame Hfail] | (w & Hadd & Hname)].
    + exists []. rewrite app_nil_r.
      destruct r as [[] | e |]; [contradiction | |]; cbn [fst snd];
        (split; [exact Hsame |]); (split; [cbn; lia |]);
        (split; [discriminate | apply Hnone]).
    + destruct r as [[] | e |].
      * destruct (IH (m + 1) st1) as (ws & Hws & Hlen & Hdone & Hnames).
        exists (w :: ws).
        split; [rewrite Hws, Hadd, <- app_assoc; reflexivity |].
        split; [cbn; lia |].
        split; [intros Hd; cbn; now rewrite (Hdone Hd) |].
        intros [| i] w' H; cbn in H.
        -- injection H as <-. now rewrite Z.add_0_r.
        -- replace (m + Z.of_nat (S i)) with (m + 1 + Z.of_nat i) by lia.
           apply Hnames, H.
      * exists [w]. cbn [fst snd].
        split; [exact Hadd |]. split; [cbn; lia |].
        split; [discriminate | apply Hone, Hname].
      * exists [w]. cbn [fst snd].
        split; [exact Hadd |]. split; [cbn; lia |].
        split; [discriminate | apply Hone, Hname].
Qed.

(** C6, amended. The files [Slice] writes are, in order, those of the
    materials 1, 2, ...: the file of the material of ordinal m is
    named "<base>-mat<NN>-<name>.binvox", where <NN> is m in decimal,
    padded with a zero to at least two digits (exactly two up to 99,
    three or more from 100 on), and <name> is the display name of the
    material with every space replaced by a hyphen and every other
    byte passed through. When [Slice] returns without an error it has
    written one file for every ordinal from 1 to [NumMaterials()];
    after an error the files of the later materials are not written. *)
Theorem Slice_names_files (σ : Σ) (files : Files) :
  let run := Slice baseFilename slicer σ files in
  let writes := snd (fst run) in
  (snd run = Done tt -> Z.of_nat (length writes) = Z.max 0 (NumMaterials slicer)) /\
  (forall m w,
      1 <= m -> writes !! Z.to_nat (m - 1) = Some w ->
      m <= NumMaterials slicer /\
      exists name,
        MaterialName slicer m = Done name /\
        wFilename w
          = (baseFilename ++ "-mat" ++ fmt02d m ++ "-"
               ++ ReplaceAll name " " "-" ++ ".binvox")%string /\
        Spec.sanitized name (ReplaceAll name " " "-") /\
        Spec.allDigits (fmt02d m) = true /\
        Spec.decimalValue (fmt02d m) = m /\
        (m <= 99 -> String.length (fmt02d m) = 2%nat) /\
        (100 <= m -> (3 <= String.length (fmt02d m))%nat)).
Proof.
  cbn zeta. unfold Slice.
  destruct (sliceFrom_writes (Z.to_nat (NumMaterials slicer)) 1 ((σ, files), []))
    as (ws & Hws & Hlen & Hdone & Hnames).
  cbn zeta in Hws, Hdone. cbn [snd app] in Hws. rewrite Hws. split.
  - intros Hd. rewrite (Hdone Hd). lia.
  - intros m w Hm Hw.
    assert (Hi : (Z.to_nat (m - 1) < length ws)%nat) by (eapply lookup_lt_Some, Hw).
    split; [lia |].
    destruct (Hnames _ _ Hw) as (name & Hname & Hfile).
    replace (1 + Z.of_nat (Z.to_nat (m - 1))) with m in Hname, Hfile by lia.
    exists name. split; [exact Hname |]. split; [exact Hfile |].
    split; [apply ReplaceAll_sanitized |]. apply fmt02d_digits. lia.
Qed.

End FileNames.

Section FileNameScenarios.

Import Binvox Doubles.

Lemma Slice_names_files_witness :
  exists w,
    snd (fst (@Slice _ _ nullWriter "test-solid" (ofMock solidMock) tt tt)) !! 0%nat
      = Some w /\
    wFilename w = "test-solid-mat01-test-material.binvox"%string.
Proof.
  destruct (snd (fst (@Slice _ _ nullWriter "test-solid" (ofMock solidMock) tt tt)) !! 0%nat)
    as [w |] eqn:Hw; [| vm_compute in Hw; discriminate].
  exists w. split; [reflexivity |].
  destruct (proj2 (@Slice_names_files _ _ nullWriter "test-solid" (ofMock solidMock) tt tt)
              1 w ltac:(lia) Hw) as (_ & name & Hname & Hfile & _).
  injection Hname as <-. exact Hfile.
Defined.

(** C6, as stated, fails: the file of the hundredth material carries
    three digits. *)
Lemma hundredth_material_has_three_digits :
  let run := @Slice _ _ nullWriter "b" (@ofIrmf _ whiteBackend (manyMaterials 100))
               (freshEnv (0, 0)) tt in
  NumMaterials (@ofIrmf _ whiteBackend (manyMaterials 100)) = 100 /\
  snd run = Done tt /\
  wFilename <$> snd (fst run) !! 99%nat = Some "b-mat100-m.binvox"%string /\
  ~ (exists NN : string,
        String.length NN = 2%nat /\
        "b-mat100-m.binvox"%string = ("b-mat" ++ NN ++ "-m.binvox")%string).
Proof.
  cbv zeta. split; [reflexivity |]. split; [vm_compute; reflexivity |].
  split; [vm_compute; reflexivity |].
  intros (NN & Hlen & Heq).
  destruct NN as [| c1 [| c2 [| c3 NN]]]; try discriminate Hlen.
  vm_compute in Heq. discriminate Heq.
Qed.

End FileNameScenarios.

(** ** Backend selection *)

Section BackendSelection.

Import Irmf Trace.

Context {World : Type} `{!Backend World} `{!Loader}.

Lemma unclosed_app evs1 : forall evs2 open,
  unclosed (evs1 ++ evs2) open = unclosed evs2 (unclosed evs1 open).
Proof.
  induction evs1 as [| ev evs1 IH]; intros evs2 open; [reflexivity |].
  destruct ev; cbn [app unclosed]; apply IH.
Qed.

Lemma ref_eqb_refl r : ref_eqb r r = true.
Proof.
  unfold ref_eqb. rewrite Nat.eqb_refl. now destruct (kind r).
Qed.

Lemma kind_eqb_eq a b : kind_eqb a b = true <-> a = b.
Proof. destruct a, b; cbn; split; congruence. Qed.

(** What one case of the language switch does. *)
Lemma selectRenderer_cases k (s : Slicer) (env : Env World) :
  let fresh := {| kind := k; ptr := nextPtr env |} in
  match renderer s with
  | Some r =>
      if kind_eqb (kind r) k
      then selectRenderer k s env = (s, env)
      else
        fst (selectRenderer k s env) = setRenderer s (Some fresh) /\
        trace (snd (selectRenderer k s env)) = trace env ++ [EvClose r; EvNew fresh] /\
        nextPtr (snd (selectRenderer k s env)) = S (nextPtr env)
  | None =>
      fst (selectRenderer k s env) = setRenderer s (Some fresh) /\
      trace (snd (selectRenderer k s env)) = trace env ++ [EvNew fresh] /\
      nextPtr (snd (selectRenderer k s env)) = S (nextPtr env)
  end.
Proof.
  cbn zeta. unfold selectRenderer, isKind.
  destruct (renderer s) as [r |].
  - destruct (kind_eqb (kind r) k); [reflexivity |].
    cbn. rewrite <- app_assoc. repeat split.
  - cbn. repeat split.
Qed.

Lemma selectRenderer_keeps_invariant k (s : Slicer) (env : Env World) :
  Spec.holdsItsBackend (s, env) -> Spec.holdsItsBackend (selectRenderer k s env).
Proof.
  intros [Hopen Hptr]. cbn [fst snd] in Hopen, Hptr.
  pose proof (selectRenderer_cases k s env) as Hsel. cbn zeta in Hsel.
  destruct (renderer s) as [r |] eqn:Hr.
  - destruct (kind_eqb (kind r) k).
    + rewrite Hsel. split; cbn [fst snd]; [now rewrite Hr | now rewrite Hr].
    + destruct Hsel as (Hs & Htr & Hnext). split.
      * rewrite Htr, Hs, unclosed_app, Hopen. cbn. now rewrite ref_eqb_refl.
      * rewrite Hs, Hnext. cbn. intros r' [= <-]. cbn. lia.
  - destruct Hsel as (Hs & Htr & Hnext). split.
    + rewrite Htr, Hs, unclosed_app, Hopen. reflexivity.
    + rewrite Hs, Hnext. cbn. intros r' [= <-]. cbn. lia.
Qed.

Lemma NewModel_keeps_invariant (s : Slicer) src (env : Env World) :
  Spec.holdsItsBackend (s, env) -> Spec.holdsItsBackend (fst (NewModel s src env)).
Proof.
  intros Hinv. unfold NewModel. destruct (newModel src) as [m | err]; [| exact Hinv].
  assert (Hinv1 : Spec.holdsItsBackend (setIRMF s (Some m), env)) by exact Hinv.
  destruct (String.eqb (Language m) "glsl" || String.eqb (Language m) "");
    [apply selectRenderer_keeps_invariant, Hinv1 |].
  destruct (String.eqb (Language m) "wgsl");
    [apply selectRenderer_keeps_invariant, Hinv1 | exact Hinv1].
Qed.

Lemma loadAll_keeps_invariant srcs : forall st : Slicer * Env World,
  Spec.holdsItsBackend st -> Spec.holdsItsBackend (Spec.loadAll srcs st).
Proof.
  induction srcs as [| src srcs IH]; intros [s env] Hinv; cbn [Spec.loadAll];
    [exact Hinv |].
  apply IH, NewModel_keeps_invariant, Hinv.
Qed.

(** C9. Across any sequence of [NewModel] calls on a new slicer, the
    renderer objects allocated and not closed are at most one, the one
    the slicer holds. A call of [NewModel] whose model loads replaces
    the held backend only when the language of the model asks for
    another kind ("glsl" or the empty tag for the OpenGL renderer,
    "wgsl" for the WebGPU one): it then calls [Close] on the backend
    held before, if any, and only then installs a new object of the
    required kind; when the kinds agree the same object stays and no
    backend is called. *)
Theorem NewModel_holds_one_backend :
  (forall srcs view umX umY umZ (w : World),
      Spec.holdsItsBackend (Spec.loadAll srcs (Init view umX umY umZ, Doubles.freshEnv w))) /\
  (forall (s : Slicer) src (env : Env World) m,
      newModel src = inl m ->
      let s' := fst (fst (NewModel s src env)) in
      let env' := snd (fst (NewModel s src env)) in
      let fresh k := {| kind := k; ptr := nextPtr env |} in
      snd (NewModel s src env) = None /\
      irmf s' = Some m /\
      match Spec.requiredKind (Language m), renderer s with
      | None, _ => renderer s' = renderer s /\ env' = env
      | Some k, Some r =>
          if kind_eqb (kind r) k
          then renderer s' = Some r /\ env' = env
          else renderer s' = Some (fresh k) /\
               trace env' = trace env ++ [EvClose r; EvNew (fresh k)]
      | Some k, None =>
          renderer s' = Some (fresh k) /\ trace env' = trace env ++ [EvNew (fresh k)]
      end).
Proof.
  split.
  - intros srcs view umX umY umZ w. apply loadAll_keeps_invariant.
    split; [reflexivity |]. cbn. discriminate.
  - intros s src env m Hm. cbn zeta. unfold NewModel, Spec.requiredKind. rewrite Hm.
    assert (Hsel : forall k,
               snd (selectRenderer k (setIRMF s (Some m)) env, @None error) = None /\
               irmf (fst (selectRenderer k (setIRMF s (Some m)) env)) = Some m /\
               match renderer s with
               | Some r =>
                   if kind_eqb (kind r) k
                   then renderer (fst (selectRenderer k (setIRMF s (Some m)) env)) = Some r /\
                        snd (selectRenderer k (setIRMF s (Some m)) env) = env
                   else renderer (fst (selectRenderer k (setIRMF s (Some m)) env))
                          = Some {| kind := k; ptr := nextPtr env |} /\
                        trace (snd (selectRenderer k (setIRMF s (Some m)) env))
                          = trace env ++ [EvClose r; EvNew {| kind := k; ptr := nextPtr env |}]
               | None =>
                   renderer (fst (selectRenderer k (setIRMF s (Some m)) env))
                     = Some {| kind := k; ptr := nextPtr env |} /\
                   trace (snd (selectRenderer k (setIRMF s (Some m)) env))
                     = trace env ++ [EvNew {| kind := k; ptr := nextPtr env |}]
               end).
    { intros k. pose proof (selectRenderer_cases k (setIRMF s (Some m)) env) as Hc.
      cbn zeta in Hc. cbn [setIRMF renderer] in Hc. split; [reflexivity |].
      destruct (renderer s) as [r |] eqn:Hr.
      - destruct (kind_eqb (kind r) k) eqn:Hk.
        + rewrite Hc. cbn. rewrite Hr. tauto.
        + destruct Hc as (-> & -> & _). cbn. tauto.
      - destruct Hc as (-> & -> & _). cbn. tauto. }
    destruct (String.eqb (Language m) "glsl" || String.eqb (Language m) "");
      [apply Hsel |].
    destruct (String.eqb (Language m) "wgsl"); [apply Hsel |].
    cbn. tauto.
Qed.


End BackendSelection.

Section BackendScenarios.

Import Irmf Trace Doubles.

Lemma NewModel_holds_one_backend_witness :
  let run := @NewModel _ whiteBackend tagLoader solidSlicer "wgsl" (freshEnv (0, 0)) in
  renderer (fst (fst run)) = Some {| kind := WebGPURenderer; ptr := 0 |} /\
  trace (snd (fst run))
    = [EvClose glRenderer; EvNew {| kind := WebGPURenderer; ptr := 0 |}].
Proof.
  destruct (proj2 (@NewModel_holds_one_backend _ whiteBackend tagLoader)
              solidSlicer "wgsl"%string (freshEnv (0, 0)) _ eq_refl)
    as (_ & _ & Hsel).
  exact Hsel.
Defined.


End BackendScenarios.

(** ** The slicer's getters and counts *)

Section Getters.

Import Irmf Trace.

Context {World : Type} `{!Backend World} {P : Type}.

(** X1. [MaterialName] guards the upper bound only: it yields the n-th
    name for 1 <= n <= NumMaterials(), the empty string beyond and
    without a model, and it panics on n <= 0 once a model is loaded. *)
Theorem MaterialName_bounds (s : Slicer) (n : Z) :
  match irmf s with
  | None => NumMaterials s = 0 /\ MaterialName s n = Done EmptyString
  | Some m =>
      NumMaterials s = Z.of_nat (length (Materials m)) /\
      (1 <= n <= NumMaterials s ->
       exists name, Materials m !! Z.to_nat (n - 1) = Some name /\
                    MaterialName s n = Done name) /\
      (NumMaterials s < n -> MaterialName s n = Done EmptyString) /\
      (n <= 0 -> MaterialName s n = Panicked)
  end.
Proof.
  unfold NumMaterials, MaterialName. destruct (irmf s) as [m |]; [| split; reflexivity].
  split; [reflexivity |]. split; [| split].
  - intros Hn.
    destruct (Z.ltb_spec (Z.of_nat (length (Materials m))) n) as [Hlt | _]; [lia |].
    destruct (Z.ltb_spec (n - 1) 0) as [Hneg | _]; [lia |].
    destruct (Materials m !! Z.to_nat (n - 1)) as [name |] eqn:Hl.
    + exists name. split; reflexivity.
    + apply lookup_ge_None in Hl. lia.
  - intros Hn.
    destruct (Z.ltb_spec (Z.of_nat (length (Materials m))) n) as [_ | Hge]; [reflexivity | lia].
  - intros Hn.
    destruct (Z.ltb_spec (Z.of_nat (length (Materials m))) n) as [Hlt | _]; [lia |].
    destruct (Z.ltb_spec (n - 1) 0) as [_ | Hge]; [reflexivity | lia].
Qed.

(** X2. [NumXSlices] never reports an odd positive count. *)
Theorem NumXSlices_is_even (s : Slicer) (n : Z) :
  NumXSlices s = Done n -> 0 < n -> Z.even n = true.
Proof.
  unfold NumXSlices. destruct (irmf s) as [m |]; [| discriminate].
  cbv zeta. set (k := sliceCount _ _ _). intros [= <-] Hpos.
  rewrite rem2_positive_odd in *.
  destruct (Z.ltb_spec 0 k) as [Hk | Hk]; cbn [andb] in *.
  - destruct (Z.odd k) eqn:Hodd.
    + pose proof (odd_count_small _ _ _ Hodd) as Hsmall. fold k in Hsmall.
      unfold GoInt.incr, GoInt.add.
      rewrite wrap_inRange by (unfold GoInt.minInt, GoInt.maxInt; lia).
      rewrite Z.even_add, <- Z.negb_odd, Hodd. reflexivity.
    + now rewrite <- Z.negb_odd, Hodd.
  - lia.
Qed.

(** X3. A sweep over a box that yields no slice calls nothing and returns
    no error, with or without a backend. *)
Theorem empty_sweep axis (s : Slicer) (m : IRMF) (materialNum : Z)
    (sp : SliceProcessor P) (order : Order) (st : Env World * P) :
  irmf s = Some m ->
  sliceCount (lo axis m) (hi axis m) (delta axis s) <= 0 ->
  RenderSlices axis s materialNum sp order st = (st, Done tt).
Proof.
  intros Hm Hn. rewrite (RenderSlices_body axis s m) by exact Hm.
  unfold renderSlices. replace (Z.to_nat _) with O by lia. reflexivity.
Qed.

Lemma rev_map_seqZ {A : Type} (f : Z -> A) (k : nat) :
  rev (map f (seqZ 0 (Z.of_nat k)))
    = map (fun n => f (Z.of_nat k - n - 1)) (seqZ 0 (Z.of_nat k)).
Proof.
  revert f. induction k as [| k IH]; intros f; [reflexivity |].
  rewrite seqZ_step at 2. cbn [map].
  replace (Z.of_nat (S k)) with (Z.of_nat k + 1) by lia.
  rewrite seqZ_app by lia. rewrite map_app, rev_app_distr.
  change (seqZ (0 + Z.of_nat k) 1) with [0 + Z.of_nat k]. cbn [map rev app].
  f_equal; [f_equal; lia |].
  rewrite IH. rewrite <- (fmap_add_seqZ 1 0). change (Z.add 1 <$> ?l) with (map (Z.add 1) l).
  rewrite map_map. apply map_ext. intros n. f_equal. lia.
Qed.

(** X4. A sweep in the order MaxToMin renders the depths of the sweep in
    the order MinToMax back to front, while the processor is handed
    the same slice indices 0, 1, ... in both. *)
Theorem orders_mirror axis (s : Slicer) (m : IRMF) (materialNum : Z)
    (sp : SliceProcessor P) (st st' : Env World * P) :
  irmf s = Some m ->
  let up := RenderSlices axis s materialNum sp MinToMax st in
  let down := RenderSlices axis s materialNum sp MaxToMin st' in
  snd up = Done tt -> snd down = Done tt ->
  exists evsUp evsDown,
    trace (fst (fst up)) = trace (fst st) ++ evsUp /\
    trace (fst (fst down)) = trace (fst st') ++ evsDown /\
    map fst (rendered evsDown) = rev (map fst (rendered evsUp)) /\
    map sliceIndex (processed evsDown) = map sliceIndex (processed evsUp).
Proof.
  intros Hm up down Hup Hdown.
  destruct (sweep_depths axis s m materialNum sp MinToMax st Hm)
    as (evsUp & k & k' & Htr & Hr & Hp & _ & _ & Hd).
  destruct (sweep_depths axis s m materialNum sp MaxToMin st' Hm)
    as (evsDown & j & j' & Htr' & Hr' & Hp' & _ & _ & Hd').
  fold up in Htr, Hd. fold down in Htr', Hd'.
  destruct (Hd Hup) as [-> ->]. destruct (Hd' Hdown) as [-> ->].
  exists evsUp, evsDown. split; [exact Htr |]. split; [exact Htr' |].
  set (N := sliceCount (lo axis m) (hi axis m) (delta axis s)) in *.
  rewrite Hr, Hr', Hp, Hp', !map_map. cbn [fst sliceIndex]. split; [| reflexivity].
  replace (Z.max 0 N) with (Z.of_nat (Z.to_nat N)) by lia.
  rewrite rev_map_seqZ. apply map_ext_in. intros n Hn.
  apply list_elem_of_In, elem_of_seqZ in Hn.
  unfold depthAt. do 3 f_equal. lia.
Qed.

End Getters.

Section GetterScenarios.

Import Irmf Trace Doubles.

Lemma NumXSlices_is_even_witness : Z.even 4 = true.
Proof. apply (NumXSlices_is_even solidSlicer 4); [reflexivity | lia]. Defined.

Lemma empty_sweep_witness :
  @RenderSlices _ whiteBackend _ AxisZ (tallSlicer 0) 1 countingProcessor MinToMax
    (freshEnv (4, 4), 0) = ((freshEnv (4, 4), 0), Done tt).
Proof.
  apply (@empty_sweep _ whiteBackend _ AxisZ (tallSlicer 0) _ 1 countingProcessor MinToMax
           (freshEnv (4, 4), 0) eq_refl).
  now vm_compute.
Defined.

Lemma orders_mirror_witness :
  exists evsUp evsDown,
    trace (fst (fst (@RenderSlices _ whiteBackend _ AxisZ solidSlicer 1 countingProcessor
                       MinToMax (freshEnv (4, 4), 0)))) = [] ++ evsUp /\
    trace (fst (fst (@RenderSlices _ whiteBackend _ AxisZ solidSlicer 1 countingProcessor
                       MaxToMin (freshEnv (4, 4), 0)))) = [] ++ evsDown /\
    map fst (rendered evsDown) = rev (map fst (rendered evsUp)) /\
    map sliceIndex (processed evsDown) = map sliceIndex (processed evsUp).
Proof.
  exact (@orders_mirror _ whiteBackend _ AxisZ solidSlicer solidBox 1 countingProcessor
           (freshEnv (4, 4), 0) (freshEnv (4, 4), 0) eq_refl eq_refl eq_refl).
Defined.

End GetterScenarios.

(** ** Closing, and preparing a frame *)

Section Frames.

Import Irmf Trace.

Context {World : Type} `{!Backend World} `{!Loader}.

(** X5. After any sequence of [NewModel] calls on a new slicer, [Close]
    calls the [Close] of the backend held, if any, and of no other,
    and no renderer object is left open. It does not uninstall the
    backend: a later [NewModel] of a language of the same kind keeps
    the closed object. *)
Theorem Close_releases_the_backend srcs view umX umY umZ (w : World) :
  let st := Spec.loadAll srcs (Init view umX umY umZ, Doubles.freshEnv w) in
  let env' := Close (fst st) (snd st) in
  unclosed (trace env') [] = [] /\
  match renderer (fst st) with
  | Some r =>
      trace env' = trace (snd st) ++ [EvClose r] /\
      forall src m,
        newModel src = inl m -> Spec.requiredKind (Language m) = Some (kind r) ->
        NewModel (fst st) src env' = ((setIRMF (fst st) (Some m), env'), None)
  | None => env' = snd st
  end.
Proof.
  intros st env'.
  assert (Hinv : Spec.holdsItsBackend st).
  { apply loadAll_keeps_invariant. split; [reflexivity | discriminate]. }
  destruct Hinv as [Hopen _]. subst env'. unfold Close.
  destruct (renderer (fst st)) as [r |] eqn:Hr.
  - split; [| split].
    + unfold callClose, record. cbn [trace]. rewrite unclosed_app, Hopen.
      cbn. now rewrite ref_eqb_refl.
    + reflexivity.
    + intros src m Hsrc Hkind. unfold NewModel. rewrite Hsrc.
      unfold Spec.requiredKind in Hkind.
      assert (Hsel : forall k env, kind r = k ->
                selectRenderer k (setIRMF (fst st) (Some m)) env
                  = (setIRMF (fst st) (Some m), env)).
      { intros k env Hk. unfold selectRenderer, isKind. cbn [setIRMF renderer].
        rewrite Hr, Hk. now destruct k. }
      destruct (String.eqb (Language m) "glsl" || String.eqb (Language m) "").
      * injection Hkind as Hk. now rewrite Hsel.
      * destruct (String.eqb (Language m) "wgsl"); [| discriminate].
        injection Hkind as Hk. now rewrite Hsel.
  - split; [exact Hopen | reflexivity].
Qed.

(** X6. The raster [PrepareRenderZ] asks the backend for is as wide as
    [NumXSlices] says, and as high as [NumYSlices] says unless the
    aspect ratio has replaced the height: the parity of the X count
    adjusts both counts exactly as it adjusts the raster. *)
Theorem z_raster_matches_counts (s : Slicer) (m : IRMF) (r : RendererRef)
    (env : Env World) :
  irmf s = Some m -> renderer s = Some r ->
  let p := plane AxisZ s m in
  let aspectRatio :=
    Float32.div (Float32.mul (Float32.sub (right p) (left p)) (deltaH p))
                (Float32.mul (Float32.sub (top p) (bottom p)) (deltaW p)) in
  let width := sliceCount (left p) (right p) (deltaW p) in
  let height := sliceCount (bottom p) (top p) (deltaH p) in
  exists evs nx ny h,
    trace (fst (PrepareRenderZ s env)) = trace env ++ evs /\
    initialized evs = [(nx, h)] /\
    NumXSlices s = Done nx /\
    NumYSlices s = Done ny /\
    (Float32.ltb (Float32.mul aspectRatio (Float32.ofInt height)) (Float32.ofInt width)
       = false -> h = ny).
Proof.
  intros Hm Hr p aspectRatio width height.
  destruct (PrepareRender_init AxisZ s m r env Hm Hr) as [evs [Htr Hinit]].
  fold p in Hinit. cbn [PrepareRender] in Htr.
  unfold NumXSlices, NumYSlices. rewrite Hm. cbv zeta.
  change (sliceCount (v0 (Min m)) (v0 (Max m)) (deltaX s)) with width.
  change (sliceCount (v1 (Min m)) (v1 (Max m)) (deltaY s)) with height.
  assert (Hw : fst (rasterSize (left p) (right p) (bottom p) (top p) (deltaW p) (deltaH p))
               = width).
  { unfold rasterSize. cbv zeta.
    match goal with |- context [if ?c then _ else _] => destruct c end; reflexivity. }
  assert (Hh : Float32.ltb (Float32.mul aspectRatio (Float32.ofInt height))
                 (Float32.ofInt width) = false ->
               snd (rasterSize (left p) (right p) (bottom p) (top p) (deltaW p) (deltaH p))
               = height).
  { intros Hc. unfold rasterSize. cbv zeta. fold aspectRatio.
    unfold sliceCount in width, height. fold width height. now rewrite Hc. }
  rewrite Hw in Hinit. unfold evenSize in Hinit.
  destruct (GoInt.rem width 2 =? 1); (eexists evs, _, _, _;
    split; [exact Htr |]; split; [exact Hinit |]; split; [reflexivity |];
    split; [reflexivity |]; intros Hc; now rewrite (Hh Hc)).
Qed.

(** X7. The calls of a frame preparation: [Init], and [Prepare] only
    after [Init] has succeeded, both on the backend installed; the
    error of either is returned as it is. [Prepare] is handed the
    model, the orthographic projection of the rectangle of the plane
    between 0.1 and 100, and the identity as the model matrix. *)
Theorem PrepareRender_protocol axis (s : Slicer) (m : IRMF) (r : RendererRef)
    (env : Env World) :
  irmf s = Some m -> renderer s = Some r ->
  let p := plane axis s m in
  let run := PrepareRender axis s env in
  exists evs,
    trace (fst run) = trace env ++ evs /\
    match evs with
    | [EvInit r1 _ _ v (Some err)] =>
        r1 = r /\ v = view s /\ snd run = Failed err
    | [EvInit r1 _ _ v None; EvPrepare r2 im _ _ projection _ model res] =>
        r1 = r /\ v = view s /\ r2 = r /\ im = Some m /\
        projection = Ortho (left p) (right p) (bottom p) (top p)
                       Float32.near Float32.far /\
        model = Ident4 /\
        snd run = ofError res
    | _ => False
    end.
Proof.
  intros Hm Hr p run. subst run p.
  destruct axis; cbn [PrepareRender plane left right bottom top deltaW deltaH];
    unfold PrepareRenderX, PrepareRenderY, PrepareRenderZ; rewrite Hm; cbv zeta;
    destruct (rasterSize _ _ _ _ _ _) as [w h]; unfold returning, prepareRender;
    destruct (evenSize w h) as [w' h']; rewrite Hr;
    destruct (backendInit r w' h' (view s) (world env)) as [w1 [err |]];
    try (eexists; split; [reflexivity |]; cbn; repeat split; reflexivity);
    destruct (backendPrepare _ _ _ _ _ _ _ _) as [w2 e2];
    (eexists; split; [cbn; rewrite <- app_assoc; reflexivity |]);
    cbn; rewrite Hm; repeat split; reflexivity.
Qed.

(** X8. The vertices handed to [Prepare]: the two triangles ll-lr-ul and
    lr-ur-ul of the rectangle of the plane, at coordinate zero along
    the axis, each vertex followed by its texture coordinates. The
    position columns of the package-level array are all overwritten,
    so that nothing an earlier call has stored there is left. *)
Theorem plane_vertices axis (s : Slicer) (m : IRMF) (env : Env World) :
  irmf s = Some m ->
  let p := plane axis s m in
  let corner (h v : float32) :=
    match axis with
    | AxisX => [f0; h; v]
    | AxisY => [h; f0; v]
    | AxisZ => [h; v; f0]
    end in
  let quad l r b t :=
    corner l b ++ [f1; f0] ++ corner r b ++ [f0; f0] ++ corner l t ++ [f1; f1] ++
    corner r b ++ [f0; f0] ++ corner r t ++ [f0; f1] ++ corner l t ++ [f1; f1] in
  let store l r b t a :=
    match axis with
    | AxisX => assign3 12 22 27 t (assign3 2 7 17 b (assign3 6 16 21 r (assign3 1 11 26 l a)))
    | AxisY => assign3 12 22 27 t (assign3 2 7 17 b (assign3 5 15 20 r (assign3 0 10 25 l a)))
    | AxisZ => assign3 11 21 26 t (assign3 1 6 16 b (assign3 5 15 20 r (assign3 0 10 25 l a)))
    end in
  (forall r1 im vec3Str planeVertices projection camera model res,
      In (EvPrepare r1 im vec3Str planeVertices projection camera model res)
         (trace (fst (PrepareRender axis s env))) ->
      In (EvPrepare r1 im vec3Str planeVertices projection camera model res) (trace env) \/
      planeVertices = quad (left p) (right p) (bottom p) (top p)) /\
  (forall l r b t l' r' b' t',
      store l r b t (quad l' r' b' t') = quad l r b t).
Proof.
  intros Hm p corner quad store. split.
  - intros r1 im vec3Str planeVertices projection camera model res.
    subst p. destruct axis; cbn [PrepareRender plane left right bottom top deltaW deltaH];
      unfold PrepareRenderX, PrepareRenderY, PrepareRenderZ; rewrite Hm; cbv zeta;
      destruct (rasterSize _ _ _ _ _ _) as [w h]; unfold returning, prepareRender;
      destruct (evenSize w h) as [w' h'];
      (destruct (renderer s) as [r |]; [| cbn; tauto]);
      destruct (backendInit r w' h' (view s) (world env)) as [w1 [err |]];
      try destruct (backendPrepare _ _ _ _ _ _ _ _) as [w2 e2];
      cbn [fst record trace]; rewrite ?in_app_iff; cbn [In];
      intros Hin; intuition (try discriminate);
      match goal with
      | H : EvPrepare _ _ _ _ _ _ _ _ = EvPrepare _ _ _ _ _ _ _ _ |- _ =>
          injection H as _ _ _ <- _ _ _ _; right; reflexivity
      end.
  - intros l r b t l' r' b' t'. subst store quad corner. destruct axis; reflexivity.
Qed.

End Frames.

Section FrameScenarios.

Import Irmf Trace Doubles.

Lemma z_raster_matches_counts_witness :
  exists evs nx ny h,
    trace (fst (@PrepareRenderZ _ whiteBackend solidSlicer (freshEnv (0, 0)))) = [] ++ evs /\
    initialized evs = [(nx, h)] /\
    NumXSlices solidSlicer = Done nx /\
    NumYSlices solidSlicer = Done ny /\
    h = ny.
Proof.
  destruct (@z_raster_matches_counts _ whiteBackend solidSlicer solidBox glRenderer
              (freshEnv (0, 0)) eq_refl eq_refl)
    as (evs & nx & ny & h & Htr & Hinit & Hx & Hy & Hh).
  exists evs, nx, ny, h. repeat split; try assumption. apply Hh. now vm_compute.
Defined.

Lemma PrepareRender_protocol_witness :
  exists evs,
    trace (fst (@PrepareRender _ whiteBackend AxisX solidSlicer (freshEnv (0, 0))))
      = [] ++ evs /\
    length evs = 2%nat.
Proof.
  destruct (@PrepareRender_protocol _ whiteBackend AxisX solidSlicer solidBox glRenderer
              (freshEnv (0, 0)) eq_refl eq_refl) as [evs [Htr Hshape]].
  exists evs. split; [exact Htr |].
  cbn in Htr. rewrite <- Htr. reflexivity.
Defined.

Lemma plane_vertices_witness :
  assign3 11 21 26 f1 (assign3 1 6 16 f0 (assign3 5 15 20 f1 (assign3 0 10 25 f0
    zPlaneVertices)))
  = [f0; f0; f0; f1; f0;
     f1; f0; f0; f0; f0;
     f0; f1; f0; f1; f1;
     f1; f0; f0; f0; f0;
     f1; f1; f0; f0; f1;
     f0; f1; f0; f1; f1].
Proof.
  exact (proj2 (@plane_vertices _ whiteBackend AxisZ solidSlicer solidBox
                  (freshEnv (0, 0)) eq_refl) f0 f1 f0 f1 fm1 f1 fm1 f1).
Defined.

End FrameScenarios.

(** ** Slicing into voxels *)

Section Voxels.

Import GoImage Binvox Irmf Trace.

Context {World : Type} `{!Backend World}.

(** The processor ends a sweep in the state its calls have left. *)
Lemma sliceLoop_replay {P : Type} (s : Slicer) axis materialNum (sp : SliceProcessor P)
    depthOf voxelRadius todo :
  forall n (st : Env World * P),
    exists evs,
      trace (fst (fst (sliceLoop s axis materialNum sp depthOf voxelRadius todo n st)))
        = trace (fst st) ++ evs /\
      snd (fst (sliceLoop s axis materialNum sp depthOf voxelRadius todo n st))
        = replay sp evs (snd st).
Proof.
  induction todo as [| todo IH]; intros n [env p]; cbn [sliceLoop].
  - exists []. split; [cbn; now rewrite app_nil_r | reflexivity].
  - unfold renderSlice. destruct (renderer s) as [r |].
    + cbn [fst snd].
      destruct (backendRender r (depthOf n) materialNum (world env)) as [w [img | err]].
      * unfold callProcess. cbn [fst snd].
        destruct (sp n (depthOf n) voxelRadius img p) as [p' [err |]] eqn:Hsp.
        -- eexists. split; [cbn; rewrite <- app_assoc; reflexivity |].
           cbn. now rewrite Hsp.
        -- match goal with
           | |- context [sliceLoop _ _ _ _ _ _ todo (n + 1) ?st'] =>
               destruct (IH (n + 1) st') as [evs [Htr Hp]]
           end.
           eexists. split.
           ++ rewrite Htr. cbn. rewrite <- !app_assoc. reflexivity.
           ++ rewrite Hp. cbn. now rewrite Hsp.
      * eexists. split; [cbn; reflexivity | reflexivity].
    + exists []. split; [cbn; now rewrite app_nil_r | reflexivity].
Qed.

(** What one call of [ProcessZSlice] does to the voxel set. *)
Lemma ProcessZSlice_effect sliceNum z voxelRadius img cb :
  let b := Bounds img in
  let cb' := fst (ProcessZSlice sliceNum z voxelRadius img cb) in
  NX cb' = GoInt.sub (MaxX b) (MinX b) /\
  NY cb' = GoInt.sub (MaxY b) (MinY b) /\
  NZ cb' = NZ cb /\
  forall u v w,
    (u, v, w) ∈ WhiteVoxels cb' <->
    (u, v, w) ∈ WhiteVoxels cb \/
    (w = sliceNum /\ MinX b <= u < MaxX b /\ MinY b <= v < MaxY b /\
     R (At img u v) <> 0%N).
Proof.
  intros b cb'. subst cb'. unfold ProcessZSlice. cbn [fst]. fold b.
  destruct (mark_rows_dims sliceNum img (seqZ (MinX b) (MaxX b - MinX b))
              (seqZ (MinY b) (MaxY b - MinY b))
              (setNXNY (GoInt.sub (MaxX b) (MinX b)) (GoInt.sub (MaxY b) (MinY b)) cb))
    as (Hx & Hy & Hz).
  split; [exact Hx |]. split; [exact Hy |]. split; [exact Hz |].
  intros u v w.
  rewrite (mark_rows_voxels sliceNum img), !elem_of_seqZ. cbn [setNXNY WhiteVoxels].
  split; intros [Hin | H]; [tauto | right | tauto | right]; repeat split; try tauto; lia.
Qed.

(** The voxel set after the calls of a trace. *)
Lemma replay_voxels evs : forall cb,
  NZ (replay ProcessZSlice evs cb) = NZ cb /\
  forall u v w,
    (u, v, w) ∈ WhiteVoxels (replay ProcessZSlice evs cb) <->
    (u, v, w) ∈ WhiteVoxels cb \/
    exists depth voxelRadius img res,
      In (EvProcess w depth voxelRadius img res) evs /\
      MinX (Bounds img) <= u < MaxX (Bounds img) /\
      MinY (Bounds img) <= v < MaxY (Bounds img) /\
      R (At img u v) <> 0%N.
Proof.
  induction evs as [| ev evs IH]; intros cb.
  - split; [reflexivity |]. intros u v w. cbn. split; [tauto |].
    intros [Hin | (d & vr & img & res & [] & _)]. exact Hin.
  - assert (Hskip : (forall n d vr img res, ev <> EvProcess n d vr img res) ->
                    replay ProcessZSlice (ev :: evs) cb = replay ProcessZSlice evs cb).
    { intros Hne. destruct ev; try reflexivity. now contradiction (Hne sliceNum depth voxelRadius img res). }
    destruct ev as [r | r | r w0 h0 v0 res0 | r im vs pv pr ca mo res0 | r d mat res0
                   | n d vr img res0].
    1-5: rewrite Hskip by discriminate; destruct (IH cb) as [Hz Hv];
         (split; [exact Hz |]); intros u v w; rewrite Hv; cbn [In];
         split; (intros [Hin | (d' & vr' & img' & res' & Hev & Hb)]; [tauto | right]);
         exists d', vr', img', res'; (split; [| exact Hb]);
         [now right | destruct Hev as [Heq | Hev]; [discriminate | exact Hev]].
    change (replay ProcessZSlice (EvProcess n d vr img res0 :: evs) cb)
      with (replay ProcessZSlice evs (fst (ProcessZSlice n d vr img cb))).
    destruct (IH (fst (ProcessZSlice n d vr img cb))) as [Hz Hv].
    destruct (ProcessZSlice_effect n d vr img cb) as (_ & _ & Hz1 & Hv1).
    cbv zeta in Hz1, Hv1. split; [now rewrite Hz |].
    intros u v w. rewrite Hv, Hv1. cbn [In]. split.
    + intros [[Hin | (-> & Hb)] | (d' & vr' & img' & res' & Hev & Hb)].
      * now left.
      * right. exists d, vr, img, res0. split; [now left | exact Hb].
      * right. exists d', vr', img', res'. split; [now right | exact Hb].
    + intros [Hin | (d' & vr' & img' & res' & [Heq | Hev] & Hb)].
      * left. now left.
      * injection Heq as <- <- <- <- <-. left. right. split; [reflexivity | exact Hb].
      * right. exists d', vr', img', res'. split; [exact Hev | exact Hb].
Qed.

Lemma replay_app {P : Type} (sp : SliceProcessor P) evs1 evs2 p :
  replay sp (evs1 ++ evs2) p = replay sp evs2 (replay sp evs1 p).
Proof. unfold replay. apply foldl_app. Qed.

(** The dimensions after the calls of a trace: those of the last
    raster processed. *)
Lemma replay_dims evs : forall cb,
  match last (processedImages evs) with
  | Some img =>
      NX (replay ProcessZSlice evs cb) = GoInt.sub (MaxX (Bounds img)) (MinX (Bounds img)) /\
      NY (replay ProcessZSlice evs cb) = GoInt.sub (MaxY (Bounds img)) (MinY (Bounds img))
  | None =>
      NX (replay ProcessZSlice evs cb) = NX cb /\ NY (replay ProcessZSlice evs cb) = NY cb
  end.
Proof.
  induction evs as [| ev evs IH] using rev_ind; intros cb; [split; reflexivity |].
  rewrite replay_app. unfold processedImages. rewrite omap_app.
  destruct ev as [r | r | r w0 h0 v0 res0 | r im vs pv pr ca mo res0 | r d mat res0
                 | n d vr img res0];
    try (change (omap processedImage [_]) with (@nil Image); rewrite app_nil_r; apply IH).
  change (omap processedImage [EvProcess n d vr img res0]) with [img].
  rewrite last_snoc.
  change (replay ProcessZSlice [EvProcess n d vr img res0] (replay ProcessZSlice evs cb))
    with (fst (ProcessZSlice n d vr img (replay ProcessZSlice evs cb))).
  destruct (ProcessZSlice_effect n d vr img (replay ProcessZSlice evs cb))
    as (Hx & Hy & _).
  split; [exact Hx | exact Hy].
Qed.

(** X9. A Z sweep into [ProcessZSlice], as [Slice] runs it: afterwards
    the occupied cells are those occupied before together with
    (u, v, n) for every pixel (u, v) with a non-zero red channel of
    the raster rendered for slice n; NZ is left as declared, and NX
    and NY are the width and the height of the last raster processed
    (the declared ones when there was none). *)
Theorem sweep_fills_voxels (s : Slicer) (materialNum : Z) (order : Order)
    (env : Env World) (cb : BinVOX) :
  let run := RenderZSlices s materialNum ProcessZSlice order (env, cb) in
  let cb' := snd (fst run) in
  exists evs,
    trace (fst (fst run)) = trace env ++ evs /\
    NZ cb' = NZ cb /\
    (forall u v w,
        (u, v, w) ∈ WhiteVoxels cb' <->
        (u, v, w) ∈ WhiteVoxels cb \/
        exists depth voxelRadius img res,
          In (EvProcess w depth voxelRadius img res) evs /\
          MinX (Bounds img) <= u < MaxX (Bounds img) /\
          MinY (Bounds img) <= v < MaxY (Bounds img) /\
          R (At img u v) <> 0%N) /\
    match last (processedImages evs) with
    | Some img =>
        NX cb' = GoInt.sub (MaxX (Bounds img)) (MinX (Bounds img)) /\
        NY cb' = GoInt.sub (MaxY (Bounds img)) (MinY (Bounds img))
    | None => NX cb' = NX cb /\ NY cb' = NY cb
    end.
Proof.
  intros run cb'. subst cb' run. unfold RenderZSlices.
  destruct (irmf s) as [m |].
  - unfold renderSlices.
    match goal with
    | |- context [sliceLoop s ?ax _ _ ?d ?vr ?todo 0 _] =>
        destruct (sliceLoop_replay s ax materialNum ProcessZSlice d vr todo 0 (env, cb))
          as [evs [Htr Hp]]
    end.
    exists evs. split; [exact Htr |]. rewrite Hp. cbn [snd].
    destruct (replay_voxels evs cb) as [Hz Hv].
    split; [exact Hz |]. split; [exact Hv |]. apply replay_dims.
  - exists []. cbn [fst snd]. split; [now rewrite app_nil_r |].
    split; [reflexivity |]. split; [| split; reflexivity].
    intros u v w. split; [tauto |]. intros [Hin | (d & vr & img & res & [] & _)]. exact Hin.
Qed.

End Voxels.

(** ** Slicing a model of package irmf into files *)

Section SliceIrmf.

Import GoImage Binvox Irmf Trace.

Context {World Files : Type} `{!Backend World} `{!Writer Files}.

(** The cells a sweep marks lie in the layers of the slices it has
    processed. *)
Lemma sweep_layers (s : Irmf.Slicer) (m : IRMF) materialNum order (env : Env World)
    (cb : BinVOX) :
  irmf s = Some m ->
  let numSlices := sliceCount (v2 (Min m)) (v2 (Max m)) (deltaZ s) in
  let cb' := snd (fst (Irmf.RenderZSlices s materialNum ProcessZSlice order (env, cb))) in
  NZ cb' = NZ cb /\
  forall u v w,
    (u, v, w) ∈ WhiteVoxels cb' -> (u, v, w) ∈ WhiteVoxels cb \/ 0 <= w < numSlices.
Proof.
  intros Hm numSlices cb'.
  pose proof (sweep_events AxisZ s m materialNum ProcessZSlice order (env, cb) Hm)
    as Hev. cbn zeta in Hev. cbn [RenderSlices lo hi delta fst] in Hev.
  destruct Hev as (evs & Htr & Hshape).
  subst cb'. revert Htr Hshape. unfold Irmf.RenderZSlices. rewrite Hm.
  unfold renderSlices. fold numSlices. intros Htr Hshape.
  match type of Htr with
  | context [sliceLoop s ?ax _ _ ?d ?vr ?todo 0 _] =>
      destruct (sliceLoop_replay s ax materialNum ProcessZSlice d vr todo 0 (env, cb))
        as (evs' & Htr' & Hp)
  end.
  cbn [fst] in Htr'. rewrite Htr in Htr'. apply app_inv_head in Htr'. subst evs'.
  rewrite Hp. cbn [snd]. destruct (replay_voxels evs cb) as [Hz Hv].
  split; [exact Hz |]. intros u v w Hin. apply Hv in Hin.
  destruct Hin as [Hin | (d & vr & img & res & Hev & _)]; [now left | right].
  destruct (renderer s) as [r |].
  - pose proof (processed_index_bound _ _ _ _ _ _ _ _ _ _ _ _ _ _ Hshape Hev) as Hb. lia.
  - destruct Hshape as [-> _]. destruct Hev.
Qed.

(** The file of one material, if it gets as far as [Write]. *)
Lemma sliceMaterial_layers base (s : Irmf.Slicer) materialNum
    (st : @SliceState (Env World) Files) :
  let res := sliceMaterial base (ofIrmf s) materialNum st in
  snd (fst res) = snd st \/
  exists w, snd (fst res) = snd st ++ [w] /\
            Irmf.NumZSlices s = Done (NZ (wBinvox w)) /\
            forall u v z, (u, v, z) ∈ WhiteVoxels (wBinvox w) -> 0 <= z < NZ (wBinvox w).
Proof.
  destruct st as [[σ files] writes]. cbn zeta. unfold sliceMaterial.
  cbn [ofIrmf Binvox.MaterialName Binvox.MBB Binvox.PrepareRenderZ Binvox.RenderZSlices].
  destruct (Irmf.MaterialName s materialNum) as [name | e |]; [| now left ..].
  destruct (Irmf.MBB s) as [lo hi].
  unfold dimensions. cbn [ofIrmf Binvox.NumXSlices Binvox.NumYSlices Binvox.NumZSlices].
  destruct (Irmf.NumXSlices s) as [nx | e |]; [| now left ..].
  destruct (Irmf.NumYSlices s) as [ny | e |]; [| now left ..].
  destruct (Irmf.NumZSlices s) as [nz | e |] eqn:Hnz; [| now left ..].
  destruct (Irmf.PrepareRenderZ s σ) as [σ1 [[] | e |]]; [| now left ..].
  unfold Irmf.NumZSlices in Hnz. destruct (irmf s) as [m |] eqn:Hm; [| discriminate].
  injection Hnz as <-.
  pose proof (sweep_layers s m materialNum MinToMax σ1
                (New nx ny (sliceCount (v2 (Min m)) (v2 (Max m)) (deltaZ s))
                   (ofFloat32 (v0 lo)) (ofFloat32 (v1 lo)) (ofFloat32 (v2 lo))
                   (ofFloat32 (Float32.sub (v2 hi) (v2 lo))) false) Hm) as Hl.
  cbn zeta in Hl.
  destruct (Irmf.RenderZSlices s materialNum ProcessZSlice MinToMax _)
    as [[σ2 b2] [[] | e |]]; [| now left ..].
  cbn [fst snd New NZ WhiteVoxels] in Hl. destruct Hl as [Hz Hv].
  destruct (binvoxWrite _ 0 0 0 (NX b2) (NY b2) (NZ b2) b2 files) as [files' [e |]];
    right; eexists; (split; [reflexivity |]); cbn [wBinvox];
    (split; [now rewrite Hz |]); intros u v z Hin; apply Hv in Hin;
    (destruct Hin as [Hin | Hin]; [set_solver | now rewrite Hz]).
Qed.

(** X10. The files of a model of package irmf: every voxel set handed to
    [Write] declares as many layers as [NumZSlices] says, and every
    occupied cell (u, v, w) of it lies in one of them. *)
Theorem Slice_voxels_lie_in_layers base (s : Irmf.Slicer) (env : Env World)
    (files : Files) :
  let writes := snd (fst (Slice base (ofIrmf s) env files)) in
  forall w, In w writes ->
    Irmf.NumZSlices s = Done (NZ (wBinvox w)) /\
    forall u v z, (u, v, z) ∈ WhiteVoxels (wBinvox w) -> 0 <= z < NZ (wBinvox w).
Proof.
  cbn zeta. unfold Slice.
  assert (Hgen : forall todo materialNum (st : @SliceState (Env World) Files),
            exists ws,
              snd (fst (sliceFrom base (ofIrmf s) todo materialNum st)) = snd st ++ ws /\
              forall w, In w ws ->
                Irmf.NumZSlices s = Done (NZ (wBinvox w)) /\
                forall u v z, (u, v, z) ∈ WhiteVoxels (wBinvox w) ->
                              0 <= z < NZ (wBinvox w)).
  { induction todo as [| todo IH]; intros materialNum st; cbn [sliceFrom].
    - exists []. split; [cbn; now rewrite app_nil_r | intros w []].
    - pose proof (sliceMaterial_layers base s materialNum st) as Hone. cbn zeta in Hone.
      destruct (sliceMaterial base (ofIrmf s) materialNum st) as [st1 r].
      cbn [fst snd] in Hone.
      destruct (IH (materialNum + 1) st1) as (ws & Hws & Hall).
      destruct Hone as [Hsame | (w & Hadd & Hw)].
      + destruct r as [[] | e |].
        * exists ws. split; [now rewrite Hws, Hsame | exact Hall].
        * exists []. cbn [fst snd]. split; [now rewrite app_nil_r | intros w []].
        * exists []. cbn [fst snd]. split; [now rewrite app_nil_r | intros w []].
      + destruct r as [[] | e |].
        * exists (w :: ws). split; [rewrite Hws, Hadd, <- app_assoc; reflexivity |].
          intros w' [<- | Hin]; [exact Hw | apply Hall, Hin].
        * exists [w]. cbn [fst snd]. split; [exact Hadd |].
          intros w' [<- | []]. exact Hw.
        * exists [w]. cbn [fst snd]. split; [exact Hadd |].
          intros w' [<- | []]. exact Hw. }
  destruct (Hgen (Z.to_nat (Binvox.NumMaterials (ofIrmf s))) 1 ((env, files), []))
    as (ws & Hws & Hall).
  cbn [snd app] in Hws. rewrite Hws. exact Hall.
Qed.

(** X11. Without a backend [Slice] gives up at the first material: it
    returns the error "renderer not initialized" behind
    "PrepareRenderZ: ", and it has rendered and written nothing. *)
Theorem Slice_without_backend base (s : Irmf.Slicer) (m : IRMF) (env : Env World)
    (files : Files) :
  irmf s = Some m -> Materials m <> [] -> renderer s = None ->
  Slice base (ofIrmf s) env files
    = (((env, files), []), Failed (ErrPrepareRenderZ errNotInitialized)).
Proof.
  intros Hm Hmat Hr. unfold Slice. cbn [ofIrmf Binvox.NumMaterials]. unfold Irmf.NumMaterials.
  rewrite Hm. destruct (Materials m) as [| name names] eqn:Hnames; [contradiction |].
  cbn [length]. rewrite Nat2Z.id. cbn [sliceFrom]. unfold sliceMaterial.
  cbn [ofIrmf Binvox.MaterialName Binvox.MBB Binvox.PrepareRenderZ Binvox.RenderZSlices].
  unfold Irmf.MaterialName, Irmf.MBB, dimensions.
  cbn [ofIrmf Binvox.NumXSlices Binvox.NumYSlices Binvox.NumZSlices].
  unfold Irmf.NumXSlices, Irmf.NumYSlices, Irmf.NumZSlices, Irmf.PrepareRenderZ.
  rewrite Hm, Hnames. cbn [length].
  destruct (Z.ltb_spec (Z.of_nat (S (length names))) 1) as [Hlt | _]; [lia |].
  cbn [Z.sub Z.ltb Z.compare Z.to_nat lookup list_lookup Z.opp Z.add Z.pos_sub].
  change (1 - 1 <? 0) with false. cbv iota. change (Z.to_nat (1 - 1)) with O.
  cbn [lookup list_lookup]. cbv zeta.
  destruct (rasterSize _ _ _ _ _ _) as [w h].
  unfold returning, prepareRender. destruct (evenSize w h) as [w' h']. rewrite Hr.
  reflexivity.
Qed.

End SliceIrmf.

Section SliceIrmfScenarios.

Import Binvox Doubles.

Lemma Slice_voxels_lie_in_layers_witness :
  let writes := snd (fst (@Slice _ _ nullWriter "b" (@ofIrmf _ whiteBackend solidSlicer)
                            (freshEnv (0, 0)) tt)) in
  length writes = 1%nat /\
  List.Forall (fun w => NZ (wBinvox w) = 3 /\
                        forall u v z, (u, v, z) ∈ WhiteVoxels (wBinvox w) -> 0 <= z < 3)
              writes.
Proof.
  cbv zeta. split; [now vm_compute |].
  apply List.Forall_forall. intros w Hin.
  destruct (@Slice_voxels_lie_in_layers _ _ whiteBackend nullWriter "b" solidSlicer
              (freshEnv (0, 0)) tt w Hin) as [Hz Hv].
  assert (Hn : Irmf.NumZSlices solidSlicer = Done 3) by (vm_compute; reflexivity).
  rewrite Hn in Hz. injection Hz as Hz. rewrite <- Hz in Hv.
  split; [symmetry; exact Hz | exact Hv].
Defined.

Lemma Slice_without_backend_witness :
  @Slice _ _ nullWriter "b" (@ofIrmf _ whiteBackend bareSlicer) (freshEnv (0, 0)) tt
    = (((freshEnv (0, 0), tt), []), Failed (ErrPrepareRenderZ Irmf.errNotInitialized)).
Proof.
  apply (@Slice_without_backend _ _ whiteBackend nullWriter "b" bareSlicer solidBox);
    [reflexivity | discriminate | reflexivity].
Defined.

End SliceIrmfScenarios.

(** ** The files of a run *)

Section Files.

Import Binvox.

Context {Σ Files : Type} `{!Writer Files}.

Variables (baseFilename : string) (slicer : Slicer Σ).

Lemma sliceMaterial_result m (st : @SliceState Σ Files) :
  let res := sliceMaterial baseFilename slicer m st in
  (snd (fst res) = snd st /\ snd res <> Done tt) \/
  (exists w, snd (fst res) = snd st ++ [w] /\
             ((wResult w = None /\ snd res = Done tt) \/
              (exists e, wResult w = Some e /\ snd res = Failed (ErrWrite e)))).
Proof.
  destruct st as [[σ files] writes]. cbn zeta. unfold sliceMaterial.
  destruct (MaterialName slicer m) as [name | e |];
    [| left; cbn; split; [reflexivity | discriminate] ..].
  destruct (MBB slicer) as [lo hi].
  destruct (dimensions slicer) as [[[nx ny] nz] | e |];
    [| left; cbn; split; [reflexivity | discriminate] ..].
  destruct (PrepareRenderZ slicer σ) as [σ1 [[] | e |]];
    [| left; cbn; split; [reflexivity | discriminate] ..].
  destruct (RenderZSlices slicer BinVOX m ProcessZSlice Irmf.MinToMax _)
    as [[σ2 b2] [[] | e |]];
    [| left; cbn; split; [reflexivity | discriminate] ..].
  destruct (binvoxWrite _ 0 0 0 (NX b2) (NY b2) (NZ b2) b2 files) as [files' [e |]];
    right; eexists; (split; [reflexivity |]); cbn.
  - right. exists e. split; reflexivity.
  - left. split; reflexivity.
Qed.

Lemma sliceFrom_results todo : forall m (st : @SliceState Σ Files),
  let res := sliceFrom baseFilename slicer todo m st in
  exists ws,
    snd (fst res) = snd st ++ ws /\
    (forall (i : nat) w,
        ws !! i = Some w ->
        wResult w = None \/
        (S i = length ws /\ exists e, wResult w = Some e /\ snd res = Failed (ErrWrite e))) /\
    (snd res = Done tt -> forall (i : nat) w, ws !! i = Some w -> wResult w = None).
Proof.
  induction todo as [| todo IH]; intros m st; cbn zeta; cbn [sliceFrom].
  - exists []. split; [cbn; now rewrite app_nil_r |]. split; intros; discriminate.
  - pose proof (sliceMaterial_result m st) as Hone. cbn zeta in Hone.
    destruct (sliceMaterial baseFilename slicer m st) as [st1 r] eqn:Hs.
    cbn [fst snd] in Hone.
    destruct Hone as [[Hsame Hne] | (w & Hadd & [[Hres Hr] | (e & Hres & Hr)])].
    + destruct r as [[] | e |]; [contradiction | |];
        (exists []; cbn [fst snd]; split; [now rewrite app_nil_r |];
         split; [intros; discriminate | discriminate]).
    + subst r. specialize (IH (m + 1) st1). cbn zeta in IH.
      destruct IH as (ws & Hws & Hall & Hdone).
      exists (w :: ws). split; [rewrite Hws, Hadd, <- app_assoc; reflexivity |]. split.
      * intros [| i] w' H; cbn in H.
        -- injection H as <-. now left.
        -- destruct (Hall i w' H) as [Hn | (Hlast & e & He & Ho)]; [now left |].
           right. split; [cbn; lia |]. exists e. split; assumption.
      * intros Hd [| i] w' H; cbn in H.
        -- now injection H as <-.
        -- apply (Hdone Hd i w' H).
    + subst r. exists [w]. cbn [fst snd]. split; [exact Hadd |]. split.
      * intros [| i] w' H; cbn in H; [| discriminate]. injection H as <-.
        right. split; [reflexivity |]. exists e. split; [exact Hres | reflexivity].
      * discriminate.
Qed.

(** X12. [Slice] stops at the first file that cannot be written: every
    call of [Write] but the last has returned no error, and when the
    last one has, [Slice] returns that error behind "Write: ". After
    a run without error every file has been written. *)
Theorem Slice_stops_at_failed_write (σ : Σ) (files : Files) :
  let run := Slice baseFilename slicer σ files in
  let writes := snd (fst run) in
  (forall (i : nat) w,
      writes !! i = Some w ->
      wResult w = None \/
      (S i = length writes /\
       exists e, wResult w = Some e /\ snd run = Failed (ErrWrite e))) /\
  (snd run = Done tt -> forall (i : nat) w, writes !! i = Some w -> wResult w = None).
Proof.
  cbn zeta. unfold Slice.
  destruct (sliceFrom_results (Z.to_nat (NumMaterials slicer)) 1 ((σ, files), []))
    as (ws & Hws & Hall & Hdone).
  cbn zeta in Hws, Hall, Hdone. cbn [snd app] in Hws. rewrite Hws. split; assumption.
Qed.

Lemma string_app_inv_head (a b c : string) : (a ++ b = a ++ c)%string -> b = c.
Proof.
  induction a as [| x a IH]; [trivial |].
  rewrite !string_app_cons. intros [= H]. apply IH, H.
Qed.

(** Decimal digits in front of a hyphen are read off unambiguously. *)
Lemma digits_before_hyphen (d1 : string) : forall d2 r1 r2 : string,
  Spec.allDigits d1 = true -> Spec.allDigits d2 = true ->
  (d1 ++ String "-" r1 = d2 ++ String "-" r2)%string -> d1 = d2.
Proof.
  induction d1 as [| c d1 IH]; intros [| c' d2] r1 r2 H1 H2 Heq.
  - reflexivity.
  - rewrite string_app_nil_l, string_app_cons in Heq. injection Heq as <- _.
    cbn in H2. discriminate.
  - rewrite string_app_nil_l, string_app_cons in Heq. injection Heq as -> _.
    cbn in H1. discriminate.
  - rewrite !string_app_cons in Heq. injection Heq as <- Heq.
    cbn [Spec.allDigits] in H1, H2.
    apply andb_true_iff in H1 as [_ H1]. apply andb_true_iff in H2 as [_ H2].
    f_equal. apply (IH d2 r1 r2 H1 H2 Heq).
Qed.

(** The file name tells the ordinal of the material. *)
Lemma binvoxName_ordinal base m1 m2 name1 name2 :
  0 <= m1 -> 0 <= m2 ->
  binvoxName base m1 name1 = binvoxName base m2 name2 -> m1 = m2.
Proof.
  intros H1 H2 Heq. unfold binvoxName in Heq.
  apply string_app_inv_head in Heq.
  apply (string_app_inv_head "-mat") in Heq.
  destruct (fmt02d_digits m1 H1) as (Hd1 & Hv1 & _).
  destruct (fmt02d_digits m2 H2) as (Hd2 & Hv2 & _).
  apply digits_before_hyphen in Heq; [| assumption ..].
  rewrite <- Hv1, <- Hv2. now rewrite Heq.
Qed.

(** X13. No two materials of a run share a file: the names [Slice] hands
    to [Write] are pairwise different. *)
Theorem Slice_files_are_distinct (σ : Σ) (files : Files) (i j : nat) (w w' : WriteCall) :
  let writes := snd (fst (Slice baseFilename slicer σ files)) in
  writes !! i = Some w -> writes !! j = Some w' -> i <> j ->
  wFilename w <> wFilename w'.
Proof.
  cbn zeta. unfold Slice.
  destruct (sliceFrom_writes baseFilename slicer (Z.to_nat (NumMaterials slicer)) 1
              ((σ, files), [])) as (ws & Hws & _ & _ & Hnames).
  cbn zeta in Hws. cbn [snd app] in Hws. rewrite Hws. intros Hi Hj Hne Heq.
  destruct (Hnames i w Hi) as (n1 & _ & Hf1).
  destruct (Hnames j w' Hj) as (n2 & _ & Hf2).
  rewrite Hf1, Hf2 in Heq. apply binvoxName_ordinal in Heq; lia.
Qed.

End Files.

Section FileScenarios.

Import Binvox Doubles.

Lemma Slice_stops_at_failed_write_witness :
  exists w,
    snd (fst (@Slice _ _ nullWriter "b" (@ofIrmf _ whiteBackend (manyMaterials 2))
                (freshEnv (0, 0)) tt)) !! 1%nat = Some w /\
    wResult w = None.
Proof.
  destruct (snd (fst (@Slice _ _ nullWriter "b" (@ofIrmf _ whiteBackend (manyMaterials 2))
                        (freshEnv (0, 0)) tt)) !! 1%nat) as [w |] eqn:Hw;
    [| vm_compute in Hw; discriminate].
  exists w. split; [reflexivity |].
  apply (proj2 (@Slice_stops_at_failed_write _ _ nullWriter "b"
                  (@ofIrmf _ whiteBackend (manyMaterials 2)) (freshEnv (0, 0)) tt)
           ltac:(now vm_compute) 1%nat w Hw).
Defined.

Lemma Slice_files_are_distinct_witness :
  exists w w',
    snd (fst (@Slice _ _ nullWriter "b" (@ofIrmf _ whiteBackend (manyMaterials 2))
                (freshEnv (0, 0)) tt)) !! 0%nat = Some w /\
    snd (fst (@Slice _ _ nullWriter "b" (@ofIrmf _ whiteBackend (manyMaterials 2))
                (freshEnv (0, 0)) tt)) !! 1%nat = Some w' /\
    wFilename w <> wFilename w'.
Proof.
  destruct (snd (fst (@Slice _ _ nullWriter "b" (@ofIrmf _ whiteBackend (manyMaterials 2))
                        (freshEnv (0, 0)) tt)) !! 0%nat) as [w |] eqn:Hw;
    [| vm_compute in Hw; discriminate].
  destruct (snd (fst (@Slice _ _ nullWriter "b" (@ofIrmf _ whiteBackend (manyMaterials 2))
                        (freshEnv (0, 0)) tt)) !! 1%nat) as [w' |] eqn:Hw';
    [| vm_compute in Hw'; discriminate].
  exists w, w'. split; [reflexivity |]. split; [reflexivity |].
  apply (@Slice_files_are_distinct _ _ nullWriter "b"
           (@ofIrmf _ whiteBackend (manyMaterials 2)) (freshEnv (0, 0)) tt
           0%nat 1%nat w w' Hw Hw').
  discriminate.
Defined.

End FileScenarios.

(** ** Reading a frame back from the GPU *)

Section ReadBack.

Import Wgpu.

Lemma uint32_wrap_small z : 0 <= z < 2 ^ 32 -> GoUint32.wrap z = z.
Proof. intros Hz. unfold GoUint32.wrap. now apply Z.mod_small. Qed.

Lemma imul_small a b :
  GoInt.minInt <= a * b <= GoInt.maxInt -> imul a b = a * b.
Proof. apply wrap_inRange. Qed.

Lemma andNot_255 x : Z.ldiff x 255 = x / 256 * 256.
Proof.
  change 255 with (Z.ones 8). rewrite Z.ldiff_ones_r by lia.
  now rewrite Z.shiftr_div_pow2, Z.shiftl_mul_pow2 by lia.
Qed.

(** X14. The row pitch of the read buffer is the width of a row in bytes,
    rounded up to the next multiple of 256. *)
Theorem bytesPerRow_aligned (width : Z) :
  0 <= width -> 4 * width + 255 < 2 ^ 32 ->
  bytesPerRow width mod 256 = 0 /\
  4 * width <= bytesPerRow width < 4 * width + 256.
Proof.
  intros H0 Hmax. unfold bytesPerRow, GoUint32.andNot, GoUint32.add.
  rewrite imul_small by (unfold GoInt.minInt, GoInt.maxInt; lia).
  rewrite (uint32_wrap_small (width * 4)) by lia.
  rewrite uint32_wrap_small by lia.
  rewrite andNot_255.
  pose proof (Z.div_mod (width * 4 + 255) 256 ltac:(lia)) as Hdm.
  pose proof (Z.mod_pos_bound (width * 4 + 255) 256 ltac:(lia)) as Hb.
  split; [apply Z.mod_mul; lia | lia].
Qed.

Lemma slice_inside {A : Type} (s : list A) a b :
  0 <= a <= b -> b <= Z.of_nat (length s) ->
  slice s a b = Some (take (Z.to_nat (b - a)) (drop (Z.to_nat a) s)).
Proof.
  intros Hab Hb. unfold slice.
  destruct (Z.leb_spec 0 a); [| lia]. destruct (Z.leb_spec a b); [| lia].
  destruct (Z.leb_spec b (Z.of_nat (length s))); [| lia]. reflexivity.
Qed.

(** The rows copied so far, and the length of the pixels. *)
Lemma copyRows_rows width bytesPerRow height data :
  0 <= width -> 4 * width <= bytesPerRow ->
  height < 2 ^ 32 -> bytesPerRow * height < 2 ^ 32 ->
  Z.of_nat (length data) = bytesPerRow * height ->
  forall (todo : nat) y pix,
    0 <= y -> y + Z.of_nat todo = height ->
    Z.of_nat (length pix) = 4 * width * height ->
    exists pix',
      copyRows todo y width bytesPerRow data pix = Some pix' /\
      Z.of_nat (length pix') = 4 * width * height /\
      (forall j : nat, Z.of_nat j < 4 * width * y -> pix' !! j = pix !! j) /\
      (forall r i, y <= r < height -> 0 <= i < 4 * width ->
                   pix' !! Z.to_nat (4 * width * r + i)
                     = data !! Z.to_nat (bytesPerRow * r + i)).
Proof.
  intros Hw Hpitch Hh32 Hsize Hdata.
  induction todo as [| todo IH]; intros y pix Hy Hrows Hlen; cbn [copyRows].
  - exists pix. split; [reflexivity |]. split; [exact Hlen |].
    split; [reflexivity |]. intros r i Hr. lia.
  - assert (Hyh : y < height) by lia.
    assert (Hrow : bytesPerRow * y + bytesPerRow <= bytesPerRow * height) by nia.
    assert (Hdst : 4 * width * y + 4 * width <= 4 * width * height) by nia.
    assert (Hbnn : 0 <= bytesPerRow * y) by nia.
    assert (Hdnn : 0 <= 4 * width * y) by nia.
    assert (Hyw : 0 <= y * width) by nia.
    assert (H32 : 2 ^ 32 = 4294967296) by reflexivity.
    rewrite (uint32_wrap_small y) by nia.
    unfold GoUint32.mul, GoUint32.add, GoInt.add.
    rewrite (imul_small width 4) by (unfold GoInt.minInt, GoInt.maxInt; nia).
    rewrite (imul_small y width) by (unfold GoInt.minInt, GoInt.maxInt; nia).
    rewrite (imul_small (y * width) 4) by (unfold GoInt.minInt, GoInt.maxInt; nia).
    rewrite (uint32_wrap_small (y * bytesPerRow)) by nia.
    rewrite (uint32_wrap_small (width * 4)) by nia.
    rewrite (uint32_wrap_small (y * bytesPerRow + width * 4)) by nia.
    rewrite (wrap_inRange (y * width * 4 + width * 4))
      by (unfold GoInt.minInt, GoInt.maxInt; nia).
    rewrite (slice_inside pix) by nia.
    rewrite (slice_inside data) by nia.
    set (dst := take _ (drop _ pix)). set (src := take _ (drop _ data)).
    assert (Hldst : length dst = Z.to_nat (4 * width)).
    { subst dst. rewrite length_take, length_drop. nia. }
    assert (Hlsrc : length src = Z.to_nat (4 * width)).
    { subst src. rewrite length_take, length_drop. nia. }
    rewrite Hldst, <- Hlsrc, firstn_all.
    destruct (IH (y + 1) (list_inserts (Z.to_nat (y * width * 4)) src pix))
      as (pix' & Hrun & Hlen' & Hkeep & Hdone).
    { lia. } { lia. } { now rewrite length_inserts. }
    exists pix'. split; [exact Hrun |]. split; [exact Hlen' |]. split.
    + intros j Hj. rewrite Hkeep by nia.
      apply list_lookup_inserts_lt. nia.
    + intros r i Hr Hi.
      destruct (Z.eq_dec r y) as [-> | Hne]; [| apply Hdone; lia].
      rewrite Hkeep by (rewrite Z2Nat.id by nia; nia).
      rewrite list_lookup_inserts by (rewrite ?Hlsrc; nia).
      subst src. rewrite lookup_take_lt by nia. rewrite lookup_drop.
      f_equal. nia.
Qed.

(** X15. [Render] strips the padding of the rows: the pixels are
    4 * width * height bytes, and byte i of row y is byte i of row y
    of the mapped buffer, whose rows are [bytesPerRow] apart. *)
Theorem readPixels_strips_padding (width height bytesPerRow : Z) (data : list Byte.byte) :
  0 <= width -> 0 <= height < 2 ^ 32 ->
  4 * width <= bytesPerRow -> bytesPerRow * height < 2 ^ 32 ->
  Z.of_nat (length data) = readBufferSize bytesPerRow height ->
  exists pix,
    readPixels width height bytesPerRow data = Some pix /\
    Z.of_nat (length pix) = 4 * width * height /\
    forall y i, 0 <= y < height -> 0 <= i < 4 * width ->
                pix !! Z.to_nat (4 * width * y + i)
                  = data !! Z.to_nat (bytesPerRow * y + i).
Proof.
  intros Hw [Hh Hh32] Hpitch Hsize Hdata.
  assert (H32 : 2 ^ 32 = 4294967296) by reflexivity.
  assert (Hbh : 0 <= bytesPerRow * height) by nia.
  assert (Hwh : 0 <= width * height) by nia.
  assert (Hwhb : 4 * (width * height) <= bytesPerRow * height) by nia.
  unfold readBufferSize, GoUint32.mul in Hdata.
  rewrite (uint32_wrap_small height) in Hdata by nia.
  rewrite uint32_wrap_small in Hdata by nia.
  unfold readPixels.
  rewrite (imul_small width height) by (unfold GoInt.minInt, GoInt.maxInt; nia).
  rewrite (imul_small (width * height) 4) by (unfold GoInt.minInt, GoInt.maxInt; nia).
  destruct (Z.ltb_spec (width * height * 4) 0) as [Hneg | _]; [lia |].
  destruct (copyRows_rows width bytesPerRow height data Hw Hpitch Hh32 Hsize Hdata
              (Z.to_nat height) 0 (replicate (Z.to_nat (width * height * 4)) Byte.x00))
    as (pix & Hrun & Hlen & _ & Hrows).
  { lia. } { lia. } { rewrite length_replicate. lia. }
  exists pix. split; [exact Hrun |]. split; [exact Hlen |]. exact Hrows.
Qed.

End ReadBack.

Section ReadBackScenarios.

Import Wgpu.

Lemma bytesPerRow_aligned_witness :
  bytesPerRow 100 mod 256 = 0 /\ 4 * 100 <= bytesPerRow 100 < 4 * 100 + 256.
Proof. apply (bytesPerRow_aligned 100); lia. Defined.

Lemma readPixels_strips_padding_witness :
  let data := [Byte.x01; Byte.x02; Byte.x03; Byte.x04; Byte.xaa; Byte.xaa; Byte.xaa; Byte.xaa;
               Byte.x05; Byte.x06; Byte.x07; Byte.x08; Byte.xbb; Byte.xbb; Byte.xbb; Byte.xbb] in
  readPixels 1 2 8 data
    = Some [Byte.x01; Byte.x02; Byte.x03; Byte.x04; Byte.x05; Byte.x06; Byte.x07; Byte.x08].
Proof.
  intros data.
  destruct (readPixels_strips_padding 1 2 8 data) as (pix & Hrun & _);
    [lia | lia | lia | lia | reflexivity |].
  rewrite Hrun. vm_compute in Hrun. now symmetry.
Defined.

End ReadBackScenarios.

(** ** The window of the OpenGL renderer *)

Section GlslWindow.

Import Glsl.

Context {World : Type} `{!Library World}.

Lemma openWindows_app cs1 cs2 :
  openWindows (cs1 ++ cs2)
    = foldl (fun open c =>
               match c with
               | Terminate => []
               | CreateWindow _ _ _ (inl win) => open ++ [win]
               | _ => open
               end) (openWindows cs1) cs2.
Proof. unfold openWindows. apply foldl_app. Qed.

Lemma setHints_calls hints : forall env : Env,
  exists cs,
    snd (setHints hints env) = snd env ++ cs /\
    Forall (fun c => exists h v, c = WindowHint h v) cs.
Proof.
  induction hints as [| [h v] hints IH]; intros env.
  - exists []. split; [cbn; now rewrite app_nil_r | constructor].
  - cbn [setHints foldl].
    destruct (IH (did env (glfwWindowHint h v (fst env)) [WindowHint h v]))
      as (cs & Hcs & Hall).
    exists (WindowHint h v :: cs). split.
    + unfold setHints in Hcs. cbn [fst snd] in Hcs |- *. rewrite Hcs. cbn.
      now rewrite <- app_assoc.
    + constructor; [eauto | exact Hall].
Qed.

Lemma openWindows_hints cs1 cs :
  Forall (fun c => exists h v, c = WindowHint h v) cs ->
  openWindows (cs1 ++ cs) = openWindows cs1.
Proof.
  intros Hall. rewrite openWindows_app. induction Hall as [| c cs (h & v & ->) _ IH].
  - reflexivity.
  - cbn [foldl]. exact IH.
Qed.

(** Creating the window: the calls start with [glfw.Init], the
    fields other than the window are left alone, and without an
    error a window is held. The windows open afterwards are the one
    created, if any, next to those open before. *)
Lemma createWindow_cases (r0 : OpenGLRenderer) (env0 : Env) :
  window r0 = None ->
  let res := createWindow r0 env0 in
  let r' := fst (fst res) in
  Glsl.width r' = Glsl.width r0 /\ Glsl.height r' = Glsl.height r0 /\
  Glsl.view r' = Glsl.view r0 /\
  (snd res = None -> exists win, window r' = Some win) /\
  (exists e cs, snd (snd (fst res)) = snd env0 ++ GlfwInit e :: cs) /\
  openWindows (snd (snd (fst res)))
    = openWindows (snd env0)
      ++ match window r' with
         | Some win => [win]
         | None => []
         end.
Proof.
  intros Hnone. cbn zeta. unfold createWindow.
  destruct (glfwInit (fst env0)) as [w1 [err |]].
  - cbn [fst snd did]. repeat split; try discriminate; [eauto |].
    rewrite openWindows_app, Hnone. cbn [foldl]. now rewrite app_nil_r.
  - destruct (setHints_calls (windowHints (Glsl.view r0)) (did env0 w1 [GlfwInit None]))
      as (hs & Hhs & Hall).
    pose proof (openWindows_hints (snd (did env0 w1 [GlfwInit None])) hs Hall) as Hopen.
    rewrite <- Hhs in Hopen.
    assert (Hopen0 : openWindows (snd (did env0 w1 [GlfwInit None])) = openWindows (snd env0)).
    { cbn [did snd]. rewrite openWindows_app. reflexivity. }
    rewrite Hopen0 in Hopen.
    destruct (glfwCreateWindow _ _ _ _) as [w3 [win | err]].
    + destruct (glInit _) as [w5 [err |]];
        cbn [fst snd did Glsl.width Glsl.height Glsl.view window];
        (repeat split; try discriminate; eauto;
         [rewrite Hhs; cbn [did snd]; rewrite <- ?app_assoc; cbn [app]; eauto |]);
        rewrite !openWindows_app; cbn [foldl]; rewrite Hopen; reflexivity.
    + cbn [fst snd did]. repeat split; try discriminate.
      * rewrite Hhs. cbn [did snd]. rewrite <- ?app_assoc. cbn [app]. eauto.
      * rewrite openWindows_app. cbn [foldl]. rewrite Hopen, Hnone. now rewrite app_nil_r.
Qed.

(** X16. [Init] stores the size and the flag it is given, whatever comes
    of it. It keeps a window of the size asked for without any call
    into GLFW or OpenGL; it terminates GLFW first when the window has
    another size; and when it returns no error the renderer holds a
    window. *)
Theorem Init_keeps_or_replaces_window (width height : Z) (view : bool)
    (r : OpenGLRenderer) (env : Env) :
  let res := Init width height view r env in
  let r' := fst (fst res) in
  let calls' := snd (snd (fst res)) in
  Glsl.width r' = width /\ Glsl.height r' = height /\ Glsl.view r' = view /\
  (snd res = None -> exists win, window r' = Some win) /\
  match window r with
  | Some win =>
      if (Glsl.width r =? width) && (Glsl.height r =? height)
      then window r' = Some win /\ snd (fst res) = env /\ snd res = None
      else exists e cs, calls' = snd env ++ Terminate :: GlfwInit e :: cs
  | None => exists e cs, calls' = snd env ++ GlfwInit e :: cs
  end.
Proof.
  cbn zeta. unfold Init.
  destruct (window r) as [win |] eqn:Hwin.
  - destruct ((Glsl.width r =? width) && (Glsl.height r =? height)) eqn:Hsame.
    + apply andb_true_iff in Hsame as [-> ->]. cbn. repeat split. eauto.
    + replace (negb (Glsl.width r =? width) || negb (Glsl.height r =? height)) with true
        by (rewrite <- negb_andb, Hsame; reflexivity).
      destruct (createWindow_cases
                  {| window := None; width := width; height := height; view := view |}
                  (did env (glfwTerminate (fst env)) [Terminate]) eq_refl)
        as (H1 & H2 & H3 & H4 & (e & cs & H5) & _).
      repeat split; try assumption. exists e, cs. rewrite H5. cbn [did snd].
      now rewrite <- app_assoc.
  - destruct (createWindow_cases
                {| window := None; width := width; height := height; view := view |}
                env eq_refl) as (H1 & H2 & H3 & H4 & H5 & _).
    repeat split; assumption.
Qed.

(** One call keeps the window held the one window open. *)
Lemma step_keeps_window (st : OpenGLRenderer * Env) (o : op) :
  openWindows (snd (snd st)) = match window (fst st) with Some win => [win] | None => [] end ->
  openWindows (snd (snd (step st o)))
    = match window (fst (step st o)) with Some win => [win] | None => [] end.
Proof.
  destruct st as [r env]. cbn [fst snd]. intros Hinv.
  destruct o as [width height view |]; cbn [step fst snd].
  - unfold Init.
    destruct (window r) as [win |] eqn:Hwin.
    + destruct (negb (Glsl.width r =? width) || negb (Glsl.height r =? height)).
      * pose proof (createWindow_cases
                      {| window := None; width := width; height := height; view := view |}
                      (did env (glfwTerminate (fst env)) [Terminate]) eq_refl) as Hc.
        cbn zeta in Hc. destruct Hc as (_ & _ & _ & _ & _ & Hopen).
        rewrite Hopen. cbn [did snd]. rewrite openWindows_app. reflexivity.
      * cbn. exact Hinv.
    + pose proof (createWindow_cases
                    {| window := None; width := width; height := height; view := view |}
                    env eq_refl) as Hc.
      cbn zeta in Hc. destruct Hc as (_ & _ & _ & _ & _ & Hopen).
      rewrite Hopen, Hinv. reflexivity.
  - unfold Close. destruct (window r) as [win |] eqn:Hw.
    + cbn [fst snd did window]. rewrite openWindows_app. reflexivity.
    + cbn [fst snd]. rewrite Hw. exact Hinv.
Qed.

(** X17. The window the renderer holds is the one window open, through
    any sequence of [Init] and [Close] calls on a new renderer:
    no window is left behind when the size changes, and none is open
    after [Close]. *)
Theorem one_window_at_a_time (ops : list op) (w : World) :
  let st := run ops (zeroRenderer, (w, [])) in
  openWindows (snd (snd st)) = match window (fst st) with Some win => [win] | None => [] end.
Proof.
  cbn zeta. unfold run.
  assert (Hgen : forall st : OpenGLRenderer * Env,
            openWindows (snd (snd st))
              = match window (fst st) with Some win => [win] | None => [] end ->
            openWindows (snd (snd (foldl step st ops)))
              = match window (fst (foldl step st ops)) with
                | Some win => [win]
                | None => []
                end).
  { induction ops as [| o ops IH]; intros st Hinv; [exact Hinv |].
    cbn [foldl]. apply IH, step_keeps_window, Hinv. }
  apply Hgen. reflexivity.
Qed.

(** X18. [Close] terminates GLFW exactly when a window is held, and a
    second [Close] does nothing. *)
Theorem Close_is_idempotent (r : OpenGLRenderer) (env : Env) :
  let st := Close r env in
  window (fst st) = None /\
  snd (snd st) = snd env ++ match window r with Some _ => [Terminate] | None => [] end /\
  Close (fst st) (snd st) = st.
Proof.
  cbn zeta. unfold Close. destruct (window r) as [win |] eqn:Hwin.
  - cbn. repeat split.
  - cbn [fst snd]. rewrite Hwin, app_nil_r. repeat split.
Qed.

End GlslWindow.

(** ** The footers of the fragment shaders *)

Section Footers.

Import Footer.

Lemma prefix_app (p s : string) :
  String.prefix p s = true -> exists t, s = (p ++ t)%string.
Proof.
  revert s. induction p as [| a p IH]; intros s H.
  - exists s. reflexivity.
  - destruct s as [| b s]; [discriminate |]. cbn [String.prefix] in H.
    destruct (ascii_dec a b) as [-> | Hne]; [| discriminate].
    destruct (IH s H) as [t ->]. exists t. reflexivity.
Qed.

Lemma replaceFrom_skip (a : string) : forall t old new,
  replaceFrom (String.length a) (a ++ t) old new = replaceFrom O t old new.
Proof.
  induction a as [| c a IH]; intros t old new; [reflexivity |].
  rewrite string_app_cons. cbn [String.length replaceFrom].
  destruct t; apply IH.
Qed.

(** Replacing a pattern by itself changes nothing. *)
Lemma Replace_same (old : string) :
  old <> EmptyString -> forall s, Replace s old old = s.
Proof.
  intros Hne. unfold Replace.
  assert (Hlen : forall (n : nat) s, (String.length s <= n)%nat ->
                   replaceFrom O s old old = s).
  { induction n as [| n IH]; intros s Hs.
    - destruct s; [reflexivity | cbn in Hs; lia].
    - destruct s as [| c rest]; [reflexivity |]. cbn [replaceFrom].
      destruct (String.prefix old (String c rest)) eqn:Hp.
      + destruct (prefix_app _ _ Hp) as [t Ht].
        destruct old as [| a old']; [contradiction |].
        rewrite string_app_cons in Ht. injection Ht as -> ->.
        cbn [String.length]. rewrite Nat.sub_succ, Nat.sub_0_r, replaceFrom_skip.
        rewrite IH; [reflexivity |].
        cbn [String.length] in Hs. rewrite string_length_app in Hs. lia.
      + f_equal. apply IH. cbn [String.length] in Hs. lia. }
  intros s. apply (Hlen (String.length s)). lia.
Qed.

(** X19. Both footers are generated for the same model function: the one
    of 9 materials for 5 to 9 materials, the one of 16 for 10 to 16,
    and the one of 4 for every other count, also above 16 and below
    1. The operand is put into the WGSL text as it is, the
    replacement of "fragVert" by itself changing nothing, and the
    GLSL text ends with a NUL. *)
Theorem footers_agree (numMaterials : Z) (vec3Str : string) :
  let glsl := if arity numMaterials =? 9 then fsFooterFmt9
              else if arity numMaterials =? 16 then fsFooterFmt16
              else fsFooterFmt4 in
  let wgsl := if arity numMaterials =? 9 then wgslFSFooterFmt9
              else if arity numMaterials =? 16 then wgslFSFooterFmt16
              else wgslFSFooterFmt4 in
  genFooter numMaterials vec3Str = (Sprintf glsl vec3Str ++ String "000" EmptyString)%string /\
  genWGSLFooter numMaterials vec3Str = Sprintf wgsl vec3Str /\
  (1 <= numMaterials <= 16 -> numMaterials <= arity numMaterials) /\
  (numMaterials <= 0 \/ 17 <= numMaterials -> arity numMaterials = 4).
Proof.
  cbn zeta. unfold genWGSLFooter. rewrite Replace_same by discriminate.
  unfold genFooter, arity.
  destruct (Z.leb_spec 5 numMaterials) as [H5 | H5];
    destruct (Z.leb_spec numMaterials 9) as [H9 | H9];
    destruct (Z.leb_spec 10 numMaterials) as [H10 | H10];
    destruct (Z.leb_spec numMaterials 16) as [H16 | H16];
    cbn [andb Z.eqb Pos.eqb]; try lia.
  - assert (Hn : numMaterials = 5 \/ numMaterials = 6 \/ numMaterials = 7 \/
                 numMaterials = 8 \/ numMaterials = 9) by lia.
    repeat split; try lia;
      destruct Hn as [-> | [-> | [-> | [-> | ->]]]]; reflexivity.
  - assert (Hn : numMaterials = 10 \/ numMaterials = 11 \/ numMaterials = 12 \/
                 numMaterials = 13 \/ numMaterials = 14 \/ numMaterials = 15 \/
                 numMaterials = 16) by lia.
    repeat split; try lia;
      destruct Hn as [-> | [-> | [-> | [-> | [-> | [-> | ->]]]]]]; reflexivity.
  - repeat split; try lia;
      destruct numMaterials as [| p | p]; try reflexivity;
      do 5 (destruct p as [p | p |]; try reflexivity; try lia).
  - repeat split; try lia;
      destruct numMaterials as [| p | p]; try reflexivity;
      do 5 (destruct p as [p | p |]; try reflexivity; try lia).
Qed.

End Footers.

